(** * proxmox-guardian: shutdown orchestration, journal, UPS monitor

    A shallow embedding of the Go packages [executor], [state], [ups],
    [orchestrator] and [recovery], and the properties of the design
    document checked against them.

    Conventions of the embedding:
    - a Go [int] / [time.Duration] / [time.Time] is a [Z];
    - a Go [error] is its message, [option error] is a possibly-nil error;
    - a pointer result [*ActionResult] is an [option ActionResult];
    - a nil-pointer dereference or a slice-bounds failure is [Panic];
    - what the outside world answers (executors, clock, context
      cancellation, file system) is read from explicit oracles. *)

From Stdlib Require Import ZArith Lia Ascii.
From stdpp Require Import base list strings pretty gmap.

Open Scope Z_scope.

(** ** Shared vocabulary *)

Definition error := string.

(** Outcome of a Go call that may panic. *)
Inductive run (A : Type) : Type :=
| Ret (a : A)
| Panic.
Arguments Ret {A} a.
Arguments Panic {A}.

(** Go's [s != ""] on strings. *)
Definition nonempty (s : string) : bool := negb (String.eqb s "").

(** ** Effects

    The stateful packages are written in a state monad whose world holds the
    mutable object of the package, the number of questions asked to the
    outside so far, and the trace of what the code did. *)

(** What the code does to the outside, and (first constructor) to the
    [Status] field of the session.  [D] is the type of the document handed
    to [json.MarshalIndent]; a file content is the document it renders.
    [ECreateTemp], [ESync] and [ERename] are the calls of an atomic
    replacement of a file: no function below makes them, they are there so
    that this can be said. *)
Inductive Effect (D : Type) : Type :=
| EStatus (s : string)                      (* the Status field is assigned s *)
| EMkdirAll (dir : string) (perm : Z)       (* os.MkdirAll *)
| EWriteFile (path : string) (data : D) (perm : Z)   (* os.WriteFile *)
| ECreateTemp (dir pattern : string)        (* os.CreateTemp *)
| ESync (path : string)                     (* File.Sync *)
| ERename (oldpath newpath : string)        (* os.Rename *)
| ENotify (event : string)                  (* notifier.Notify *)
| ELog (level msg : string)                 (* logger.Info / Error / Debug *)
| EExecute (phase action : Z)               (* the action's executor is run *)
| EHealthcheck (phase action : Z)           (* Executor.Healthcheck *)
| ERecover (action : nat) (attempt : Z)     (* Executor.Recover *)
| EWait (d : Z).                            (* select on ctx.Done() and a timer *)
Arguments EStatus {D} s.
Arguments EMkdirAll {D} dir perm.
Arguments EWriteFile {D} path data perm.
Arguments ECreateTemp {D} dir pattern.
Arguments ESync {D} path.
Arguments ERename {D} oldpath newpath.
Arguments ENotify {D} event.
Arguments ELog {D} level msg.
Arguments EExecute {D} phase action.
Arguments EHealthcheck {D} phase action.
Arguments ERecover {D} action attempt.
Arguments EWait {D} d.

(** The answers of the outside, indexed by the number of the question:
    the clock, whether a [select] sees the context cancelled, [ctx.Err()],
    the error of a file-system call and the error of a notification. *)
Record Env := {
  time_at : nat → Z;
  ctx_done : nat → bool;
  ctx_err : error;
  os_err : nat → option error;
  notify_err : nat → option error
}.

Record World (S D : Type) := {
  cur : S;
  steps : nat;
  trace : list (Effect D)
}.
Arguments cur {S D} w.
Arguments steps {S D} w.
Arguments trace {S D} w.

Definition M (S D A : Type) : Type := World S D → run A * World S D.

Definition init_world {S D} (s : S) : World S D :=
  {| cur := s; steps := 0; trace := [] |}.

Section Monad.
Context {S D : Type}.

Definition ret {A} (a : A) : M S D A := λ w, (Ret a, w).

Definition bind {A B} (c : M S D A) (k : A → M S D B) : M S D B :=
  λ w, match c w with
       | (Ret a, w') => k a w'
       | (Panic, w') => (Panic, w')
       end.

Definition panic {A} : M S D A := λ w, (Panic, w).

Definition get : M S D S := λ w, (Ret (cur w), w).

Definition modify (f : S → S) : M S D unit :=
  λ w, (Ret tt, {| cur := f (cur w); steps := steps w; trace := trace w |}).

Definition emit (e : Effect D) : M S D unit :=
  λ w, (Ret tt, {| cur := cur w; steps := steps w; trace := trace w ++ [e] |}).

(** One question to the outside. *)
Definition ask {A} (answer : nat → A) : M S D A :=
  λ w, (Ret (answer (steps w)),
        {| cur := cur w; steps := Datatypes.S (steps w); trace := trace w |}).

Variable env : Env.

(** [time.Now()]. *)
Definition now : M S D Z := ask (time_at env).

(** A call of package [os]. *)
Definition os_call (e : Effect D) : M S D (option error) :=
  bind (emit e) (λ _, ask (os_err env)).

(** [select { case <-ctx.Done(): ...; case <-time.After(d): ... }]:
    [true] when the first branch is taken. *)
Definition select_done (d : Z) : M S D bool :=
  bind (emit (EWait d)) (λ _, ask (ctx_done env)).

Definition log (level msg : string) : M S D unit := emit (ELog level msg).

(** [notify]: nothing without a notifier; a failed notification is only
    logged. *)
Definition notify (has_notifier : bool) (event : string) : M S D unit :=
  if has_notifier then
    bind (emit (ENotify event)) (λ _,
    bind (ask (notify_err env)) (λ err,
    match err with
    | Some _ => log "error" "Notification failed"
    | None => ret tt
    end))
  else ret tt.

End Monad.

Notation "'let*' x ':=' c 'in' k" := (bind c (λ x, k))
  (at level 10, x pattern, c at level 100, k at level 200).
Notation "c ';;' k" := (bind c (λ _, k))
  (at level 100, k at level 200, right associativity).

(** The successive values assigned to the [Status] field along a trace. *)
Definition status_history {D} (tr : list (Effect D)) : list string :=
  omap (λ e, match e with EStatus s => Some s | _ => None end) tr.

(** The status graph of the design document:
    idle -> in_progress -> completed | failed;
    in_progress | completed | failed -> recovering -> idle | failed. *)
Definition dag_edge (a b : string) : bool :=
  (String.eqb a "idle" && String.eqb b "in_progress")
  || (String.eqb a "in_progress"
      && (String.eqb b "completed" || String.eqb b "failed"))
  || ((String.eqb a "in_progress" || String.eqb a "completed" || String.eqb a "failed")
      && String.eqb b "recovering")
  || (String.eqb a "recovering" && (String.eqb b "idle" || String.eqb b "failed")).

(** A history that starts in [s] only moves along edges of the graph
    (assigning the value the field already has is not a move). *)
Fixpoint follows_dag (s : string) (hist : list string) : bool :=
  match hist with
  | [] => true
  | s' :: rest => (String.eqb s s' || dag_edge s s') && follows_dag s' rest
  end.

Arguments status_history : simpl never.

(** The discipline the design document asks of a journal update: a temporary
    file is created, synced and renamed over the state file, and the state
    file itself is never written in place. *)
Definition atomic_replace {D} (path : string) (tr : list (Effect D)) : Prop :=
  (∃ dir pattern tmp,
      [ECreateTemp dir pattern; ESync tmp; ERename tmp path] `sublist_of` tr)
  ∧ ∀ data perm, EWriteFile path data perm ∉ tr.

(** Did a call return a nil error. *)
Definition returned_nil (r : run (option error)) : bool :=
  match r with
  | Ret None => true
  | _ => false
  end.

(** [c] takes every world to an [R]-related one, whatever it returns. *)
Definition preserves {S D A} (R : relation (World S D)) (c : M S D A) : Prop :=
  ∀ w, R w (c w).2.

Definition is_status {D} (e : Effect D) : bool :=
  match e with
  | EStatus _ => true
  | _ => false
  end.

(** Steps that neither write the [Status] field (read by [status_of]) nor
    mark its assignment in the trace. *)
Definition same_status {S D} (status_of : S → string) : relation (World S D) :=
  λ w w', status_history (trace w') = status_history (trace w)
          ∧ status_of (cur w') = status_of (cur w).

(** File modes. *)
Definition mode_0600 : Z := 6 * 64.
Definition mode_0750 : Z := 7 * 64 + 5 * 8.

(** *** What a trace shows *)

(** The notifications sent along a trace. *)
Definition notifications {D} (tr : list (Effect D)) : list string :=
  omap (λ e, match e with ENotify ev => Some ev | _ => None end) tr.

(** The documents handed to [os.WriteFile] along a trace. *)
Definition documents {D} (tr : list (Effect D)) : list D :=
  omap (λ e, match e with EWriteFile _ d _ => Some d | _ => None end) tr.

(** The calls of [Recover] along a trace, as (entry, attempt) pairs, and
    the delays waited for. *)
Definition recover_calls {D} (tr : list (Effect D)) : list (nat * Z) :=
  omap (λ e, match e with ERecover a k => Some (a, k) | _ => None end) tr.

Definition waited {D} (tr : list (Effect D)) : list Z :=
  omap (λ e, match e with EWait d => Some d | _ => None end) tr.

(** The calls of [Recover] and the waits along a trace, in the order in
    which they were made. *)
Definition calls_and_waits {D} (tr : list (Effect D)) : list (nat * Z + Z) :=
  omap (λ e, match e with
             | ERecover a k => Some (inl (a, k))
             | EWait d => Some (inr d)
             | _ => None
             end) tr.

(** The calls of the file system. *)
Definition is_fs {D} (e : Effect D) : bool :=
  match e with
  | EMkdirAll _ _ | EWriteFile _ _ _ | ECreateTemp _ _ | ESync _ | ERename _ _ => true
  | _ => false
  end.

(** The effects by which a command of the plan is run. *)
Definition runs_command {D} (e : Effect D) : bool :=
  match e with
  | EExecute _ _ | EHealthcheck _ _ | ERecover _ _ => true
  | _ => false
  end.

(** What the run of one action does besides its journal entry: the log,
    the executor, the health check and the waits of the retries. *)
Definition of_action {D} (e : Effect D) : bool :=
  match e with
  | ELog _ _ | EExecute _ _ | EHealthcheck _ _ | EWait _ => true
  | _ => false
  end.

(** A part of a trace that touches no file but [path], written in place
    with mode 0600. *)
Definition state_writes_only {D} (path : string) (ext : list (Effect D)) : Prop :=
  ∀ e, e ∈ ext → is_fs e = true → ∃ d, e = EWriteFile path d mode_0600.

(** Each list is a prefix of the next one, starting from [base]. *)
Fixpoint increasing {A} (base : list A) (ls : list (list A)) : Prop :=
  match ls with
  | [] => True
  | l :: rest => base `prefix_of` l ∧ increasing l rest
  end.

(** [c] never panics, and what it returns satisfies [Q]. *)
Definition returns {S D A} (c : M S D A) (Q : A → Prop) : Prop :=
  ∀ w, match (c w).1 with
       | Ret a => Q a
       | Panic => False
       end.

(** ** Package [state]: the journal *)

Module state.

Inductive Status :=
| StatusIdle
| StatusInProgress
| StatusCompleted
| StatusFailed
| StatusRecovering.

#[global] Instance Status_eq_dec : EqDecision Status.
Proof. solve_decision. Defined.

(** The string constant behind each [Status]. *)
Definition Status_string (s : Status) : string :=
  match s with
  | StatusIdle => "idle"
  | StatusInProgress => "in_progress"
  | StatusCompleted => "completed"
  | StatusFailed => "failed"
  | StatusRecovering => "recovering"
  end.

Record SelectorSpec := {
  sel_Type : string;
  sel_Tags : list string;
  sel_ExcludeTags : list string;
  sel_NameRegex : string;
  sel_VMIDRange : list Z
}.

Record ActionSpec := {
  spec_Type : string;
  Host : string;
  User : string;
  Guest : string;
  Command : string;
  Recovery : string;
  Action : string;
  Selector : option SelectorSpec
}.

Record CompletedAction := {
  PhaseIndex : Z;
  PhaseName : string;
  ActionIndex : Z;
  ActionType : string;
  Spec : ActionSpec;         (* field ActionSpec *)
  CompletedAt : Z;
  Success : bool;
  Output : string;
  Error : string
}.

Record State := {
  SessionID : string;
  StartedAt : Z;
  status : Status;           (* field Status *)
  TriggerEvent : string;
  CurrentPhase : Z;
  CurrentAction : Z;
  CompletedActions : list CompletedAction;
  LastUpdated : Z;
  LastError : string
}.

(** The zero value of [State] with the given status and time stamp. *)
Definition zero_State (st : Status) (now : Z) : State :=
  {| SessionID := ""; StartedAt := 0; status := st; TriggerEvent := "";
     CurrentPhase := 0; CurrentAction := 0; CompletedActions := [];
     LastUpdated := now; LastError := "" |}.

(** [Manager]: the mutex is left out, the pointer [state] is the value it
    points to. *)
Record Manager := {
  filePath : string;
  mstate : State
}.

Definition NewManager (path : string) : Manager :=
  {| filePath := path; mstate := zero_State StatusIdle 0 |}.

Definition with_state (m : Manager) (s : State) : Manager :=
  {| filePath := filePath m; mstate := s |}.

Definition StartSession (m : Manager) (sessionID : string) (now : Z)
    (triggerEvent : string) : Manager :=
  with_state m
    {| SessionID := sessionID; StartedAt := now; status := StatusInProgress;
       TriggerEvent := triggerEvent; CurrentPhase := 0; CurrentAction := 0;
       CompletedActions := []; LastUpdated := now; LastError := "" |}.

Definition RecordAction (m : Manager) (now : Z) (a : CompletedAction) : Manager :=
  let s := mstate m in
  with_state m
    {| SessionID := SessionID s; StartedAt := StartedAt s; status := status s;
       TriggerEvent := TriggerEvent s; CurrentPhase := CurrentPhase s;
       CurrentAction := CurrentAction s;
       CompletedActions := CompletedActions s ++ [a];
       LastUpdated := now; LastError := LastError s |}.

Definition SetStatus (m : Manager) (now : Z) (st : Status) : Manager :=
  let s := mstate m in
  with_state m
    {| SessionID := SessionID s; StartedAt := StartedAt s; status := st;
       TriggerEvent := TriggerEvent s; CurrentPhase := CurrentPhase s;
       CurrentAction := CurrentAction s;
       CompletedActions := CompletedActions s;
       LastUpdated := now; LastError := LastError s |}.

Definition SetError (m : Manager) (now : Z) (err : string) : Manager :=
  let s := mstate m in
  with_state m
    {| SessionID := SessionID s; StartedAt := StartedAt s; status := status s;
       TriggerEvent := TriggerEvent s; CurrentPhase := CurrentPhase s;
       CurrentAction := CurrentAction s;
       CompletedActions := CompletedActions s;
       LastUpdated := now; LastError := err |}.

Definition UpdateProgress (m : Manager) (now : Z) (phaseIndex actionIndex : Z)
    : Manager :=
  let s := mstate m in
  with_state m
    {| SessionID := SessionID s; StartedAt := StartedAt s; status := status s;
       TriggerEvent := TriggerEvent s; CurrentPhase := phaseIndex;
       CurrentAction := actionIndex;
       CompletedActions := CompletedActions s;
       LastUpdated := now; LastError := LastError s |}.

Definition GetState (m : Manager) : State := mstate m.

Definition NeedsRecovery (m : Manager) : bool :=
  bool_decide (status (mstate m) = StatusInProgress)
  || bool_decide (status (mstate m) = StatusFailed).

Definition Clear (m : Manager) (now : Z) : Manager :=
  with_state m (zero_State StatusIdle now).

(** The methods above as the recovery manager calls them: on the manager
    held in the world, reading [time.Now()] and leaving a mark in the trace
    when the [Status] field is written. *)
Definition do_SetStatus (env : Env) (st : Status) : M Manager State unit :=
  let* t := now env in
  modify (λ m, SetStatus m t st);;
  emit (EStatus (Status_string st)).

Definition do_SetError (env : Env) (err : string) : M Manager State unit :=
  let* t := now env in
  modify (λ m, SetError m t err).

Definition do_Clear (env : Env) : M Manager State unit :=
  let* t := now env in
  modify (λ m, Clear m t);;
  emit (EStatus (Status_string StatusIdle)).

(** [Save].  The directory is [filePath] without its last
    [len("/state.json")] bytes; the slice expression panics when [filePath]
    is shorter than that. *)
Definition Save (env : Env) : M Manager State (option error) :=
  let* m := get in
  let n := String.length "/state.json" in
  if (String.length (filePath m) <? n)%nat then panic
  else
    let dir := String.substring 0 (String.length (filePath m) - n) (filePath m) in
    let* err := os_call env (EMkdirAll dir mode_0750) in
    match err with
    | Some e => ret (Some ("creating state directory: " +:+ e))
    | None =>
        let* err := os_call env (EWriteFile (filePath m) (mstate m) mode_0600) in
        match err with
        | Some e => ret (Some ("writing state file: " +:+ e))
        | None => ret None
        end
    end.

(** *** [GetActionsForRecovery] *)

(** The test of the first loop: [action.Success && action.ActionSpec.Recovery != ""]. *)
Definition keeps (a : CompletedAction) : bool :=
  Success a && nonempty (Recovery (Spec a)).

(** First loop: [recoverable = append(recoverable, action)] for the kept ones. *)
Definition collect (acts : list CompletedAction) : list CompletedAction :=
  fold_left (fun recoverable a => if keeps a then recoverable ++ [a] else recoverable)
            acts [].

(** One exchange [l[i], l[j] = l[j], l[i]]. *)
Definition swap {A} (l : list A) (i j : nat) : list A :=
  match l !! i, l !! j with
  | Some x, Some y => <[j := x]> (<[i := y]> l)
  | _, _ => l
  end.

(** Second loop: [for i, j := 0, len-1; i < j; i, j = i+1, j-1 { swap }].
    [fuel] bounds the number of iterations; [length l] is always enough. *)
Fixpoint reverse_loop {A} (fuel : nat) (i j : Z) (l : list A) : list A :=
  match fuel with
  | O => l
  | S fuel' =>
      if i <? j
      then reverse_loop fuel' (i + 1) (j - 1) (swap l (Z.to_nat i) (Z.to_nat j))
      else l
  end.

Definition reverse_in_place {A} (l : list A) : list A :=
  reverse_loop (length l) 0 (Z.of_nat (length l) - 1) l.

Definition GetActionsForRecovery (m : Manager) : list CompletedAction :=
  reverse_in_place (collect (CompletedActions (mstate m))).

(** What the design document asks for, in its own words: the completed
    actions that succeeded and carry a non-empty recovery command. *)
Definition recoverable (a : CompletedAction) : Prop :=
  Success a = true ∧ Recovery (Spec a) ≠ "".

#[global] Instance recoverable_dec a : Decision (recoverable a).
Proof. unfold recoverable. apply _. Defined.

Definition ActionsForRecovery_spec (s : State) : list CompletedAction :=
  reverse (filter recoverable (CompletedActions s)).

End state.

(** ** Package [executor]: the executor contract and the retry wrapper *)

Module executor.

Record ActionResult := {
  Success : bool;
  Output : string;
  Error : string;
  Duration : Z;
  Retries : Z
}.

(** The pair of a result pointer and an error returned by [Execute] and
    [Recover]. *)
Definition outcome : Type := option ActionResult * option error.

Record RetryConfig := {
  Attempts : Z;
  Delay : Z;
  Backoff : string
}.

Record HealthcheckConfig := {
  hc_Command : string;
  Expect : string
}.

(** The [Executor] interface.  An executor is a stateful object (the test
    suite's mock counts its calls), so [Execute k] and [Recover k] are the
    answers of the call number [k], counted from 0. *)
Record Executor := {
  Execute : nat → outcome;
  Recover : nat → outcome;
  Healthcheck : bool * option error;
  Describe : string                      (* method String() *)
}.

(** [time.Duration] is an [int64]: [delay * 2] wraps around. *)
Definition wrap64 (z : Z) : Z := (z + 2 ^ 63) mod 2 ^ 64 - 2 ^ 63.

(** [result.Retries = n] through the pointer. *)
Definition set_Retries (n : Z) (r : ActionResult) : ActionResult :=
  {| Success := Success r; Output := Output r; Error := Error r;
     Duration := Duration r; Retries := n |}.

(** The test [err == nil && result.Success]: the right operand is only
    evaluated when [err] is nil, and dereferences [result]. *)
Definition succeeded (o : outcome) : run bool :=
  match o with
  | (_, Some _) => Ret false
  | (Some r, None) => Ret (Success r)
  | (None, None) => Panic
  end.

(** What a call of [ExecuteWithRetry] did: the pair it returned, how many
    times it called [Execute], and the delays it waited for (a wait cut short
    by cancellation included). *)
Record retry_run := {
  returned : outcome;
  calls : nat;
  waits : list Z
}.

Section Retry.

(** [exec k]: answer of the call number [k] of [exec.Execute(ctx)].
    [done k]: does the [select] number [k] of this call take the
    [<-ctx.Done()] branch.  [ctxErr]: the value of [ctx.Err()] then. *)
Variable exec : nat → outcome.
Variable done : nat → bool.
Variable ctxErr : error.
Variable retry : RetryConfig.

(** The loop [for attempt := 1; attempt <= retry.Attempts; attempt++].
    [left] is the number of iterations still to run, [Attempts - attempt + 1]
    (the counter cannot wrap before [Attempts] is reached unless [Attempts]
    is the largest [int]). *)
Fixpoint retry_loop (left : nat) (attempt delay : Z) (last : outcome)
    (slept : list Z) : run retry_run :=
  match left with
  | O =>
      (* after the loop: if lastResult != nil { lastResult.Retries = Attempts } *)
      Ret {| returned := (set_Retries (Attempts retry) <$> last.1, last.2);
             calls := Z.to_nat (attempt - 1); waits := slept |}
  | S left' =>
      let o := exec (Z.to_nat (attempt - 1)) in
      match succeeded o with
      | Panic => Panic
      | Ret true =>
          Ret {| returned := (set_Retries (attempt - 1) <$> o.1, None);
                 calls := Z.to_nat attempt; waits := slept |}
      | Ret false =>
          if attempt <? Attempts retry then
            if done (length slept) then
              Ret {| returned := (None, Some ctxErr);
                     calls := Z.to_nat attempt; waits := slept ++ [delay] |}
            else
              retry_loop left' (attempt + 1)
                (if String.eqb (Backoff retry) "exponential"
                 then wrap64 (delay * 2) else delay)
                o (slept ++ [delay])
          else retry_loop left' (attempt + 1) delay o slept
      end
  end.

End Retry.

Definition ExecuteWithRetry (exec : nat → outcome) (done : nat → bool)
    (ctxErr : error) (retry : option RetryConfig) : run retry_run :=
  match retry with
  | None => Ret {| returned := exec 0%nat; calls := 1; waits := [] |}
  | Some rc =>
      if Attempts rc <=? 1
      then Ret {| returned := exec 0%nat; calls := 1; waits := [] |}
      else retry_loop exec done ctxErr rc (Z.to_nat (Attempts rc)) 1 (Delay rc)
             (None, None) []
  end.

(** An attempt that consumes a retry: a transport error or a non-success
    result. *)
Definition failing (o : outcome) : Prop :=
  match o with
  | (_, Some _) => True
  | (Some r, None) => Success r = false
  | (None, None) => False
  end.

(** An answer that is not nil twice. *)
Definition answers (o : outcome) : Prop := o ≠ (None, None).

(** The delay of the wait number [i] (from 0) of a retry policy as long as
    no wait is cancelled: constant, or doubled after every wait when the
    back-off is exponential. *)
Definition backoff_delay (rc : RetryConfig) (i : nat) : Z :=
  if String.eqb (Backoff rc) "exponential"
  then Nat.iter i (λ d, wrap64 (d * 2)) (Delay rc)
  else Delay rc.

(** *** Descriptions *)

(** [truncateCmd]; [len] and the slice count bytes. *)
Definition truncateCmd (cmd : string) : string :=
  if (50 <? String.length cmd)%nat
  then String.substring 0 47 cmd +:+ "..."
  else cmd.

(** *** The local executor *)

Record LocalExecutor := {
  l_Command : string;        (* BaseAction.Command *)
  l_Recovery : string;       (* BaseAction.Recovery *)
  l_Timeout : Z;             (* BaseAction.Timeout *)
  l_Healthcheck : option HealthcheckConfig;
  Shell : string
}.

Definition second : Z := 1000000000.

Definition NewLocalExecutor (command : string) : LocalExecutor :=
  {| l_Command := command; l_Recovery := ""; l_Timeout := 60 * second;
     l_Healthcheck := None; Shell := "/bin/sh" |}.

Definition with_Timeout (t : Z) (l : LocalExecutor) : LocalExecutor :=
  {| l_Command := l_Command l; l_Recovery := l_Recovery l; l_Timeout := t;
     l_Healthcheck := l_Healthcheck l; Shell := Shell l |}.

(** What [cmd.Run()] gave for one command: the two buffers, the error of
    [Run], whether [ctx.Err()] is [context.DeadlineExceeded] afterwards, and
    the time the call took. *)
Record process := {
  stdout : string;
  stderr : string;
  run_err : option error;
  deadline_exceeded : bool;
  elapsed : Z
}.

Section Local.

(** [sh shell command timeout]: the operating system running
    [shell -c command] under a deadline of [timeout]. *)
Variable sh : string → string → Z → process.

Definition Local_Execute (l : LocalExecutor) : outcome :=
  let p := sh (Shell l) (l_Command l) (l_Timeout l) in
  if deadline_exceeded p then
    (Some {| Success := false; Output := stdout p; Error := "command timed out";
             Duration := elapsed p; Retries := 0 |},
     Some "context deadline exceeded")
  else
    match run_err p with
    | Some err =>
        (Some {| Success := false; Output := stdout p;
                 Error := err +:+ ": " +:+ stderr p;
                 Duration := elapsed p; Retries := 0 |},
         Some err)
    | None =>
        (Some {| Success := true; Output := stdout p; Error := "";
                 Duration := elapsed p; Retries := 0 |},
         None)
    end.

Definition Local_Recover (l : LocalExecutor) : outcome :=
  if negb (nonempty (l_Recovery l)) then
    (Some {| Success := true; Output := "no recovery command defined";
             Error := ""; Duration := 0; Retries := 0 |},
     None)
  else Local_Execute (with_Timeout (l_Timeout l) (NewLocalExecutor (l_Recovery l))).

(** [Healthcheck]; the error of the check command is dropped, and its
    result is dereferenced. *)
Definition Local_Healthcheck (l : LocalExecutor) : run (bool * option error) :=
  match l_Healthcheck l with
  | None => Ret (true, None)
  | Some hc =>
      let out := Local_Execute (with_Timeout (10 * second)
                                  (NewLocalExecutor (hc_Command hc))) in
      match out.1 with
      | None => Panic
      | Some result =>
          if String.eqb (Expect hc) "success"
          then Ret (Success result, None)
          else Ret (negb (Success result), None)
      end
  end.

Definition Local_String (l : LocalExecutor) : string :=
  "Local: " +:+ truncateCmd (l_Command l).

End Local.

(** *** The Proxmox guest executor *)

Record Guest := {
  g_Type : string;           (* field Type: "vm" or "lxc" *)
  VMID : Z;
  g_Name : string;           (* field Name *)
  Node : string;
  g_Status : string;         (* field Status *)
  Tags : list string
}.

Record GuestSelector := {
  gs_Type : string;
  gs_Tags : list string;
  gs_ExcludeTags : list string;
  gs_NameRegex : string;
  gs_VMIDRange : list Z
}.

(** The answers of the Proxmox API during one call of a method of the
    executor: the guests the selector matches or an error, and the error of
    the call number [k] of [ShutdownGuest], given the guest type, its id and
    the timeout. *)
Record ProxmoxAPI := {
  GetGuestsBySelector : GuestSelector → list Guest + error;
  ShutdownGuest : nat → string → string → Z → option error
}.

Record ProxmoxGuestExecutor := {
  pg_Timeout : Z;            (* BaseAction.Timeout *)
  pg_Selector : GuestSelector;
  pg_Action : string;        (* "shutdown" or "stop" *)
  pg_API : ProxmoxAPI
}.

Definition NewProxmoxGuestExecutor (selector : GuestSelector) (action : string)
    (api : ProxmoxAPI) : ProxmoxGuestExecutor :=
  {| pg_Timeout := 120 * second; pg_Selector := selector; pg_Action := action;
     pg_API := api |}.

(** [fmt.Sprintf("%v", l)] for a slice of strings. *)
Definition fmt_v (l : list string) : string :=
  "[" +:+ String.concat " " l +:+ "]".

(** The loop of [Execute] over the guests, from the call number [k] on;
    the result is ([shutdownErrors], [shutdownSuccess]). *)
Fixpoint shutdown_each (p : ProxmoxGuestExecutor) (k : nat) (guests : list Guest)
    (shutdownErrors shutdownSuccess : list string) : list string * list string :=
  match guests with
  | [] => (shutdownErrors, shutdownSuccess)
  | guest :: rest =>
      let guestID := pretty (VMID guest) in
      match ShutdownGuest (pg_API p) k (g_Type guest) guestID (pg_Timeout p) with
      | Some err =>
          shutdown_each p (S k) rest
            (shutdownErrors
               ++ [g_Type guest +:+ ":" +:+ g_Name guest +:+ " (" +:+ err +:+ ")"])
            shutdownSuccess
      | None =>
          shutdown_each p (S k) rest shutdownErrors
            (shutdownSuccess ++ [g_Type guest +:+ ":" +:+ g_Name guest])
      end
  end.

(** [took] is the value of [time.Since(start)] at the return. *)
Definition ProxmoxGuest_Execute (p : ProxmoxGuestExecutor) (took : Z) : outcome :=
  match GetGuestsBySelector (pg_API p) (pg_Selector p) with
  | inr err =>
      (Some {| Success := false; Output := "";
               Error := "failed to get guests: " +:+ err;
               Duration := took; Retries := 0 |},
       Some err)
  | inl guests =>
      if bool_decide (length guests = 0%nat) then
        (Some {| Success := true; Output := "no matching guests found";
                 Error := ""; Duration := took; Retries := 0 |},
         None)
      else
        let '(shutdownErrors, shutdownSuccess) := shutdown_each p 0 guests [] [] in
        let output := "shutdown " +:+ pretty (length shutdownSuccess) +:+ " guests: "
                      +:+ fmt_v shutdownSuccess in
        if bool_decide (0 < length shutdownErrors)%nat then
          (Some {| Success := false; Output := output;
                   Error := "failed to shutdown: " +:+ fmt_v shutdownErrors;
                   Duration := took; Retries := 0 |},
           Some "partial failure")
        else
          (Some {| Success := true; Output := output; Error := "";
                   Duration := took; Retries := 0 |},
           None)
  end.

(** The answers of the shutdown requests of a listing, the request number
    [k + i] being that of the guest number [i]. *)
Definition shutdown_answers (p : ProxmoxGuestExecutor) (k : nat)
    (guests : list Guest) : list (Guest * option error) :=
  imap (λ i g, (g, ShutdownGuest (pg_API p) (k + i) (g_Type g) (pretty (VMID g))
                     (pg_Timeout p))) guests.

Definition shutdown_failure (ga : Guest * option error) : option string :=
  (λ err, g_Type ga.1 +:+ ":" +:+ g_Name ga.1 +:+ " (" +:+ err +:+ ")") <$> ga.2.

Definition shutdown_done (ga : Guest * option error) : option string :=
  match ga.2 with
  | None => Some (g_Type ga.1 +:+ ":" +:+ g_Name ga.1)
  | Some _ => None
  end.

Definition ProxmoxGuest_Recover (p : ProxmoxGuestExecutor) : outcome :=
  (Some {| Success := true; Output := "guest recovery not yet implemented";
           Error := ""; Duration := 0; Retries := 0 |},
   None).

(** The loop of [Healthcheck]: no guest may be running. *)
Fixpoint none_running (guests : list Guest) : bool :=
  match guests with
  | [] => true
  | guest :: rest =>
      if String.eqb (g_Status guest) "running" then false else none_running rest
  end.

Definition ProxmoxGuest_Healthcheck (p : ProxmoxGuestExecutor) : bool * option error :=
  match GetGuestsBySelector (pg_API p) (pg_Selector p) with
  | inr err => (false, Some err)
  | inl guests => (none_running guests, None)
  end.

End executor.

(** ** Package [orchestrator] *)

Module orchestrator.

Record CompletedAction := {
  PhaseIndex : Z;
  PhaseName : string;
  ActionIndex : Z;
  ActionType : string;
  Description : string;
  RecoveryCmd : string;
  CompletedAt : Z;
  Success : bool;
  Error : string
}.

Record State := {
  SessionID : string;
  StartedAt : Z;
  Status : string;
  CurrentPhase : Z;
  CurrentAction : Z;
  CompletedActions : list CompletedAction;
  TriggerEvent : string;
  LastUpdated : Z
}.

Record Action := {
  Type_ : string;                              (* field Type *)
  Executor : executor.Executor;
  Recovery : string;
  OnError : string;
  Retry : option executor.RetryConfig;
  Healthcheck : option executor.HealthcheckConfig
}.

Record Phase := {
  Name : string;
  Parallel : bool;
  Timeout : Z;
  Condition : string;
  Actions : list Action
}.

(** [Orchestrator] without its [state] pointer, which is the object held
    in the world, and with [has_notifier] for [notifier != nil]. *)
Record Orchestrator := {
  phases : list Phase;
  stateFile : string;
  has_notifier : bool
}.

(** The state [NewOrchestrator] starts with. *)
Definition idle_State : State :=
  {| SessionID := ""; StartedAt := 0; Status := "idle"; CurrentPhase := 0;
     CurrentAction := 0; CompletedActions := []; TriggerEvent := "";
     LastUpdated := 0 |}.

Definition NewOrchestrator (phases : list Phase) (stateFile : string)
    (has_notifier : bool) : Orchestrator * State :=
  ({| phases := phases; stateFile := stateFile; has_notifier := has_notifier |},
   idle_State).

(** Assignments to fields of [o.state]. *)
Definition set_Status (v : string) (s : State) : State :=
  {| SessionID := SessionID s; StartedAt := StartedAt s; Status := v;
     CurrentPhase := CurrentPhase s; CurrentAction := CurrentAction s;
     CompletedActions := CompletedActions s; TriggerEvent := TriggerEvent s;
     LastUpdated := LastUpdated s |}.

Definition set_CurrentPhase (v : Z) (s : State) : State :=
  {| SessionID := SessionID s; StartedAt := StartedAt s; Status := Status s;
     CurrentPhase := v; CurrentAction := CurrentAction s;
     CompletedActions := CompletedActions s; TriggerEvent := TriggerEvent s;
     LastUpdated := LastUpdated s |}.

Definition set_CurrentAction (v : Z) (s : State) : State :=
  {| SessionID := SessionID s; StartedAt := StartedAt s; Status := Status s;
     CurrentPhase := CurrentPhase s; CurrentAction := v;
     CompletedActions := CompletedActions s; TriggerEvent := TriggerEvent s;
     LastUpdated := LastUpdated s |}.

Definition set_CompletedActions (v : list CompletedAction) (s : State) : State :=
  {| SessionID := SessionID s; StartedAt := StartedAt s; Status := Status s;
     CurrentPhase := CurrentPhase s; CurrentAction := CurrentAction s;
     CompletedActions := v; TriggerEvent := TriggerEvent s;
     LastUpdated := LastUpdated s |}.

Definition set_LastUpdated (v : Z) (s : State) : State :=
  {| SessionID := SessionID s; StartedAt := StartedAt s; Status := Status s;
     CurrentPhase := CurrentPhase s; CurrentAction := CurrentAction s;
     CompletedActions := CompletedActions s; TriggerEvent := TriggerEvent s;
     LastUpdated := v |}.

(** [fmt.Errorf("...%w", err)] prints a nil [err] as [%!w(<nil>)]. *)
Definition fmt_w (err : option error) : string :=
  match err with
  | Some e => e
  | None => "%!w(<nil>)"
  end.

Section Run.

Variable env : Env.
(** [sched i]: the order in which the goroutines of the parallel phase [i]
    finish, as a list of action indices. *)
Variable sched : Z → list nat.
Variable o : Orchestrator.

#[local] Abbreviation OM := (M State State).

Definition saveState : OM (option error) :=
  let* st := get in
  os_call env (EWriteFile (stateFile o) st mode_0600).

(** The call of the action's executor in [executeAction], directly or
    through [ExecuteWithRetry]; the waits of the retry loop are the next
    questions to the context. *)
Definition call_executor (phaseIndex actionIndex : Z) (action : Action)
    : OM executor.outcome :=
  emit (EExecute phaseIndex actionIndex);;
  match Retry action with
  | Some rc =>
      λ w,
        match executor.ExecuteWithRetry (executor.Execute (Executor action))
                (λ k, ctx_done env (steps w + k)%nat) (ctx_err env) (Some rc) with
        | Ret r =>
            (Ret (executor.returned r),
             {| cur := cur w;
                steps := (steps w + length (executor.waits r))%nat;
                trace := trace w ++ (EWait <$> executor.waits r) |})
        | Panic => (Panic, w)
        end
  | None => ret (executor.Execute (Executor action) 0%nat)
  end.

Definition executeAction (phaseIndex : Z) (phaseName : string)
    (actionIndex : Z) (action : Action) : OM executor.outcome :=
  log "debug" "Executing action";;
  let* out := call_executor phaseIndex actionIndex action in
  let '(result, err) := out in
  match err with
  | Some e =>
      log "error" "Action failed";;
      ret (result, Some e)
  | None =>
      let* failed :=
        match Healthcheck action with
        | Some _ =>
            emit (EHealthcheck phaseIndex actionIndex);;
            let '(ok, hcErr) := executor.Healthcheck (Executor action) in
            ret (bool_decide (hcErr ≠ None) || negb ok)
        | None => ret false
        end in
      if failed then
        log "error" "Healthcheck failed";;
        ret (result, Some "healthcheck failed")
      else
        match result with
        | None => panic                   (* result.Duration on a nil pointer *)
        | Some r =>
            log "info" "Action completed";;
            ret (Some r, None)
        end
  end.

(** The [CompletedAction] built after an action, and its append to the
    journal followed by a save; shared by the sequential loop and by the
    goroutines of a parallel phase. *)
Definition track (phaseIndex : Z) (phase : Phase) (i : Z) (action : Action)
    (out : executor.outcome) : OM bool :=
  let '(result, err) := out in
  let* t := now env in
  match executor.succeeded out with
  | Panic => panic
  | Ret ok =>
      let completed :=
        {| PhaseIndex := phaseIndex; PhaseName := Name phase; ActionIndex := i;
           ActionType := Type_ action;
           Description := executor.Describe (Executor action);
           RecoveryCmd := Recovery action; CompletedAt := t; Success := ok;
           Error := match err, result with
                    | Some e, _ => e
                    | None, Some r => if executor.Success r then "" else executor.Error r
                    | None, None => ""
                    end |} in
      modify (λ s, set_CompletedActions (CompletedActions s ++ [completed]) s);;
      let* _ := saveState in
      ret ok
  end.

(** The loop of [executeSequential] over the actions from index [i] on. *)
Fixpoint sequential_from (phaseIndex : Z) (phase : Phase) (i : Z)
    (actions : list Action) : OM (option error) :=
  match actions with
  | [] => ret None
  | action :: rest =>
      let* t := now env in
      modify (λ s, set_LastUpdated t (set_CurrentAction i s));;
      let* _ := saveState in
      let* out := executeAction phaseIndex (Name phase) i action in
      let* ok := track phaseIndex phase i action out in
      (* Handle error based on on_error setting *)
      if negb ok then
        if String.eqb (OnError action) "continue" then
          log "info" "Action failed, continuing";;
          sequential_from phaseIndex phase (i + 1) rest
        else if String.eqb (OnError action) "abort_phase" then
          ret (Some ("action failed, aborting phase: " +:+ fmt_w out.2))
        else if String.eqb (OnError action) "abort_all" then
          ret (Some ("action failed, aborting all: " +:+ fmt_w out.2))
        else sequential_from phaseIndex phase (i + 1) rest
      else sequential_from phaseIndex phase (i + 1) rest
  end.

Definition executeSequential (phaseIndex : Z) (phase : Phase) : OM (option error) :=
  sequential_from phaseIndex phase 0 (Actions phase).

(** One goroutine of [executeParallel], run to its end; the value is what
    it sends on [errCh].  The goroutines of a phase are run one after the
    other, in the order [sched] gives: the journal lock serialises their
    appends, and the interleaving of what they do before it is not
    modelled. *)
Definition goroutine (phaseIndex : Z) (phase : Phase) (idx : Z) (act : Action)
    : OM (option error) :=
  let* out := executeAction phaseIndex (Name phase) idx act in
  let* _ := track phaseIndex phase idx act out in
  ret (if bool_decide (out.2 ≠ None) && String.eqb (OnError act) "abort_all"
       then out.2 else None).

(** The goroutines in the order in which they finish; [errCh] collects
    what they send. *)
Fixpoint parallel_in (phaseIndex : Z) (phase : Phase) (order : list nat)
    (errCh : list error) : OM (list error) :=
  match order with
  | [] => ret errCh
  | idx :: rest =>
      match Actions phase !! idx with
      | Some act =>
          let* sent := goroutine phaseIndex phase (Z.of_nat idx) act in
          parallel_in phaseIndex phase rest
            (errCh ++ match sent with Some e => [e] | None => [] end)
      | None => parallel_in phaseIndex phase rest errCh
      end
  end.

Definition executeParallel (phaseIndex : Z) (phase : Phase) : OM (option error) :=
  let* errCh := parallel_in phaseIndex phase (sched phaseIndex) [] in
  (* Check for abort errors *)
  ret (head errCh).

(** The phase timeout only shortens the deadline the executors see. *)
Definition executePhase (phaseIndex : Z) (phase : Phase) : OM (option error) :=
  if Parallel phase then executeParallel phaseIndex phase
  else executeSequential phaseIndex phase.

(** The loop of [Execute] over the phases from index [i] on. *)
Fixpoint phases_from (i : Z) (ps : list Phase) : OM unit :=
  match ps with
  | [] => ret tt
  | phase :: rest =>
      log "info" "Starting phase";;
      let* t := now env in
      modify (λ s, set_LastUpdated t (set_CurrentAction 0 (set_CurrentPhase i s)));;
      let* _ := saveState in
      notify env (has_notifier o) "phase_start";;
      let* err := executePhase i phase in
      match err with
      | Some _ =>
          (* Check if we should continue despite error.
             For now, continue to next phase *)
          log "error" "Phase failed"
      | None => ret tt
      end;;
      notify env (has_notifier o) "phase_complete";;
      phases_from (i + 1) rest
  end.

Definition Execute (triggerEvent : string) : OM (option error) :=
  (* Initialize new session *)
  let* t1 := now env in
  let* t2 := now env in
  let* t3 := now env in
  modify (λ _, {| SessionID := pretty t1; StartedAt := t2; Status := "in_progress";
                  CurrentPhase := 0; CurrentAction := 0; CompletedActions := [];
                  TriggerEvent := triggerEvent; LastUpdated := t3 |});;
  emit (EStatus "in_progress");;
  let* err := saveState in
  match err with
  | Some e => ret (Some ("saving initial state: " +:+ e))
  | None =>
      notify env (has_notifier o) "shutdown_start";;
      (* Execute phases *)
      phases_from 0 (phases o);;
      modify (set_Status "completed");;
      emit (EStatus "completed");;
      let* t := now env in
      modify (set_LastUpdated t);;
      let* _ := saveState in
      notify env (has_notifier o) "shutdown_complete";;
      ret None
  end.

(** The loop of [Recover] over the completed actions, last first: it only
    logs the ones that have a recovery command. *)
Fixpoint recover_each (acts : list CompletedAction) : OM unit :=
  match acts with
  | [] => ret tt
  | action :: rest =>
      (if nonempty (RecoveryCmd action) then log "info" "Recovering action"
       else ret tt);;
      recover_each rest
  end.

Definition Recover : OM (option error) :=
  let* st := get in
  if negb (String.eqb (Status st) "in_progress") && negb (String.eqb (Status st) "completed")
  then ret (Some "nothing to recover")
  else
    modify (set_Status "recovering");;
    emit (EStatus "recovering");;
    let* _ := saveState in
    notify env (has_notifier o) "recovery_start";;
    (* Recover in reverse order *)
    let* st := get in
    recover_each (reverse (CompletedActions st));;
    modify (λ s, set_CompletedActions [] (set_Status "idle" s));;
    emit (EStatus "idle");;
    let* _ := saveState in
    notify env (has_notifier o) "recovery_complete";;
    ret None.

End Run.

(** The entry the orchestrator appends to the journal for the action
    number [i] of a phase, from what [executeAction] returned, the clock
    and the value of [err == nil && result.Success]. *)
Definition journal_entry (phaseIndex : Z) (phase : Phase) (i : Z) (action : Action)
    (out : executor.outcome) (t : Z) (ok : bool) : CompletedAction :=
  {| PhaseIndex := phaseIndex; PhaseName := Name phase; ActionIndex := i;
     ActionType := Type_ action;
     Description := executor.Describe (Executor action);
     RecoveryCmd := Recovery action; CompletedAt := t; Success := ok;
     Error := match out.2, out.1 with
              | Some e, _ => e
              | None, Some r => if executor.Success r then "" else executor.Error r
              | None, None => ""
              end |}.

(** Does the sequential loop stop after an action with this journal
    entry: the action failed under abort_phase or abort_all. *)
Definition aborts (action : Action) (entry : CompletedAction) : bool :=
  negb (Success entry)
  && (String.eqb (OnError action) "abort_phase"
      || String.eqb (OnError action) "abort_all").

(** An action whose executor never returns a nil result with a nil error. *)
Definition well_behaved (action : Action) : Prop :=
  ∀ k, executor.answers (executor.Execute (Executor action) k).

(** The notifications of [n] phases. *)
Definition phase_notifications (n : nat) : list string :=
  concat (replicate n ["phase_start"; "phase_complete"]).

(** Steps that send no notification. *)
Definition silent : relation (World State State) :=
  λ w w', notifications (trace w') = notifications (trace w).

(** Steps that only write the state file, with mode 0600, and along which
    the journal, in memory and as written, only grows. *)
Definition journal_grows (o : Orchestrator) : relation (World State State) :=
  λ w w', ∃ ext,
    trace w' = trace w ++ ext
    ∧ state_writes_only (stateFile o) ext
    ∧ increasing (CompletedActions (cur w))
        ((CompletedActions <$> documents ext) ++ [CompletedActions (cur w')]).

End orchestrator.

(** ** Package [recovery] *)

Module recovery.

Record Config := {
  Enabled : bool;
  PowerStableDelay : Z;
  OnError : string;
  MaxRetries : Z
}.

(** [Manager] without its [stateManager] pointer, which is the object held
    in the world, and with [has_notifier] for [notifier != nil]. *)
Record Manager := {
  config : Config;
  has_notifier : bool
}.

Definition NewManager (cfg : Config) (has_notifier : bool) : Manager :=
  {| config :=
       if MaxRetries cfg =? 0
       then {| Enabled := Enabled cfg; PowerStableDelay := PowerStableDelay cfg;
               OnError := OnError cfg; MaxRetries := 3 |}
       else cfg;
     has_notifier := has_notifier |}.

Section Run.

Variable env : Env.
(** [recovers i k]: the answer of the call number [k] of [Recover] on the
    executor built for the entry number [i] of the recovery list. *)
Variable recovers : nat → nat → executor.outcome.
Variable m : Manager.

#[local] Abbreviation RM := (M state.Manager state.State).

Definition NeedsRecovery : RM bool :=
  if negb (Enabled (config m)) then ret false
  else
    let* sm := get in
    ret (state.NeedsRecovery sm).

(** [createExecutor]: an executor, seen through its [Recover] method, or
    an error. *)
Definition createExecutor (i : nat) (spec : state.ActionSpec)
    : (nat → executor.outcome) + error :=
  if String.eqb (state.spec_Type spec) "ssh" then inl (recovers i)
  else if String.eqb (state.spec_Type spec) "local" then inl (recovers i)
  else if String.eqb (state.spec_Type spec) "proxmox-exec" then
    inr "proxmox-exec recovery requires API connection - manual recovery needed"
  else if String.eqb (state.spec_Type spec) "proxmox-guest" then
    inr "proxmox-guest recovery requires API connection - manual recovery needed"
  else inr ("unknown action type: " +:+ state.spec_Type spec).

(** The loop [for attempt := 1; attempt <= MaxRetries; attempt++] of
    [recoverAction]; [left] is the number of iterations still to run. *)
Fixpoint recover_attempts (i : nat) (exec : nat → executor.outcome)
    (left : nat) (attempt : Z) (lastErr : option error) : RM (option error) :=
  match left with
  | O => ret lastErr
  | S left' =>
      emit (ERecover i attempt);;
      let out := exec (Z.to_nat (attempt - 1)) in
      match executor.succeeded out with
      | Panic => panic
      | Ret true => ret None
      | Ret false =>
          let lastErr :=
            match out.1 with
            | Some r =>
                if negb (executor.Success r)
                then Some ("recovery failed: " +:+ executor.Error r)
                else out.2
            | None => out.2
            end in
          if attempt <? MaxRetries (config m) then
            log "debug" "Recovery attempt failed, retrying";;
            let* cancelled := select_done env (5 * 1000000000) in
            if cancelled then ret (Some (ctx_err env))
            else recover_attempts i exec left' (attempt + 1) lastErr
          else recover_attempts i exec left' (attempt + 1) lastErr
      end
  end.

Definition recoverAction (i : nat) (action : state.CompletedAction)
    : RM (option error) :=
  let spec := state.Spec action in
  if negb (nonempty (state.Recovery spec)) then ret None
  else
    match createExecutor i spec with
    | inr e => ret (Some ("creating executor: " +:+ e))
    | inl exec =>
        recover_attempts i exec (Z.to_nat (MaxRetries (config m))) 1 None
    end.

(** The loop of [Execute] over [actionsToRecover] from index [i] on. *)
Fixpoint recover_from (i : nat) (actions : list state.CompletedAction)
    (recoveryErrors : list error) (successCount : Z) : RM (list error * Z) :=
  match actions with
  | [] => ret (recoveryErrors, successCount)
  | action :: rest =>
      log "info" "Recovering action";;
      let* err := recoverAction i action in
      match err with
      | Some e =>
          log "error" "Recovery failed for action";;
          (if String.eqb (OnError (config m)) "notify"
           then notify env (has_notifier m) "recovery_error"
           else ret tt);;
          recover_from (S i) rest (recoveryErrors ++ [e]) successCount
      | None =>
          log "info" "Action recovered successfully";;
          recover_from (S i) rest recoveryErrors (successCount + 1)
      end
  end.

Definition Execute : RM (option error) :=
  if negb (Enabled (config m)) then ret (Some "recovery is disabled")
  else
    let* sm := get in
    let currentState := state.GetState sm in
    if negb (bool_decide (state.status currentState = state.StatusInProgress))
       && negb (bool_decide (state.status currentState = state.StatusFailed))
    then ret (Some ("nothing to recover (status: "
                    +:+ state.Status_string (state.status currentState) +:+ ")"))
    else
      log "info" "Starting recovery process";;
      notify env (has_notifier m) "recovery_start";;
      state.do_SetStatus env state.StatusRecovering;;
      let* err := state.Save env in
      match err with
      | Some _ => log "error" "Failed to save recovery state"
      | None => ret tt
      end;;
      (* Wait for power to stabilize (anti-flapping) *)
      let* cancelled :=
        if 0 <? PowerStableDelay (config m) then
          log "info" "Waiting for power to stabilize";;
          select_done env (PowerStableDelay (config m))
        else ret false in
      if cancelled then ret (Some (ctx_err env))
      else
        (* Get actions that need recovery (in reverse order) *)
        let* sm := get in
        let actionsToRecover := state.GetActionsForRecovery sm in
        log "info" "Recovering actions";;
        let* res := recover_from 0 actionsToRecover [] 0 in
        let recoveryErrors := res.1 in
        (* Update state *)
        (if bool_decide (length recoveryErrors = 0%nat) then
           state.do_SetStatus env state.StatusIdle;;
           state.do_Clear env
         else
           state.do_SetStatus env state.StatusFailed;;
           state.do_SetError env
             (pretty (Z.of_nat (length recoveryErrors)) +:+ " recovery errors"));;
        let* err := state.Save env in
        match err with
        | Some _ => log "error" "Failed to save state after recovery"
        | None => ret tt
        end;;
        notify env (has_notifier m) "recovery_complete";;
        if bool_decide (0 < length recoveryErrors)%nat then
          ret (Some ("recovery completed with "
                     +:+ pretty (Z.of_nat (length recoveryErrors)) +:+ " errors"))
        else
          log "info" "Recovery completed successfully";;
          ret None.

End Run.

(** The calls and waits of [n] attempts on the entry [i], numbered from
    [attempt]: a wait of 5 seconds between two calls, and one more after the
    last call when [cut]. *)
Fixpoint attempts_trace (i : nat) (attempt : Z) (n : nat) (cut : bool)
    : list (nat * Z + Z) :=
  match n with
  | O => []
  | S n' =>
      inl (i, attempt)
      :: match n' with
         | O => if cut then [inr (5 * 1000000000)] else []
         | S _ => inr (5 * 1000000000) :: attempts_trace i (attempt + 1) n' cut
         end
  end.

(** Did the call [c] of [Recover], an (entry, attempt) pair, return a
    successful result with a nil error. *)
Definition call_succeeded (recovers : nat → nat → executor.outcome)
    (c : nat * Z) : bool :=
  match executor.succeeded (recovers c.1 (Z.to_nat (c.2 - 1))) with
  | Ret true => true
  | _ => false
  end.

(** Did one of the calls of [Recover] made along a trace for the entry [i]
    succeed. *)
Definition recovered (recovers : nat → nat → executor.outcome)
    (tr : list (Effect state.State)) (i : nat) : bool :=
  existsb (λ c, (c.1 =? i)%nat && call_succeeded recovers c) (recover_calls tr).

(** An entry counted as recovered without error, as the trace of a run
    shows it: it has no recovery command; or its action is ssh or local and
    one of the calls of [Recover] made for it succeeded, or [MaxRetries] is
    not positive, so that nothing is called. *)
Definition without_error (m : Manager) (recovers : nat → nat → executor.outcome)
    (tr : list (Effect state.State)) (i : nat) (a : state.CompletedAction) : bool :=
  negb (nonempty (state.Recovery (state.Spec a)))
  || (bool_decide (state.spec_Type (state.Spec a) = "ssh"
                   ∨ state.spec_Type (state.Spec a) = "local")
      && ((MaxRetries (config m) <=? 0) || recovered recovers tr i)).

(** The log entry written for each action whose recovery returned an
    error. *)
Definition is_recovery_failure (e : Effect state.State) : bool :=
  match e with
  | ELog level msg =>
      String.eqb level "error" && String.eqb msg "Recovery failed for action"
  | _ => false
  end.

(** The log entry written when the recovery pass starts. *)
Definition is_pass_start (e : Effect state.State) : bool :=
  match e with
  | ELog level msg => String.eqb level "info" && String.eqb msg "Recovering actions"
  | _ => false
  end.

(** The effects the statements below look at. *)
Definition marked (e : Effect state.State) : bool :=
  match e with
  | EStatus _ => true
  | _ => is_pass_start e || is_recovery_failure e
  end.

Definition marks (tr : list (Effect state.State)) : list (Effect state.State) :=
  filter (λ e, marked e = true) tr.

Definition pass_start_log : Effect state.State := ELog "info" "Recovering actions".
Definition failure_log : Effect state.State :=
  ELog "error" "Recovery failed for action".

(** The status of the journal held in the world. *)
Definition journal_status (sm : state.Manager) : state.Status :=
  state.status (state.mstate sm).

(** Steps that leave the journal and the marked part of the trace alone. *)
Definition unmarked : relation (World state.Manager state.State) :=
  λ w w', cur w' = cur w ∧ marks (trace w') = marks (trace w).

End recovery.

(** ** Package [ups]: the UPS monitor *)

Module ups.

Record Status := {
  Name : string;
  status : string;           (* field Status: flags OL, OB, LB *)
  BatteryCharge : Z;
  Runtime : Z;
  Load : Z;
  Timestamp : Z
}.

(** [strings.Contains(s, substr)]. *)
Definition Contains (s substr : string) : bool :=
  match String.index 0 substr s with
  | Some _ => true
  | None => false
  end.

Definition IsOnline (s : Status) : bool := Contains (status s) "OL".
Definition IsOnBattery (s : Status) : bool := Contains (status s) "OB".
Definition IsLowBattery (s : Status) : bool := Contains (status s) "LB".

Record Thresholds := {
  Warning : Z;
  Critical : Z;
  Emergency : Z
}.

Inductive EventType :=
| EventPowerLost
| EventPowerRestored
| EventLowBattery
| EventCriticalBattery
| EventEmergency.

#[global] Instance EventType_eq_dec : EqDecision EventType.
Proof. solve_decision. Defined.

Record Event := {
  Type_ : EventType;         (* field Type *)
  ev_Status : Status;        (* field Status *)
  ev_Timestamp : Z;          (* field Timestamp *)
  Message : string
}.

(** [Monitor]: a buffered channel is the list of the values waiting in it,
    oldest first.  The client and the stop channel are outside the model. *)
Record Monitor := {
  interval : Z;
  thresholds : Thresholds;
  statusCh : list Status;
  eventCh : list Event
}.

(** Both channels are made with a buffer of 10. *)
Definition chan_cap : nat := 10.

Definition NewMonitor (t : Thresholds) : Monitor :=
  {| interval := 5 * 1000000000; thresholds := t; statusCh := []; eventCh := [] |}.

(** [select { case ch <- x: default: }]: a send that never blocks, and
    does nothing when the buffer is full. *)
Definition try_send {A} (ch : list A) (x : A) : list A :=
  if (length ch <? chan_cap)%nat then ch ++ [x] else ch.

Definition emitEvent (m : Monitor) (now : Z) (eventType : EventType)
    (st : Status) (message : string) : Monitor :=
  let event := {| Type_ := eventType; ev_Status := st; ev_Timestamp := now;
                  Message := message |} in
  {| interval := interval m; thresholds := thresholds m; statusCh := statusCh m;
     eventCh := try_send (eventCh m) event |}.

(** [now k] is the clock read by the emission of an event of kind [k]
    (each kind is emitted at most once in a call). *)
Definition checkEvents (m : Monitor) (now : EventType → Z)
    (current : Status) (last : option Status) : Monitor :=
  (* Power transition events *)
  let m :=
    match last with
    | Some last =>
        let m :=
          if IsOnline last && IsOnBattery current
          then emitEvent m (now EventPowerLost) EventPowerLost current
                 "Power lost, running on battery"
          else m in
        if IsOnBattery last && IsOnline current
        then emitEvent m (now EventPowerRestored) EventPowerRestored current
               "Power restored"
        else m
    | None => m
    end in
  (* Battery level events *)
  if IsOnBattery current then
    if BatteryCharge current <=? Emergency (thresholds m) then
      emitEvent m (now EventEmergency) EventEmergency current
        ("EMERGENCY: Battery at " +:+ pretty (BatteryCharge current) +:+ "%")
    else if BatteryCharge current <=? Critical (thresholds m) then
      emitEvent m (now EventCriticalBattery) EventCriticalBattery current
        ("Critical battery: " +:+ pretty (BatteryCharge current) +:+ "%")
    else if BatteryCharge current <=? Warning (thresholds m) then
      emitEvent m (now EventLowBattery) EventLowBattery current
        ("Low battery: " +:+ pretty (BatteryCharge current) +:+ "%")
    else m
  else m.

(** One firing of the ticker, as the loop sees it: what [GetStatus] returned
    ([None] for an error), the clock, and how many values the consumers took
    from the two channels since the previous tick. *)
Record tick := {
  sample : option Status;
  clock : EventType → Z;
  events_taken : nat;
  statuses_taken : nat
}.

Definition take_from (m : Monitor) (t : tick) : Monitor :=
  {| interval := interval m; thresholds := thresholds m;
     statusCh := drop (statuses_taken t) (statusCh m);
     eventCh := drop (events_taken t) (eventCh m) |}.

Definition send_status (m : Monitor) (st : Status) : Monitor :=
  {| interval := interval m; thresholds := thresholds m;
     statusCh := try_send (statusCh m) st; eventCh := eventCh m |}.

(** [monitorLoop], run over the ticks that fire before the context is
    cancelled or [Stop] is called; [lastStatus] is the loop's local. *)
Fixpoint monitorLoop (m : Monitor) (lastStatus : option Status)
    (ticks : list tick) : Monitor * option Status :=
  match ticks with
  | [] => (m, lastStatus)
  | t :: ticks' =>
      let m := take_from m t in
      match sample t with
      | None => monitorLoop m lastStatus ticks'
      | Some st =>
          let m := send_status m st in
          let m := checkEvents m (clock t) st lastStatus in
          monitorLoop m (Some st) ticks'
      end
  end.

(** [Start]: the loop begins without a previous sample. *)
Definition Start (m : Monitor) (ticks : list tick) : Monitor * option Status :=
  monitorLoop m None ticks.

(** The events a step put on the channel, when nothing was taken meanwhile. *)
Definition published (before after : Monitor) : list Event :=
  drop (length (eventCh before)) (eventCh after).

Definition is_battery_level (k : EventType) : bool :=
  match k with
  | EventLowBattery | EventCriticalBattery | EventEmergency => true
  | _ => false
  end.

(** The design document's rules for the battery-level kinds: the predicate
    of each kind, and the order of severity. *)
Definition predicate (t : Thresholds) (charge : Z) (k : EventType) : Prop :=
  match k with
  | EventEmergency => charge ≤ Emergency t
  | EventCriticalBattery => charge ≤ Critical t
  | EventLowBattery => charge ≤ Warning t
  | _ => False
  end.

Definition severity (k : EventType) : nat :=
  match k with
  | EventEmergency => 3
  | EventCriticalBattery => 2
  | EventLowBattery => 1
  | _ => 0
  end.

Definition highest_severity (t : Thresholds) (charge : Z) (k : EventType) : Prop :=
  predicate t charge k
  ∧ ∀ k', predicate t charge k' → (severity k' ≤ severity k)%nat.

(** The rule of the design document for the battery-level kind of a sample:
    Emergency if charge <= emergency, else CriticalBattery if charge <=
    critical, else LowBattery if charge <= warning. *)
Definition battery_level (t : Thresholds) (charge : Z) : option EventType :=
  if charge <=? Emergency t then Some EventEmergency
  else if charge <=? Critical t then Some EventCriticalBattery
  else if charge <=? Warning t then Some EventLowBattery
  else None.

(** The events a call of [checkEvents] hands to [emitEvent], in order. *)
Definition mkEvent (now : EventType → Z) (k : EventType) (st : Status) (msg : string) : Event :=
  {| Type_ := k; ev_Status := st; ev_Timestamp := now k; Message := msg |}.

Definition power_requests (now : EventType → Z) (current : Status)
    (last : option Status) : list Event :=
  match last with
  | Some last =>
      (if IsOnline last && IsOnBattery current
       then [mkEvent now EventPowerLost current "Power lost, running on battery"]
       else [])
      ++ (if IsOnBattery last && IsOnline current
          then [mkEvent now EventPowerRestored current "Power restored"]
          else [])
  | None => []
  end.

Definition battery_message (k : EventType) (charge : Z) : string :=
  match k with
  | EventEmergency => "EMERGENCY: Battery at " +:+ pretty charge +:+ "%"
  | EventCriticalBattery => "Critical battery: " +:+ pretty charge +:+ "%"
  | _ => "Low battery: " +:+ pretty charge +:+ "%"
  end.

Definition battery_requests (t : Thresholds) (now : EventType → Z)
    (current : Status) : list Event :=
  if IsOnBattery current then
    match battery_level t (BatteryCharge current) with
    | Some k => [mkEvent now k current (battery_message k (BatteryCharge current))]
    | None => []
    end
  else [].

Definition requests (t : Thresholds) (now : EventType → Z) (current : Status)
    (last : option Status) : list Event :=
  power_requests now current last ++ battery_requests t now current.

(** The events [checkEvents] hands to [emitEvent] along a run of the loop,
    in order. *)
Fixpoint all_requests (t : Thresholds) (lastStatus : option Status)
    (ticks : list tick) : list Event :=
  match ticks with
  | [] => []
  | tk :: rest =>
      match sample tk with
      | None => all_requests t lastStatus rest
      | Some st => requests t (clock tk) st lastStatus ++ all_requests t (Some st) rest
      end
  end.

Definition is_PowerLost (e : Event) : Prop := Type_ e = EventPowerLost.
#[global] Instance is_PowerLost_dec e : Decision (is_PowerLost e).
Proof. unfold is_PowerLost. apply _. Defined.

(** *** The NUT client *)

(** The double quote. *)
Definition quote : Ascii.ascii := Eval cbv in Ascii.ascii_of_nat 34.

(** [strings.HasPrefix]. *)
Definition HasPrefix (s prefix : string) : bool := String.prefix prefix s.

(** [strings.Cut] for a separator of one byte: what is before and after
    its first occurrence. *)
Fixpoint cut (sep : Ascii.ascii) (s : string) : option (string * string) :=
  match s with
  | EmptyString => None
  | String a rest =>
      if Ascii.eqb a sep then Some (EmptyString, rest)
      else match cut sep rest with
           | Some (before, after) => Some (String a before, after)
           | None => None
           end
  end.

(** [strings.SplitN(s, sep, n)] for a separator of one byte and [n >= 0]:
    at most [n] pieces, the last one being the unsplit remainder. *)
Fixpoint SplitN (s : string) (sep : Ascii.ascii) (n : nat) : list string :=
  match n with
  | O => []
  | S O => [s]
  | S n' =>
      match cut sep s with
      | Some (before, after) => before :: SplitN after sep n'
      | None => [s]
      end
  end.

(** [strings.Trim(s, cutset)] for a cutset of one byte. *)
Fixpoint TrimLeft (c : Ascii.ascii) (s : string) : string :=
  match s with
  | EmptyString => EmptyString
  | String a rest => if Ascii.eqb a c then TrimLeft c rest else s
  end.

Fixpoint TrimRight (c : Ascii.ascii) (s : string) : string :=
  match s with
  | EmptyString => EmptyString
  | String a rest =>
      match TrimRight c rest with
      | EmptyString => if Ascii.eqb a c then EmptyString else String a EmptyString
      | kept => String a kept
      end
  end.

Definition Trim (s : string) (c : Ascii.ascii) : string := TrimRight c (TrimLeft c s).

(** The value of one decimal digit. *)
Definition digit (a : Ascii.ascii) : option Z :=
  let n := Z.of_N (Ascii.N_of_ascii a) in
  if (48 <=? n) && (n <=? 57) then Some (n - 48) else None.

(** The number a string of decimal digits denotes, after [acc]. *)
Fixpoint digits (s : string) (acc : Z) : option Z :=
  match s with
  | EmptyString => Some acc
  | String a rest =>
      match digit a with
      | Some d => digits rest (acc * 10 + d)
      | None => None
      end
  end.

(** The two errors of package [strconv]. *)
Inductive NumError := ErrSyntax | ErrRange.

Definition maxUint64 : Z := 2 ^ 64 - 1.

(** The loop of [strconv.ParseUint(s, 10, 64)] over the bytes of [s], with
    [n] read so far: a byte that is not a digit is a syntax error with the
    value 0; the first digit that takes the value past [maxUint64] is a
    range error with the value [maxUint64], and the rest is not read. *)
Fixpoint ParseUint_from (s : string) (n : Z) : Z * option NumError :=
  match s with
  | EmptyString => (n, None)
  | String c rest =>
      match digit c with
      | None => (0, Some ErrSyntax)
      | Some d =>
          if maxUint64 / 10 + 1 <=? n then (maxUint64, Some ErrRange)
          else
            let n := n * 10 in
            let n1 := (n + d) mod 2 ^ 64 in
            if (n1 <? n) || (maxUint64 <? n1) then (maxUint64, Some ErrRange)
            else ParseUint_from rest n1
      end
  end.

Definition ParseUint (s : string) : Z * option NumError :=
  match s with
  | EmptyString => (0, Some ErrSyntax)
  | _ => ParseUint_from s 0
  end.

(** [strconv.ParseInt(s, 10, 0)] on a 64-bit platform: an optional sign,
    then [ParseUint]; a range error gives the nearest bound. *)
Definition ParseInt (s : string) : Z * option NumError :=
  match s with
  | EmptyString => (0, Some ErrSyntax)
  | String c rest =>
      let neg := Ascii.eqb c "-" in
      let body := if Ascii.eqb c "+" || Ascii.eqb c "-" then rest else s in
      match ParseUint body with
      | (_, Some ErrSyntax) => (0, Some ErrSyntax)
      | (un, _) =>
          let cutoff := 2 ^ 63 in
          if negb neg && (cutoff <=? un) then (cutoff - 1, Some ErrRange)
          else if neg && (cutoff <? un) then (- cutoff, Some ErrRange)
          else (if neg then - un else un, None)
      end
  end.

(** [strconv.Atoi] on a 64-bit platform: the value and the error.  A string
    of 1 to 18 bytes takes the fast path, on which nothing can overflow;
    any other string goes through [ParseInt]. *)
Definition Atoi (s : string) : Z * option NumError :=
  let sLen := String.length s in
  if (0 <? sLen)%nat && (sLen <? 19)%nat then
    match s with
    | EmptyString => (0, Some ErrSyntax)
    | String c rest =>
        let body := if Ascii.eqb c "-" || Ascii.eqb c "+" then rest else s in
        match body with
        | EmptyString => (0, Some ErrSyntax)
        | _ =>
            match digits body 0 with
            | None => (0, Some ErrSyntax)
            | Some n => (if Ascii.eqb c "-" then - n else n, None)
            end
        end
    end
  else ParseInt s.

(** What [ParseUint] has in hand after the digits of [x]: [x] itself, or
    the range error once [x] is past [maxUint64]. *)
Definition after_digits (s : string) (x : N) : Z * option NumError :=
  if Z.of_N x <=? maxUint64 then ParseUint_from s (Z.of_N x)
  else (maxUint64, Some ErrRange).

(** [Client]: [connected] stands for [conn != nil]. *)
Record Client := {
  host : string;
  upsName : string;
  connected : bool;
  timeout : Z
}.

(** What the server does with one request: the error of [conn.Write], the
    lines the scanner yields, and the value of [scanner.Err()] once the loop
    is left. *)
Record response := {
  write_err : option error;
  lines : list string;
  scan_err : option error
}.

(** The loop [for scanner.Scan()] of [getVariables]. *)
Fixpoint scan (lines : list string) (vars : gmap string string)
    : gmap string string + error :=
  match lines with
  | [] => inl vars
  | line :: rest =>
      if HasPrefix line "BEGIN LIST VAR" then scan rest vars
      else if HasPrefix line "END LIST VAR" then inl vars
      else if HasPrefix line "ERR" then inr ("NUT error: " +:+ line)
      else if HasPrefix line "VAR " then
        (* Parse: VAR upsname varname "value" *)
        match SplitN line " "%char 4 with
        | [_; _; varName; quoted] =>
            scan rest (<[varName := Trim quoted quote]> vars)
        | _ => scan rest vars
        end
      else scan rest vars
  end.

Definition getVariables (c : Client) (r : response) : gmap string string + error :=
  if negb (connected c) then inr "not connected"
  else
    match write_err r with
    | Some e => inr ("sending command: " +:+ e)
    | None =>
        match scan (lines r) ∅ with
        | inr e => inr e
        | inl vars =>
            match scan_err r with
            | Some e => inr ("reading response: " +:+ e)
            | None => inl vars
            end
        end
    end.

(** [GetStatus]; [now] is the clock. *)
Definition GetStatus (c : Client) (r : response) (now : Z) : Status + error :=
  match getVariables c r with
  | inr e => inr e
  | inl vars =>
      inl {| Name := upsName c;
             status := default "" (vars !! "ups.status");
             BatteryCharge := from_option (λ v, (Atoi v).1) 0 (vars !! "battery.charge");
             Runtime := from_option (λ v, (Atoi v).1) 0 (vars !! "battery.runtime");
             Load := from_option (λ v, (Atoi v).1) 0 (vars !! "ups.load");
             Timestamp := now |}
  end.

(** The line of a listing for one variable, as a NUT server prints it. *)
Definition var_line (ups : string) (kv : string * string) : string :=
  "VAR " +:+ ups +:+ " " +:+ kv.1 +:+ " " +:+ String quote (kv.2 +:+ String quote "").

(** A string without the byte [c]. *)
Fixpoint without (c : Ascii.ascii) (s : string) : bool :=
  match s with
  | EmptyString => true
  | String a rest => negb (Ascii.eqb a c) && without c rest
  end.

End ups.

(** ** Scenarios

    Concrete plans, journals and sample sequences, used to run the code. *)

Module scenario.

(** An outside world where nothing is cancelled and nothing fails; the
    clock reads the number of the question. *)
Definition quiet_env : Env :=
  {| time_at := λ n, Z.of_nat n; ctx_done := λ _, false;
     ctx_err := "context canceled"; os_err := λ _, None;
     notify_err := λ _, None |}.

Definition ok_result (out : string) : executor.ActionResult :=
  {| executor.Success := true; executor.Output := out; executor.Error := "";
     executor.Duration := 0; executor.Retries := 0 |}.

Definition ko_result (err : string) : executor.ActionResult :=
  {| executor.Success := false; executor.Output := ""; executor.Error := err;
     executor.Duration := 0; executor.Retries := 0 |}.

(** The local executor of [echo ok]. *)
Definition echo_ok : executor.Executor :=
  {| executor.Execute := λ _, (Some (ok_result "ok"), None);
     executor.Recover := λ _, (Some (ok_result "no recovery command defined"), None);
     executor.Healthcheck := (true, None);
     executor.Describe := "Local: echo ok" |}.

(** The local executor of [exit 1]. *)
Definition exit_1 : executor.Executor :=
  {| executor.Execute := λ _, (Some (ko_result "exit status 1: "), Some "exit status 1");
     executor.Recover := λ _, (Some (ok_result "no recovery command defined"), None);
     executor.Healthcheck := (true, None);
     executor.Describe := "Local: exit 1" |}.

(** The mock of the test suite: fails [n] times, then succeeds. *)
Definition fails_then_succeeds (n : nat) (k : nat) : executor.outcome :=
  if (k <? n)%nat then (Some (ko_result "simulated failure"), None)
  else (Some (ok_result "success"), None).

Definition always_fails (k : nat) : executor.outcome :=
  (Some (ko_result "simulated failure"), None).

Definition three_attempts : executor.RetryConfig :=
  {| executor.Attempts := 3; executor.Delay := 10 * 1000000;
     executor.Backoff := "linear" |}.

Definition local_action (e : executor.Executor) (on_error : string)
    : orchestrator.Action :=
  {| orchestrator.Type_ := "local"; orchestrator.Executor := e;
     orchestrator.Recovery := ""; orchestrator.OnError := on_error;
     orchestrator.Retry := None; orchestrator.Healthcheck := None |}.

Definition sequential_phase (name : string) (actions : list orchestrator.Action)
    : orchestrator.Phase :=
  {| orchestrator.Name := name; orchestrator.Parallel := false;
     orchestrator.Timeout := 0; orchestrator.Condition := "";
     orchestrator.Actions := actions |}.

Definition state_path : string := "/var/lib/proxmox-guardian/state.json".

(** Two sequential phases; the only action of the first fails under
    [abort_all]. *)
Definition abort_all_plan : orchestrator.Orchestrator :=
  {| orchestrator.phases :=
       [sequential_phase "p1" [local_action exit_1 "abort_all"];
        sequential_phase "p2" [local_action echo_ok "continue"]];
     orchestrator.stateFile := state_path;
     orchestrator.has_notifier := false |}.

Definition empty_plan : orchestrator.Orchestrator :=
  {| orchestrator.phases := []; orchestrator.stateFile := state_path;
     orchestrator.has_notifier := false |}.

Definition no_schedule : Z → list nat := λ _, [].

(** The actions an [Execute] started, as (phase, action) pairs. *)
Definition started {D} (tr : list (Effect D)) : list (Z * Z) :=
  omap (λ e, match e with EExecute p a => Some (p, a) | _ => None end) tr.

(** A journal with a session in progress, as in the test of [Clear]. *)
Definition started_journal : state.Manager :=
  state.StartSession (state.NewManager state_path) "1" 1 "test".

Definition local_spec (recovery : string) : state.ActionSpec :=
  {| state.spec_Type := "local"; state.Host := ""; state.User := "";
     state.Guest := ""; state.Command := "true"; state.Recovery := recovery;
     state.Action := ""; state.Selector := None |}.

Definition done_action (i : Z) (recovery : string) : state.CompletedAction :=
  {| state.PhaseIndex := 0; state.PhaseName := "p1"; state.ActionIndex := i;
     state.ActionType := "local"; state.Spec := local_spec recovery;
     state.CompletedAt := 2; state.Success := true; state.Output := "";
     state.Error := "" |}.

(** Actions A, B, C appended in that order, with recoveries ra, none, rc. *)
Definition abc_journal : state.Manager :=
  state.RecordAction
    (state.RecordAction
       (state.RecordAction started_journal 2 (done_action 0 "ra"))
       2 (done_action 1 ""))
    2 (done_action 2 "rc").

Definition recovery_on : recovery.Manager :=
  recovery.NewManager
    {| recovery.Enabled := true; recovery.PowerStableDelay := 0;
       recovery.OnError := "notify"; recovery.MaxRetries := 0 |} false.

Definition recovers_ok : nat → nat → executor.outcome :=
  λ _ _, (Some (ok_result ""), None).

Definition recovers_never : nat → nat → executor.outcome :=
  λ _ _, (Some (ko_result "exit status 1"), None).

Definition levels : ups.Thresholds :=
  {| ups.Warning := 30; ups.Critical := 20; ups.Emergency := 10 |}.

Definition reading (flags : string) (charge : Z) : ups.Status :=
  {| ups.Name := "ups"; ups.status := flags; ups.BatteryCharge := charge;
     ups.Runtime := 600; ups.Load := 20; ups.Timestamp := 0 |}.

(** A tick that reads a sample while no consumer takes anything. *)
Definition unread_tick (flags : string) (charge : Z) : ups.tick :=
  {| ups.sample := Some (reading flags charge); ups.clock := λ _, 0;
     ups.events_taken := 0; ups.statuses_taken := 0 |}.

(** A tick whose read of the UPS fails. *)
Definition failed_tick : ups.tick :=
  {| ups.sample := None; ups.clock := λ _, 0; ups.events_taken := 0;
     ups.statuses_taken := 0 |}.

(** Ten samples on a nearly empty battery, then mains, then battery again,
    with nobody reading the event channel. *)
Definition unread_outage : list ups.tick :=
  replicate 10 (unread_tick "OB" 5) ++ [unread_tick "OL" 100].

(** Five attempts, the delay doubling from 10 ms. *)
Definition five_attempts : executor.RetryConfig :=
  {| executor.Attempts := 5; executor.Delay := 10 * 1000000;
     executor.Backoff := "exponential" |}.

(** A context cancelled during the wait number [n]. *)
Definition cancelled_at (n : nat) : nat → bool := λ k, bool_decide (k = n).

(** An executor whose command succeeds and whose health check fails. *)
Definition unhealthy : executor.Executor :=
  {| executor.Execute := λ _, (Some (ok_result "ok"), None);
     executor.Recover := λ _, (Some (ok_result "no recovery command defined"), None);
     executor.Healthcheck := (false, None);
     executor.Describe := "Local: systemctl stop app" |}.

Definition checked_action : orchestrator.Action :=
  {| orchestrator.Type_ := "local"; orchestrator.Executor := unhealthy;
     orchestrator.Recovery := ""; orchestrator.OnError := "continue";
     orchestrator.Retry := None;
     orchestrator.Healthcheck :=
       Some {| executor.hc_Command := "pgrep app"; executor.Expect := "failure" |} |}.

(** The journal entry of a guest shutdown that has a recovery command. *)
Definition guest_action : state.CompletedAction :=
  {| state.PhaseIndex := 0; state.PhaseName := "p1"; state.ActionIndex := 0;
     state.ActionType := "proxmox-guest";
     state.Spec :=
       {| state.spec_Type := "proxmox-guest"; state.Host := ""; state.User := "";
          state.Guest := ""; state.Command := ""; state.Recovery := "start";
          state.Action := "shutdown"; state.Selector := None |};
     state.CompletedAt := 2; state.Success := true; state.Output := "";
     state.Error := "" |}.

(** An outside world whose context is cancelled. *)
Definition cancelled_env : Env :=
  {| time_at := λ n, Z.of_nat n; ctx_done := λ _, true;
     ctx_err := "context canceled"; os_err := λ _, None;
     notify_err := λ _, None |}.

(** A recovery manager that waits 30 s for the power to stabilise. *)
Definition recovery_delayed : recovery.Manager :=
  recovery.NewManager
    {| recovery.Enabled := true; recovery.PowerStableDelay := 30 * 1000000000;
       recovery.OnError := "notify"; recovery.MaxRetries := 0 |} false.

(** A connected client and the variables of a listing. *)
Definition nut_client : ups.Client :=
  {| ups.host := "localhost:3493"; ups.upsName := "ups"; ups.connected := true;
     ups.timeout := 10 * 1000000000 |}.

Definition listing : list (string * string) :=
  [("ups.status", "OB"); ("battery.charge", "85")].

End scenario.


(** * Properties *)

Lemma nonempty_spec (s : string) : nonempty s = true ↔ s ≠ "".
Proof.
  unfold nonempty. destruct (String.eqb_spec s ""); simpl; split; congruence.
Qed.


(** ** The journal: actions for recovery *)

Section StateFacts.
Import state.

Lemma swap_ends {A} (pre mid post : list A) (x y : A) :
  swap (pre ++ x :: mid ++ y :: post) (length pre) (length pre + S (length mid))
  = pre ++ y :: mid ++ x :: post.
Proof.
  unfold swap.
  rewrite list_lookup_middle by done.
  replace (pre ++ x :: mid ++ y :: post) with ((pre ++ x :: mid) ++ y :: post)
    by (rewrite <- app_assoc; done).
  rewrite (list_lookup_middle (pre ++ x :: mid) post y)
    by (rewrite length_app; simpl; lia).
  rewrite <- app_assoc. simpl.
  rewrite insert_app_r_alt by lia.
  replace (length pre - length pre)%nat with 0%nat by lia. simpl.
  rewrite insert_app_r_alt by lia.
  replace (length pre + S (length mid) - length pre)%nat with (S (length mid)) by lia.
  simpl. rewrite insert_app_r_alt by lia.
  replace (length mid - length mid)%nat with 0%nat by lia. done.
Qed.

Lemma reverse_loop_spec {A} (fuel : nat) : ∀ (pre mid post : list A),
  (length mid ≤ fuel)%nat →
  reverse_loop fuel (Z.of_nat (length pre))
    (Z.of_nat (length pre + length mid) - 1) (pre ++ mid ++ post)
  = pre ++ reverse mid ++ post.
Proof.
  induction fuel as [|fuel IH]; intros pre mid post Hlen.
  - destruct mid; simpl in *; [done | lia].
  - simpl. destruct mid as [|x mid].
    + simpl. destruct (_ <? _) eqn:E; [apply Z.ltb_lt in E; lia | done].
    + destruct mid as [|y mid _] using rev_ind.
      * simpl. destruct (_ <? _) eqn:E; [apply Z.ltb_lt in E; lia | done].
      * rewrite length_cons, length_app in *. simpl in *.
        destruct (_ <? _) eqn:E; [|apply Z.ltb_ge in E; lia].
        replace (Z.to_nat (Z.of_nat (length pre))) with (length pre) by lia.
        replace (Z.to_nat (Z.of_nat (length pre + S (length mid + 1)) - 1))
          with (length pre + S (length mid))%nat by lia.
        rewrite <- (app_assoc mid [y] post). simpl.
        rewrite swap_ends.
        specialize (IH (pre ++ [y]) mid (x :: post)).
        rewrite length_app in IH. simpl in IH.
        replace (Z.of_nat (length pre) + 1) with (Z.of_nat (length pre + 1)) by lia.
        replace (Z.of_nat (length pre + S (length mid + 1)) - 1 - 1)
          with (Z.of_nat (length pre + 1 + length mid) - 1) by lia.
        rewrite <- !app_assoc in IH. simpl in IH. rewrite IH by lia.
        rewrite reverse_cons, reverse_snoc. simpl.
        rewrite <- !app_assoc. done.
Qed.

Lemma reverse_in_place_spec {A} (l : list A) : reverse_in_place l = reverse l.
Proof.
  unfold reverse_in_place.
  pose proof (reverse_loop_spec (length l) [] l []) as H.
  simpl in H. rewrite !app_nil_r in H. apply H. lia.
Qed.

Lemma keeps_spec a : keeps a = true ↔ recoverable a.
Proof.
  unfold keeps, recoverable. rewrite andb_true_iff.
  unfold nonempty. destruct (String.eqb_spec (Recovery (Spec a)) ""); simpl; intuition congruence.
Qed.

Lemma collect_from acts : ∀ acc,
  fold_left (fun recoverable a => if keeps a then recoverable ++ [a] else recoverable) acts acc
  = acc ++ filter recoverable acts.
Proof.
  induction acts as [|a acts IH]; intros acc; simpl.
  - by rewrite app_nil_r.
  - rewrite IH. rewrite filter_cons.
    destruct (keeps a) eqn:E.
    + rewrite decide_True by (by apply keeps_spec). by rewrite <- app_assoc.
    + rewrite decide_False; [done|]. intros H%keeps_spec. congruence.
Qed.

(** Claim C5.  For every journal, [GetActionsForRecovery] returns exactly
    the completed actions whose success flag is true and whose recovery
    command is not empty, in the reverse of the order in which they were
    appended: the filtering loop followed by the in-place exchange loop
    computes [reverse (filter recoverable _)]. *)
Theorem GetActionsForRecovery_reverse_filter (m : Manager) :
  GetActionsForRecovery m = ActionsForRecovery_spec (GetState m)
  ∧ (∀ a, a ∈ GetActionsForRecovery m ↔
          a ∈ CompletedActions (GetState m) ∧ Success a = true ∧ Recovery (Spec a) ≠ "").
Proof.
  assert (GetActionsForRecovery m = ActionsForRecovery_spec (GetState m)) as E.
  { unfold GetActionsForRecovery, ActionsForRecovery_spec, GetState, collect.
    rewrite reverse_in_place_spec, collect_from. done. }
  split; [done|]. intros a. rewrite E. unfold ActionsForRecovery_spec.
  rewrite elem_of_reverse, list_elem_of_filter. unfold recoverable. tauto.
Qed.

End StateFacts.

(** ** The retry wrapper *)

Section ExecutorFacts.
Import executor.

Lemma failing_succeeded o : failing o → succeeded o = Ret false.
Proof.
  destruct o as [[r|] [e|]]; simpl; try done. by intros ->.
Qed.

Section RetryFacts.
Variable exec : nat → outcome.
Variable done : nat → bool.
Variable ctxErr : error.
Variable retry : RetryConfig.

(** [k] failed attempts, each followed by an uninterrupted wait, move the
    loop [k] iterations forward. *)
Lemma retry_loop_failures (k : nat) : ∀ (left : nat) (attempt delay : Z) last slept,
  1 ≤ attempt →
  attempt + Z.of_nat k ≤ Attempts retry →
  (∀ i, (i < k)%nat → failing (exec (Z.to_nat (attempt - 1) + i)%nat)) →
  (∀ i, (i < k)%nat → done (length slept + i)%nat = false) →
  ∃ delay' last' slept',
    retry_loop exec done ctxErr retry (k + left) attempt delay last slept
    = retry_loop exec done ctxErr retry left (attempt + Z.of_nat k) delay' last' slept'
    ∧ length slept' = (length slept + k)%nat
    ∧ last' = match k with
              | O => last
              | S k' => exec (Z.to_nat (attempt - 1) + k')%nat
              end.
Proof.
  induction k as [|k IH]; intros left attempt delay last slept Hge Hle Hfail Hdone.
  - exists delay, last, slept. rewrite Z.add_0_r, Nat.add_0_r. done.
  - simpl. rewrite failing_succeeded.
    2:{ specialize (Hfail 0%nat). rewrite Nat.add_0_r in Hfail. apply Hfail. lia. }
    destruct (attempt <? Attempts retry) eqn:E; [|apply Z.ltb_ge in E; lia].
    specialize (Hdone 0%nat) as Hd0. rewrite Nat.add_0_r in Hd0. rewrite Hd0 by lia.
    edestruct (IH left (attempt + 1) (if String.eqb (Backoff retry) "exponential"
                                       then wrap64 (delay * 2) else delay)
                 (exec (Z.to_nat (attempt - 1))) (slept ++ [delay]))
      as (delay' & last' & slept' & Heq & Hlen & Hlast).
    + lia.
    + lia.
    + intros i Hi. replace (Z.to_nat (attempt + 1 - 1) + i)%nat
        with (Z.to_nat (attempt - 1) + S i)%nat by lia. apply Hfail. lia.
    + intros i Hi. rewrite length_app. simpl.
      replace (length slept + 1 + i)%nat with (length slept + S i)%nat by lia.
      apply Hdone. lia.
    + exists delay', last', slept'. rewrite Heq.
      replace (attempt + 1 + Z.of_nat k) with (attempt + Z.of_nat (S k)) by lia.
      split; [done|]. split.
      * rewrite Hlen, length_app. simpl. lia.
      * rewrite Hlast. destruct k as [|k]; f_equal; lia.
Qed.

End RetryFacts.

(** Claim C4.  For a retry policy with [Attempts = N] and an executor whose
    first [M < N] calls fail (a non-success result or an error) and whose
    next call succeeds, [ExecuteWithRetry] returns that successful result
    with a nil error and [Retries = M], after [M + 1] calls.  The waits
    between the attempts are not cancelled, and the executor hands out its
    result with [Retries] at the zero value, as every executor of the
    repository does. *)
Theorem ExecuteWithRetry_succeeds_after_M_failures
    (exec : nat → outcome) (done : nat → bool) (ctxErr : error)
    (rc : RetryConfig) (M : nat) (r : ActionResult) :
  Z.of_nat M < Attempts rc →
  (∀ i, (i < M)%nat → failing (exec i)) →
  exec M = (Some r, None) →
  Success r = true →
  Retries r = 0 →
  (∀ i, (i < M)%nat → done i = false) →
  ∃ res out,
    ExecuteWithRetry exec done ctxErr (Some rc) = Ret out
    ∧ returned out = (Some res, None)
    ∧ res = set_Retries (Z.of_nat M) r
    ∧ Success res = true
    ∧ Retries res = Z.of_nat M
    ∧ calls out = S M.
Proof.
  intros HM Hfail Hok Hsucc Hfresh Hdone.
  exists (set_Retries (Z.of_nat M) r). unfold ExecuteWithRetry.
  destruct (Attempts rc <=? 1) eqn:E.
  - apply Z.leb_le in E. assert (M = 0%nat) as -> by lia.
    eexists. split; [done|]. simpl. rewrite Hok.
    split; [|done]. destruct r; simpl in *. by subst.
  - apply Z.leb_gt in E.
    destruct (retry_loop_failures exec done ctxErr rc M
                (Z.to_nat (Attempts rc) - M) 1 (Delay rc) (None, None) [])
      as (delay' & last' & slept' & Heq & _ & _).
    + lia.
    + lia.
    + intros i Hi. simpl. by apply Hfail.
    + intros i Hi. simpl. by apply Hdone.
    + replace (M + (Z.to_nat (Attempts rc) - M))%nat with (Z.to_nat (Attempts rc)) in Heq by lia.
      rewrite Heq.
      destruct (Z.to_nat (Attempts rc) - M)%nat as [|left] eqn:El; [lia|].
      simpl. replace (Z.to_nat (1 + Z.of_nat M - 1)) with M by lia.
      rewrite Hok. simpl. rewrite Hsucc.
      eexists. split; [done|]. simpl.
      replace (1 + Z.of_nat M - 1) with (Z.of_nat M) by lia.
      repeat split; try done. lia.
Qed.

(** Claim C9.  For a policy with [Attempts = N >= 2] and an executor that
    fails on all [N] attempts (no wait being cancelled),
    [ExecuteWithRetry] makes [N] calls and returns the last error together
    with the last result, whose [Retries] field is now [N], the number of
    attempts, its other fields being as the executor left them (a nil last
    result stays nil).  The same policy gives [Retries = N - 1] when the
    last attempt succeeds.  For a nil policy or [Attempts <= 1] it makes
    exactly one call, waits for nothing and returns the answer untouched:
    [Retries] is left at the 0 the executor returned. *)
Theorem ExecuteWithRetry_exhausted_or_single
    (exec : nat → outcome) (done : nat → bool) (ctxErr : error) :
  (∀ rc : RetryConfig,
     2 ≤ Attempts rc →
     (∀ i, (i < Z.to_nat (Attempts rc))%nat → failing (exec i)) →
     (∀ i, (i < Z.to_nat (Attempts rc) - 1)%nat → done i = false) →
     ∃ out,
       ExecuteWithRetry exec done ctxErr (Some rc) = Ret out
       ∧ calls out = Z.to_nat (Attempts rc)
       ∧ (returned out).2 = (exec (Z.to_nat (Attempts rc) - 1)%nat).2
       ∧ match (exec (Z.to_nat (Attempts rc) - 1)%nat).1 with
         | Some r =>
             ∃ res,
               (returned out).1 = Some res
               ∧ Retries res = Attempts rc
               ∧ Success res = Success r
               ∧ Output res = Output r
               ∧ Error res = Error r
               ∧ Duration res = Duration r
         | None => (returned out).1 = None
         end)
  ∧ (∀ (rc : RetryConfig) (r : ActionResult),
       2 ≤ Attempts rc →
       (∀ i, (i < Z.to_nat (Attempts rc) - 1)%nat → failing (exec i)) →
       exec (Z.to_nat (Attempts rc) - 1)%nat = (Some r, None) →
       Success r = true →
       (∀ i, (i < Z.to_nat (Attempts rc) - 1)%nat → done i = false) →
       ∃ out res,
         ExecuteWithRetry exec done ctxErr (Some rc) = Ret out
         ∧ calls out = Z.to_nat (Attempts rc)
         ∧ returned out = (Some res, None)
         ∧ Retries res = Attempts rc - 1)
  ∧ (∀ retry : option RetryConfig,
       (retry = None ∨ ∃ rc, retry = Some rc ∧ Attempts rc ≤ 1) →
       ∃ out,
         ExecuteWithRetry exec done ctxErr retry = Ret out
         ∧ calls out = 1%nat
         ∧ waits out = []
         ∧ returned out = exec 0%nat
         ∧ ∀ r, (exec 0%nat).1 = Some r → Retries r = 0 →
                ∃ res, (returned out).1 = Some res ∧ Retries res = 0).
Proof.
  split; [|split].
  - intros rc HN Hfail Hdone. unfold ExecuteWithRetry.
    destruct (Attempts rc <=? 1) eqn:E; [apply Z.leb_le in E; lia|].
    set (N := Z.to_nat (Attempts rc)) in *.
    destruct (retry_loop_failures exec done ctxErr rc (N - 1) 1 1 (Delay rc) (None, None) [])
      as (delay' & last' & slept' & Heq & _ & _).
    + lia.
    + lia.
    + intros i Hi. simpl. apply Hfail. lia.
    + intros i Hi. simpl. by apply Hdone.
    + replace (N - 1 + 1)%nat with N in Heq by lia. rewrite Heq.
      simpl. replace (Z.to_nat (1 + Z.of_nat (N - 1) - 1)) with (N - 1)%nat by lia.
      rewrite failing_succeeded by (apply Hfail; lia).
      destruct (_ <? _) eqn:E'; [apply Z.ltb_lt in E'; lia|].
      eexists. split; [done|]. cbn [calls returned fst snd].
      split; [lia|]. split; [done|].
      destruct (exec (N - 1)%nat).1 as [r|]; [|done].
      eexists. split; [done|]. done.
  - intros rc r HN Hfail Hok Hsucc Hdone. unfold ExecuteWithRetry.
    destruct (Attempts rc <=? 1) eqn:E; [apply Z.leb_le in E; lia|].
    set (N := Z.to_nat (Attempts rc)) in *.
    destruct (retry_loop_failures exec done ctxErr rc (N - 1) 1 1 (Delay rc) (None, None) [])
      as (delay' & last' & slept' & Heq & _ & _).
    + lia.
    + lia.
    + intros i Hi. simpl. apply Hfail. lia.
    + intros i Hi. simpl. by apply Hdone.
    + replace (N - 1 + 1)%nat with N in Heq by lia. rewrite Heq.
      simpl. replace (Z.to_nat (1 + Z.of_nat (N - 1) - 1)) with (N - 1)%nat by lia.
      rewrite Hok. cbn. rewrite Hsucc.
      eexists _, _. split; [done|]. cbn [calls returned fst snd fmap option_fmap option_map].
      split; [unfold N; lia|]. split; [done|]. cbn. unfold N. lia.
  - intros retry Hr.
    assert (ExecuteWithRetry exec done ctxErr retry
            = Ret {| returned := exec 0%nat; calls := 1; waits := [] |}) as ->.
    { destruct Hr as [-> | (rc & -> & Hle)]; simpl; [done|].
      destruct (Attempts rc <=? 1) eqn:E; [done | apply Z.leb_gt in E; lia]. }
    eexists. split; [done|]. cbn. repeat split; try done.
    intros r Hr0 H0. by exists r.
Qed.

End ExecutorFacts.

(** ** The UPS monitor *)

Section UpsFacts.
Import ups.

Lemma try_send_take {A} (ch : list A) (x : A) :
  try_send ch x = ch ++ take (chan_cap - length ch) [x].
Proof.
  unfold try_send. destruct (_ <? _)%nat eqn:E.
  - apply Nat.ltb_lt in E.
    destruct (chan_cap - length ch)%nat eqn:E'; [lia|]. simpl. by rewrite take_nil.
  - apply Nat.ltb_ge in E.
    replace (chan_cap - length ch)%nat with 0%nat by lia. simpl. by rewrite app_nil_r.
Qed.

Lemma send_all_take {A} (reqs : list A) : ∀ ch,
  fold_left try_send reqs ch = ch ++ take (chan_cap - length ch) reqs.
Proof.
  induction reqs as [|x reqs IH]; intros ch; simpl.
  - by rewrite take_nil, app_nil_r.
  - rewrite IH. unfold try_send. destruct (_ <? _)%nat eqn:E.
    + apply Nat.ltb_lt in E. rewrite length_app. simpl.
      destruct (chan_cap - length ch)%nat as [|n] eqn:E'; [lia|].
      simpl. rewrite <- app_assoc. simpl. do 3 f_equal. lia.
    + apply Nat.ltb_ge in E.
      replace (chan_cap - length ch)%nat with 0%nat by lia. done.
Qed.

Lemma emitEvent_eventCh m t k st msg :
  eventCh (emitEvent m t k st msg)
  = try_send (eventCh m) {| Type_ := k; ev_Status := st; ev_Timestamp := t; Message := msg |}.
Proof. done. Qed.

Lemma checkEvents_requests m now current last :
  eventCh (checkEvents m now current last)
  = fold_left try_send (requests (thresholds m) now current last) (eventCh m).
Proof.
  unfold checkEvents, requests, power_requests, battery_requests, battery_level.
  rewrite fold_left_app.
  destruct last as [last|];
    [destruct (IsOnline last), (IsOnBattery last), (IsOnline current)|];
    destruct (IsOnBattery current); cbn;
    destruct (BatteryCharge current <=? Emergency (thresholds m)); try done;
    destruct (BatteryCharge current <=? Critical (thresholds m)); try done;
    destruct (BatteryCharge current <=? Warning (thresholds m)); done.
Qed.

Lemma checkEvents_published m now current last :
  eventCh (checkEvents m now current last)
  = eventCh m ++ published m (checkEvents m now current last)
  ∧ published m (checkEvents m now current last)
    = take (chan_cap - length (eventCh m)) (requests (thresholds m) now current last).
Proof.
  unfold published. rewrite checkEvents_requests, send_all_take.
  rewrite drop_app_length. done.
Qed.

Lemma battery_level_highest t c k :
  battery_level t c = Some k ↔ is_battery_level k = true ∧ highest_severity t c k.
Proof.
  unfold battery_level, highest_severity.
  destruct (Z.leb_spec c (Emergency t)), (Z.leb_spec c (Critical t)),
    (Z.leb_spec c (Warning t)); split.
  all: try (intros [= <-]; split; [done|]; split; [simpl; lia|];
            intros [] Hp; simpl in *; lia).
  all: try (intros [Hb [Hp Hmax]]; destruct k; simpl in *; try done; try lia;
            try (specialize (Hmax EventEmergency); simpl in Hmax; lia);
            try (specialize (Hmax EventCriticalBattery); simpl in Hmax; lia)).
  all: done.
Qed.

Lemma filter_take_sublist {A} (P : A → Prop) `{∀ x, Decision (P x)} (l : list A) :
  ∀ n, filter P (take n l) `sublist_of` filter P l.
Proof.
  induction l as [|x l IH]; intros [|n]; simpl; try done.
  - apply sublist_nil_l.
  - rewrite !filter_cons. destruct (decide (P x)); [by apply sublist_skip | done].
Qed.

Lemma filter_power_requests now current last :
  filter (λ e, is_battery_level (Type_ e) = true) (power_requests now current last) = [].
Proof.
  unfold power_requests. destruct last as [last|]; [|done].
  by destruct (_ && _), (_ && _).
Qed.

Lemma filter_battery_requests t now current last :
  filter (λ e, is_battery_level (Type_ e) = true) (requests t now current last)
  = battery_requests t now current.
Proof.
  unfold requests. rewrite filter_app, filter_power_requests.
  simpl. unfold battery_requests.
  destruct (IsOnBattery current); [|done].
  destruct (battery_level t (BatteryCharge current)) as [k|] eqn:E; [|done].
  rewrite filter_cons, decide_True; [done|].
  apply battery_level_highest in E. simpl. tauto.
Qed.

(** Claim C6, as amended.  On a tick whose sample is on battery,
    [checkEvents] puts at most one battery-level event on the event
    channel; it carries the sample and is of the kind of highest severity
    whose predicate holds (Emergency if charge <= emergency, else
    CriticalBattery if charge <= critical, else LowBattery if charge <=
    warning).  It puts exactly that event when, and only when, the channel
    has room for it after the power events of the tick: fewer than 10
    events are waiting, those of the tick included; [emitEvent] drops it
    otherwise.  With room, a charge equal to critical and above emergency
    yields CriticalBattery, and with all three thresholds at 0 a charge of
    0 yields Emergency. *)
Theorem checkEvents_battery_level_unless_full (m : Monitor) (now : EventType → Z)
    (current : Status) (last : option Status) :
  IsOnBattery current = true →
  let t := thresholds m in
  let charge := BatteryCharge current in
  let after := checkEvents m now current last in
  let battery := filter (λ e, is_battery_level (Type_ e) = true) (published m after) in
  let power :=
    match last with
    | Some prev =>
        ((if IsOnline prev then 1 else 0)
         + (if IsOnBattery prev && IsOnline current then 1 else 0))%nat
    | None => 0%nat
    end in
  let room := (length (eventCh m) + power < 10)%nat in
  (length battery ≤ 1)%nat
  ∧ (∀ e, e ∈ battery →
       ev_Status e = current
       ∧ is_battery_level (Type_ e) = true
       ∧ highest_severity t charge (Type_ e))
  ∧ (∀ k, (∃ e, battery = [e] ∧ Type_ e = k ∧ ev_Status e = current)
          ↔ is_battery_level k = true ∧ highest_severity t charge k ∧ room)
  ∧ (battery = []
     ↔ (Emergency t < charge ∧ Critical t < charge ∧ Warning t < charge) ∨ ¬ room)
  ∧ (charge = Critical t → Emergency t < charge → room →
       ∃ e, battery = [e] ∧ Type_ e = EventCriticalBattery)
  ∧ (Emergency t = 0 → Critical t = 0 → Warning t = 0 → charge = 0 → room →
       ∃ e, battery = [e] ∧ Type_ e = EventEmergency).
Proof.
  intros Hob t charge after battery power room.
  destruct (checkEvents_published m now current last) as [_ Hpub].
  fold after in Hpub. fold t in Hpub.
  assert (length (power_requests now current last) = power) as Hpower.
  { unfold power_requests, power. destruct last as [prev|]; [|done].
    rewrite Hob, andb_true_r, length_app.
    by destruct (IsOnline prev), (IsOnBattery prev && IsOnline current). }
  assert (battery_requests t now current =
            match battery_level t charge with
            | Some k => [mkEvent now k current (battery_message k charge)]
            | None => []
            end) as Hreq.
  { unfold battery_requests. by rewrite Hob. }
  assert (battery = if decide room then battery_requests t now current else []) as Hbat.
  { unfold battery. rewrite Hpub. unfold requests.
    destruct (decide room) as [Hroom|Hfull]; unfold room in *.
    - rewrite take_ge.
      + rewrite filter_app, filter_power_requests. cbn [app].
        pose proof (filter_battery_requests t now current None) as Hf.
        unfold requests in Hf. cbn in Hf. done.
      + rewrite length_app, Hpower, Hreq. unfold chan_cap.
        destruct (battery_level t charge); cbn; lia.
    - rewrite take_app_le by (rewrite Hpower; unfold chan_cap; lia).
      pose proof (filter_take_sublist (λ e, is_battery_level (Type_ e) = true)
                    (power_requests now current last)
                    (chan_cap - length (eventCh m))) as Hs.
      rewrite filter_power_requests in Hs. by apply sublist_nil_r in Hs. }
  assert (∀ k, battery_level t charge = Some k
               ↔ is_battery_level k = true ∧ highest_severity t charge k) as Hlevel
    by (intros k; apply battery_level_highest).
  assert (∀ k e, battery = [e] ∧ Type_ e = k ∧ ev_Status e = current
                 ↔ battery_level t charge = Some k ∧ room
                   ∧ e = mkEvent now k current (battery_message k charge)) as Hone.
  { intros k e. rewrite Hbat, Hreq. destruct (decide room) as [Hroom|Hfull].
    - destruct (battery_level t charge) as [k'|].
      + split.
        * intros ([= <-] & <- & _). done.
        * intros ([= ->] & _ & ->). done.
      + split; [by intros [? _] | by intros [? _]].
    - split; [by intros [? _] | by intros (_ & ? & _)]. }
  split; [|split; [|split; [|split; [|split]]]].
  - rewrite Hbat, Hreq. destruct (decide room); [|cbn; lia].
    destruct (battery_level t charge); cbn; lia.
  - intros e He. rewrite Hbat, Hreq in He.
    destruct (decide room); [|by apply elem_of_nil in He].
    destruct (battery_level t charge) as [k|] eqn:E; [|by apply elem_of_nil in He].
    apply list_elem_of_singleton in He as ->. cbn.
    split; [done|]. by apply Hlevel.
  - intros k. split.
    + intros (e & He). apply Hone in He as (Hk & Hroom & _).
      apply Hlevel in Hk as [? ?]. done.
    + intros (Hk1 & Hk2 & Hroom).
      exists (mkEvent now k current (battery_message k charge)).
      apply (proj2 (Hone _ _)). split; [by apply Hlevel|]. done.
  - rewrite Hbat, Hreq. unfold battery_level.
    destruct (decide room) as [Hroom|Hfull].
    + split.
      * intros Hnil. left.
        destruct (Z.leb_spec charge (Emergency t)); [done|].
        destruct (Z.leb_spec charge (Critical t)); [done|].
        destruct (Z.leb_spec charge (Warning t)); [done|lia].
      * intros [(? & ? & ?)|Hn]; [|done].
        destruct (Z.leb_spec charge (Emergency t)); [lia|].
        destruct (Z.leb_spec charge (Critical t)); [lia|].
        destruct (Z.leb_spec charge (Warning t)); [lia|done].
    + split; [by right | done].
  - intros Hc He Hroom.
    rewrite Hbat, Hreq, decide_True by done. unfold battery_level.
    destruct (Z.leb_spec charge (Emergency t)); [lia|].
    destruct (Z.leb_spec charge (Critical t)); [|lia]. by eexists.
  - intros He Hc Hw H0 Hroom.
    rewrite Hbat, Hreq, decide_True by done. unfold battery_level.
    destruct (Z.leb_spec charge (Emergency t)); [|lia]. by eexists.
Qed.

Lemma filter_PowerLost_requests t now current last :
  filter is_PowerLost (requests t now current last)
  = match last with
    | Some prev =>
        if IsOnline prev && IsOnBattery current
        then [mkEvent now EventPowerLost current "Power lost, running on battery"]
        else []
    | None => []
    end.
Proof.
  unfold requests, power_requests, battery_requests.
  rewrite filter_app.
  assert (filter is_PowerLost
            (if IsOnBattery current
             then match battery_level t (BatteryCharge current) with
                  | Some k => [mkEvent now k current (battery_message k (BatteryCharge current))]
                  | None => []
                  end
             else []) = []) as ->.
  { destruct (IsOnBattery current); [|done].
    destruct (battery_level t (BatteryCharge current)) as [k|] eqn:E; [|done].
    apply battery_level_highest in E as [Hk _].
    rewrite filter_cons, decide_False; [done|].
    unfold is_PowerLost. simpl. by intros ->. }
  rewrite app_nil_r. destruct last as [prev|]; [|done].
  by destruct (IsOnline prev && IsOnBattery current), (IsOnBattery prev && IsOnline current).
Qed.

Lemma requests_head_PowerLost t now current prev :
  IsOnline prev && IsOnBattery current = true →
  ∃ rest, requests t now current (Some prev)
          = mkEvent now EventPowerLost current "Power lost, running on battery" :: rest
          ∧ filter is_PowerLost rest = [].
Proof.
  intros Hc. pose proof (filter_PowerLost_requests t now current (Some prev)) as Hf.
  unfold requests, power_requests in *. rewrite Hc in *. simpl in *.
  eexists. split; [done|].
  rewrite filter_cons, decide_True in Hf by done. congruence.
Qed.

(** Claim C7, as amended.  A step of [checkEvents] puts at most one
    PowerLost event on the event channel, and it puts exactly one when, and
    only when, there is a previous sample with the online flag, the current
    sample has the on-battery flag, and the channel is not full (it holds
    fewer than 10 events): [emitEvent] drops the event otherwise.  The
    event carries the current sample. *)
Theorem checkEvents_PowerLost_unless_full (m : Monitor) (now : EventType → Z)
    (current : Status) (last : option Status) :
  let after := checkEvents m now current last in
  let lost := filter is_PowerLost (published m after) in
  (length lost ≤ 1)%nat
  ∧ (length lost = 1%nat ↔
       (∃ prev, last = Some prev ∧ IsOnline prev = true ∧ IsOnBattery current = true)
       ∧ (length (eventCh m) < chan_cap)%nat)
  ∧ (∀ e, e ∈ lost → ev_Status e = current).
Proof.
  intros after lost.
  destruct (checkEvents_published m now current last) as [_ Hpub].
  fold after in Hpub.
  pose proof (filter_take_sublist is_PowerLost
                (requests (thresholds m) now current last)
                (chan_cap - length (eventCh m))) as Hsub.
  rewrite <- Hpub in Hsub. fold lost in Hsub.
  rewrite filter_PowerLost_requests in Hsub.
  split; [|split].
  - apply sublist_length in Hsub.
    destruct last as [prev|]; [destruct (_ && _)|]; simpl in Hsub; lia.
  - split.
    + intros Hone. split.
      * destruct last as [prev|].
        -- destruct (IsOnline prev && IsOnBattery current) eqn:E.
           ++ apply andb_true_iff in E as [? ?]. eauto.
           ++ apply sublist_length in Hsub. simpl in Hsub. lia.
        -- apply sublist_length in Hsub. simpl in Hsub. lia.
      * destruct (decide (length (eventCh m) < chan_cap)%nat) as [|Hfull]; [done|].
        exfalso. unfold lost in Hone. rewrite Hpub in Hone.
        replace (chan_cap - length (eventCh m))%nat with 0%nat in Hone by lia.
        rewrite take_0 in Hone. done.
    + intros [(prev & -> & Hol & Hob) Hroom].
      destruct (requests_head_PowerLost (thresholds m) now current prev)
        as (rest & Hreq & Hrest); [by rewrite Hol, Hob|].
      unfold lost. rewrite Hpub, Hreq.
      destruct (chan_cap - length (eventCh m))%nat as [|n] eqn:E; [lia|].
      cbn [take]. rewrite filter_cons, decide_True by done. simpl. f_equal.
      pose proof (filter_take_sublist is_PowerLost rest n) as Hs.
      rewrite Hrest in Hs. apply sublist_nil_r in Hs. by rewrite Hs.
  - intros e He. eapply elem_of_sublist in He; [|exact Hsub].
    destruct last as [prev|]; [destruct (_ && _)|].
    + by apply list_elem_of_singleton in He as ->.
    + by apply elem_of_nil in He.
    + by apply elem_of_nil in He.
Qed.

Lemma monitorLoop_failed_samples (failed : list tick) : ∀ (m : Monitor) last rest,
  Forall (λ x, sample x = None) failed →
  eventCh m = [] →
  ∃ m', monitorLoop m last (failed ++ rest) = monitorLoop m' last rest
        ∧ eventCh m' = [] ∧ thresholds m' = thresholds m.
Proof.
  induction failed as [|x failed IH]; intros m last rest Hf Hm.
  - exists m. done.
  - apply Forall_cons in Hf as [Hx Hf]. simpl. rewrite Hx.
    destruct (IH (take_from m x) last rest Hf) as (m' & Heq & He & Ht).
    + simpl. rewrite Hm. apply drop_nil.
    + exists m'. done.
Qed.

(** Claim C10.  Up to and including the first sample the monitor reads
    successfully, the event channel receives no PowerLost and no
    PowerRestored event; it receives exactly the battery-level event of
    that sample when the sample is on battery with a charge at or below a
    threshold, so a battery-level event is published with no PowerLost
    before it. *)
Theorem first_sample_events (t : Thresholds) (failed : list tick) (tk : tick)
    (s : Status) :
  Forall (λ x, sample x = None) failed →
  sample tk = Some s →
  let m := (Start (NewMonitor t) (failed ++ [tk])).1 in
  eventCh m = battery_requests t (clock tk) s
  ∧ (∀ e, e ∈ eventCh m →
       Type_ e ≠ EventPowerLost ∧ Type_ e ≠ EventPowerRestored)
  ∧ (∀ k, IsOnBattery s = true → battery_level t (BatteryCharge s) = Some k →
       ∃ e, eventCh m = [e] ∧ Type_ e = k ∧ ev_Status e = s).
Proof.
  intros Hfailed Hs m.
  assert (eventCh m = battery_requests t (clock tk) s) as Hm.
  { unfold m, Start.
    destruct (monitorLoop_failed_samples failed (NewMonitor t) None [tk] Hfailed)
      as (m' & -> & He & Ht); [done|].
    simpl. rewrite Hs. simpl.
    rewrite checkEvents_requests. simpl. rewrite He.
    unfold requests. simpl. rewrite Ht. simpl.
    unfold battery_requests. rewrite drop_nil.
    destruct (IsOnBattery s); [|done].
    by destruct (battery_level t (BatteryCharge s)). }
  split; [done|]. split.
  - intros e. rewrite Hm. unfold battery_requests.
    destruct (IsOnBattery s); [|by intros ?%elem_of_nil].
    destruct (battery_level t (BatteryCharge s)) as [k|] eqn:E;
      [|by intros ?%elem_of_nil].
    intros ->%list_elem_of_singleton. simpl.
    apply battery_level_highest in E as [Hk _]. by destruct k.
  - intros k Hob Hk. rewrite Hm. unfold battery_requests. rewrite Hob, Hk. eauto.
Qed.

End UpsFacts.

(** ** Reasoning about the effect monad *)

Section Preserves.
Context {S D : Type} (R : relation (World S D)) `{!PreOrder R}.

Lemma preserves_ret {A} (a : A) : preserves R (ret a).
Proof. intros w. simpl. reflexivity. Qed.

Lemma preserves_panic {A} : preserves R (@panic S D A).
Proof. intros w. simpl. reflexivity. Qed.

Lemma preserves_get : preserves R (@get S D).
Proof. intros w. simpl. reflexivity. Qed.

Lemma preserves_bind {A B} (c : M S D A) (k : A → M S D B) :
  preserves R c → (∀ a, preserves R (k a)) → preserves R (bind c k).
Proof.
  intros Hc Hk w. unfold bind. specialize (Hc w).
  destruct (c w) as [[a|] w']; simpl in *; [|done].
  etrans; [exact Hc | apply Hk].
Qed.

End Preserves.

Lemma bind_unfold {S D A B} (c : M S D A) (k : A → M S D B) (w : World S D) :
  bind c k w = match c w with
               | (Ret a, w') => k a w'
               | (Panic, w') => (Panic, w')
               end.
Proof. done. Qed.

#[local] Instance same_status_preorder {S D} (f : S → string) :
  PreOrder (@same_status S D f).
Proof.
  split.
  - by intros w.
  - intros w1 w2 w3 [H1 H2] [H3 H4]. split; congruence.
Qed.

Lemma status_history_app {D} (tr1 tr2 : list (Effect D)) :
  status_history (tr1 ++ tr2) = status_history tr1 ++ status_history tr2.
Proof. apply omap_app. Qed.

Lemma status_history_quiet {D} (tr : list (Effect D)) (e : Effect D) :
  is_status e = false → status_history (tr ++ [e]) = status_history tr.
Proof.
  intros He. rewrite status_history_app. destruct e; try done; simpl; by rewrite app_nil_r.
Qed.

Lemma status_history_waits {D} (tr : list (Effect D)) (ds : list Z) :
  status_history (tr ++ (EWait <$> ds)) = status_history tr.
Proof.
  rewrite status_history_app.
  assert (status_history (D:=D) (EWait <$> ds) = []) as ->; [|by rewrite app_nil_r].
  induction ds; simpl; done.
Qed.

Section SameStatus.
Context {S D : Type} (status_of : S → string).
#[local] Abbreviation quiet := (preserves (@same_status S D status_of)).

Lemma quiet_emit (e : Effect D) : is_status e = false → quiet (emit e).
Proof. intros He w. split; simpl; [by apply status_history_quiet | done]. Qed.

Lemma quiet_ask {A} (answer : nat → A) : quiet (ask answer).
Proof. by intros w. Qed.

Lemma quiet_modify (f : S → S) :
  (∀ s, status_of (f s) = status_of s) → quiet (modify f).
Proof. intros Hf w. split; simpl; [done | apply Hf]. Qed.

Lemma quiet_now env : quiet (now env).
Proof. apply quiet_ask. Qed.

Lemma quiet_log level msg : quiet (log level msg).
Proof. by apply quiet_emit. Qed.

Lemma quiet_os_call env (e : Effect D) : is_status e = false → quiet (os_call env e).
Proof.
  intros He. apply preserves_bind; [apply _ | by apply quiet_emit | intros _; apply quiet_ask].
Qed.

Lemma quiet_select_done env d : quiet (select_done env d).
Proof.
  apply preserves_bind; [apply _ | by apply quiet_emit | intros _; apply quiet_ask].
Qed.

Lemma quiet_notify env b event : quiet (notify env b event).
Proof.
  unfold notify. destruct b; [|apply preserves_ret; apply _].
  apply preserves_bind; [apply _ | by apply quiet_emit | intros _].
  apply preserves_bind; [apply _ | apply quiet_ask | intros [e|]].
  - apply quiet_log.
  - apply preserves_ret; apply _.
Qed.

End SameStatus.


(** ** The orchestrator *)

Section OrchestratorFacts.
Import orchestrator.

Variable env : Env.
Variable sched : Z → list nat.
Variable o : Orchestrator.

#[local] Abbreviation squiet := (preserves (@same_status State State Status)).

Ltac quiet_leaf :=
  first
    [ apply preserves_ret; apply _
    | apply preserves_panic; apply _
    | apply preserves_get; apply _
    | apply quiet_now
    | apply quiet_log
    | apply quiet_notify
    | apply quiet_select_done
    | apply quiet_os_call; done
    | apply quiet_emit; done
    | apply quiet_modify; done ].

(** [quiet_bind tac]: the first computation of a bind by [tac], the rest is
    left as the goal. *)
Tactic Notation "quiet_bind" tactic3(tac) "as" simple_intropattern(x) :=
  apply preserves_bind; [apply _ | tac | intros x].
Tactic Notation "quiet_bind" "as" simple_intropattern(x) :=
  apply preserves_bind; [apply _ | quiet_leaf | intros x].

Lemma quiet_saveState : squiet (saveState env o).
Proof. unfold saveState. quiet_bind as st. quiet_leaf. Qed.

Lemma quiet_call_executor p a action : squiet (call_executor env p a action).
Proof.
  unfold call_executor. quiet_bind as _.
  destruct (Retry action) as [rc|]; [|quiet_leaf].
  intros w. destruct (executor.ExecuteWithRetry _ _ _ _) as [r|]; simpl; [|done].
  split; simpl; [apply status_history_waits | done].
Qed.

Lemma quiet_executeAction p name a action : squiet (executeAction env p name a action).
Proof.
  unfold executeAction. quiet_bind as _.
  quiet_bind (apply quiet_call_executor) as [result [e|]].
  { quiet_bind as _. quiet_leaf. }
  quiet_bind (idtac) as failed.
  - destruct (Healthcheck action); [|quiet_leaf].
    quiet_bind as _.
    destruct (executor.Healthcheck (Executor action)). quiet_leaf.
  - destruct failed; [quiet_bind as _; quiet_leaf|].
    destruct result; [quiet_bind as _; quiet_leaf | quiet_leaf].
Qed.

Lemma quiet_track p phase i action out : squiet (track env o p phase i action out).
Proof.
  unfold track. destruct out as [result err].
  quiet_bind as t.
  destruct (executor.succeeded _) as [ok|]; [|quiet_leaf].
  quiet_bind as _.
  quiet_bind (apply quiet_saveState) as _. quiet_leaf.
Qed.

Lemma quiet_sequential_from p phase actions : ∀ i,
  squiet (sequential_from env o p phase i actions).
Proof.
  induction actions as [|action rest IH]; intros i; simpl; [quiet_leaf|].
  quiet_bind as t.
  quiet_bind as _.
  quiet_bind (apply quiet_saveState) as _.
  quiet_bind (apply quiet_executeAction) as out.
  quiet_bind (apply quiet_track) as ok.
  destruct ok; simpl; [apply IH|].
  repeat (destruct (String.eqb _ _)); try apply IH; try quiet_leaf.
  quiet_bind as _. apply IH.
Qed.

Lemma quiet_goroutine p phase idx act : squiet (goroutine env o p phase idx act).
Proof.
  unfold goroutine.
  quiet_bind (apply quiet_executeAction) as out.
  quiet_bind (apply quiet_track) as _. quiet_leaf.
Qed.

Lemma quiet_parallel_in p phase order : ∀ errCh,
  squiet (parallel_in env o p phase order errCh).
Proof.
  induction order as [|idx rest IH]; intros errCh; simpl; [quiet_leaf|].
  destruct (Actions phase !! idx); [|apply IH].
  quiet_bind (apply quiet_goroutine) as sent. apply IH.
Qed.

Lemma quiet_executePhase p phase : squiet (executePhase env sched o p phase).
Proof.
  unfold executePhase, executeParallel, executeSequential.
  destruct (Parallel phase).
  - quiet_bind (apply quiet_parallel_in) as errCh. quiet_leaf.
  - apply quiet_sequential_from.
Qed.

Lemma quiet_phases_from ps : ∀ i, squiet (phases_from env sched o i ps).
Proof.
  induction ps as [|phase rest IH]; intros i; simpl; [quiet_leaf|].
  quiet_bind as _.
  quiet_bind as t.
  quiet_bind as _.
  quiet_bind (apply quiet_saveState) as _.
  quiet_bind as _.
  quiet_bind (apply quiet_executePhase) as err.
  quiet_bind (destruct err; quiet_leaf) as _.
  quiet_bind as _. apply IH.
Qed.

Lemma quiet_recover_each acts : squiet (recover_each acts).
Proof.
  induction acts as [|a rest IH]; simpl; [quiet_leaf|].
  quiet_bind (destruct (nonempty _); quiet_leaf) as _. apply IH.
Qed.

(** How a quiet computation leaves the world, as far as the status goes. *)
Lemma run_quiet {A} (c : M State State A) (w : World State State) :
  squiet c →
  ∃ r w', c w = (r, w')
          ∧ status_history (trace w') = status_history (trace w)
          ∧ Status (cur w') = Status (cur w).
Proof.
  intros Hc. destruct (Hc w) as [H1 H2]. destruct (c w) as [r w'] eqn:E.
  exists r, w'. done.
Qed.

(** [notify] always returns. *)
Lemma run_notify b event (w : World State State) :
  ∃ w', notify env b event w = (Ret tt, w')
        ∧ status_history (trace w') = status_history (trace w)
        ∧ Status (cur w') = Status (cur w).
Proof.
  unfold notify. destruct b; [|by eexists].
  cbn. destruct (notify_err env (steps w)); cbn; eexists; (split; [done|]); cbn;
    rewrite !status_history_app; unfold status_history; cbn; by rewrite !app_nil_r.
Qed.

Lemma saveState_run (w : World State State) :
  saveState env o w
  = (Ret (os_err env (steps w)),
     {| cur := cur w; steps := S (steps w);
        trace := trace w ++ [EWriteFile (stateFile o) (cur w) mode_0600] |}).
Proof. done. Qed.

Ltac run_prims :=
  repeat (first [rewrite bind_unfold | rewrite saveState_run];
          cbn [ret now ask modify emit get log fst snd cur steps trace]).

Lemma Execute_status trigger (w : World State State) :
  ∃ r w', Execute env sched o trigger w = (r, w')
    ∧ status_history (trace w')
      = status_history (trace w)
        ++ (if returned_nil r then ["in_progress"; "completed"]
            else ["in_progress"])
    ∧ Status (cur w')
      = (if returned_nil r then "completed" else "in_progress").
Proof.
  unfold Execute. run_prims.
  match goal with |- context [os_err env ?n] => destruct (os_err env n) as [e|] end.
  { eexists _, _. split; [done|]. cbn.
    rewrite !status_history_app. cbn. by rewrite app_nil_r. }
  run_prims.
  match goal with |- context [notify env ?b ?ev ?w0] =>
    destruct (run_notify b ev w0) as (w1 & -> & Hh1 & Hs1) end.
  run_prims.
  destruct (run_quiet (phases_from env sched o 0 (phases o)) w1)
    as (r2 & w2 & -> & Hh2 & Hs2); [apply quiet_phases_from|].
  destruct r2 as [[]|]; [|eexists _, _; split; [done|]].
  2:{ rewrite Hh2, Hs2, Hh1, Hs1. cbn.
      rewrite !status_history_app. cbn. by rewrite app_nil_r. }
  run_prims.
  match goal with |- context [notify env ?b ?ev ?w0] =>
    destruct (run_notify b ev w0) as (w3 & -> & Hh3 & Hs3) end.
  cbn in Hh3, Hs3.
  eexists _, _. split; [done|]. cbn.
  rewrite Hh3, Hs3.
  rewrite !status_history_app, Hh2, Hh1. cbn.
  rewrite !status_history_app. cbn. rewrite !app_nil_r, <- app_assoc. done.
Qed.

Lemma recover_each_returns acts : ∀ w : World State State,
  (recover_each acts w).1 = Ret tt.
Proof.
  induction acts as [|a acts IH]; intros w; cbn; [done|].
  rewrite bind_unfold. destruct (nonempty _); cbn; apply IH.
Qed.

Lemma Recover_status (w : World State State) :
  ∃ r w', Recover env o w = (r, w')
    ∧ if bool_decide (Status (cur w) = "in_progress")
         || bool_decide (Status (cur w) = "completed")
      then r = Ret None
           ∧ status_history (trace w')
             = status_history (trace w) ++ ["recovering"; "idle"]
           ∧ Status (cur w') = "idle"
      else r = Ret (Some "nothing to recover") ∧ w' = w.
Proof.
  unfold Recover. run_prims.
  assert (negb (String.eqb (Status (cur w)) "in_progress")
          && negb (String.eqb (Status (cur w)) "completed")
          = negb (bool_decide (Status (cur w) = "in_progress")
                  || bool_decide (Status (cur w) = "completed"))) as ->.
  { destruct (String.eqb_spec (Status (cur w)) "in_progress"),
      (String.eqb_spec (Status (cur w)) "completed");
      repeat case_bool_decide; done. }
  destruct (_ || _); cbn [negb]; [|by eexists _, _].
  run_prims.
  match goal with |- context [notify env ?b ?ev ?w0] =>
    destruct (run_notify b ev w0) as (w1 & -> & Hh1 & Hs1) end.
  run_prims.
  match goal with |- context [recover_each ?l ?w0] =>
    destruct (run_quiet (recover_each l) w0) as (r2 & w2 & E2 & Hh2 & Hs2);
      [apply quiet_recover_each|] end.
  assert (r2 = Ret tt) as ->.
  { match type of E2 with recover_each ?l ?w0 = _ =>
      pose proof (recover_each_returns l w0) as Hr end.
    by rewrite E2 in Hr. }
  rewrite E2. run_prims.
  match goal with |- context [notify env ?b ?ev ?w0] =>
    destruct (run_notify b ev w0) as (w3 & -> & Hh3 & Hs3) end.
  cbn in Hh1, Hs1, Hh3, Hs3.
  eexists _, _. split; [done|]. split; [done|].
  rewrite Hh3, Hs3. split; [|done].
  rewrite !status_history_app, Hh2, Hh1. cbn.
  rewrite !status_history_app. cbn. rewrite !app_nil_r, <- app_assoc. done.
Qed.

End OrchestratorFacts.

(** ** The recovery manager *)

Section RecoveryFacts.
Import recovery.

Variable env : Env.
Variable recovers : nat → nat → executor.outcome.
Variable m : Manager.

#[local] Instance unmarked_preorder : PreOrder unmarked.
Proof.
  split.
  - by intros w.
  - intros w1 w2 w3 [H1 H2] [H3 H4]. split; congruence.
Qed.

#[local] Abbreviation plain := (preserves unmarked).

Lemma marks_app tr1 tr2 : marks (tr1 ++ tr2) = marks tr1 ++ marks tr2.
Proof. apply filter_app. Qed.

Lemma marks_unmarked tr e : marked e = false → marks (tr ++ [e]) = marks tr.
Proof.
  intros He. rewrite marks_app. unfold marks at 2.
  rewrite filter_cons, decide_False by congruence. by rewrite filter_nil, app_nil_r.
Qed.

Lemma marks_marked tr e : marked e = true → marks (tr ++ [e]) = marks tr ++ [e].
Proof.
  intros He. rewrite marks_app. unfold marks at 2.
  by rewrite filter_cons, decide_True.
Qed.

Lemma plain_emit e : marked e = false → plain (emit e).
Proof. intros He w. split; simpl; [done | by apply marks_unmarked]. Qed.

Lemma plain_ask {A} (answer : nat → A) : plain (ask answer).
Proof. by intros w. Qed.

Ltac plain_leaf :=
  first
    [ apply preserves_ret; apply _
    | apply preserves_panic; apply _
    | apply preserves_get; apply _
    | apply plain_ask
    | apply plain_emit; done ].

Tactic Notation "plain_bind" tactic3(tac) "as" simple_intropattern(x) :=
  apply preserves_bind; [apply _ | tac | intros x].
Tactic Notation "plain_bind" "as" simple_intropattern(x) :=
  apply preserves_bind; [apply _ | plain_leaf | intros x].

Lemma plain_select_done d : plain (select_done env d).
Proof. unfold select_done. plain_bind as _. plain_leaf. Qed.

Lemma plain_notify b event : plain (notify env b event).
Proof.
  unfold notify. destruct b; [|plain_leaf].
  plain_bind as _. plain_bind as [e|]; plain_leaf.
Qed.

Lemma plain_Save : plain (state.Save env).
Proof.
  unfold state.Save. plain_bind as sm.
  destruct (_ <? _)%nat; [plain_leaf|].
  unfold os_call.
  plain_bind (plain_bind as _; plain_leaf) as [e|]; [plain_leaf|].
  plain_bind (plain_bind as _; plain_leaf) as [e|]; plain_leaf.
Qed.

Lemma plain_recover_attempts i exec left : ∀ attempt lastErr,
  plain (recover_attempts env m i exec left attempt lastErr).
Proof.
  induction left as [|left IH]; intros attempt lastErr; simpl; [plain_leaf|].
  plain_bind as _.
  destruct (executor.succeeded _) as [[]|]; [plain_leaf | | plain_leaf].
  destruct (attempt <? MaxRetries (config m)); [|apply IH].
  plain_bind as _.
  plain_bind (apply plain_select_done) as [].
  - plain_leaf.
  - apply IH.
Qed.

Lemma plain_recoverAction i action : plain (recoverAction env recovers m i action).
Proof.
  unfold recoverAction. destruct (negb _); [plain_leaf|].
  destruct (createExecutor _ _ _); [apply plain_recover_attempts | plain_leaf].
Qed.

Lemma run_plain {A} (c : M state.Manager state.State A) w :
  plain c →
  ∃ r w', c w = (r, w') ∧ cur w' = cur w ∧ marks (trace w') = marks (trace w).
Proof.
  intros Hc. destruct (Hc w) as [H1 H2]. destruct (c w) as [r w'] eqn:E.
  by exists r, w'.
Qed.

Lemma notify_returns {S D} b event (w : World S D) :
  fst (notify env b event w) = Ret tt.
Proof.
  unfold notify. destruct b; [|done]. cbn.
  by destruct (notify_err env (steps w)).
Qed.

Lemma run_plain_notify b event (w : World state.Manager state.State) :
  ∃ w', notify env b event w = (Ret tt, w')
        ∧ cur w' = cur w ∧ marks (trace w') = marks (trace w).
Proof.
  destruct (run_plain (notify env b event) w) as (r & w' & E & H1 & H2);
    [apply plain_notify|].
  pose proof (notify_returns b event w) as Hr. rewrite E in Hr. simpl in Hr.
  subst r. by exists w'.
Qed.

Lemma recover_from_marks acts : ∀ i errs cnt w,
  ∃ r w' n,
    recover_from env recovers m i acts errs cnt w = (r, w')
    ∧ cur w' = cur w
    ∧ marks (trace w') = marks (trace w) ++ replicate n failure_log
    ∧ match r with
      | Ret res => length res.1 = (length errs + n)%nat
      | Panic => True
      end.
Proof.
  induction acts as [|action rest IH]; intros i errs cnt w; simpl.
  { exists (Ret (errs, cnt)), w, 0%nat. simpl. rewrite app_nil_r.
    repeat split; try done. }
  rewrite bind_unfold. cbn [log emit fst snd].
  rewrite bind_unfold.
  match goal with |- context [recoverAction env recovers m i action ?w0] =>
    destruct (run_plain (recoverAction env recovers m i action) w0)
      as (r1 & w1 & -> & Hc1 & Hm1); [apply plain_recoverAction|] end.
  cbn in Hc1, Hm1. rewrite marks_unmarked in Hm1 by done.
  destruct r1 as [[e|]|].
  - rewrite bind_unfold. cbn [log emit fst snd]. rewrite bind_unfold.
    match goal with |- context [(if ?b then notify env ?h ?ev else ret tt) ?w0] =>
      assert (∃ w2, (if b then notify env h ev else ret tt) w0 = (Ret tt, w2)
                    ∧ cur w2 = cur w0 ∧ marks (trace w2) = marks (trace w0))
        as (w2 & -> & Hc2 & Hm2)
    end.
    { destruct (String.eqb _ _); [apply run_plain_notify | by eexists]. }
    cbn in Hc2, Hm2. rewrite marks_marked in Hm2 by done.
    destruct (IH (S i) (errs ++ [e]) cnt w2) as (r & w' & n & -> & Hc & Hm & Hr).
    exists r, w', (S n). split; [done|]. split; [congruence|]. split.
    + rewrite Hm, Hm2, Hm1, <- app_assoc. done.
    + destruct r as [res|]; [|done]. rewrite Hr, length_app. simpl. lia.
  - rewrite bind_unfold. cbn [log emit fst snd].
    match goal with |- context [recover_from env recovers m ?i' rest ?e' ?c' ?w0] =>
      destruct (IH i' e' c' w0) as (r & w' & n & -> & Hc & Hm & Hr) end.
    cbn in Hc, Hm. rewrite marks_unmarked in Hm by done.
    exists r, w', n. split; [done|]. split; [congruence|]. split; [congruence|done].
  - exists Panic, w1, 0%nat. simpl. rewrite app_nil_r. done.
Qed.

Lemma do_SetStatus_run st (w : World state.Manager state.State) :
  state.do_SetStatus env st w
  = (Ret tt, {| cur := state.SetStatus (cur w) (time_at env (steps w)) st;
                steps := S (steps w);
                trace := trace w ++ [EStatus (state.Status_string st)] |}).
Proof. done. Qed.

Lemma do_Clear_run (w : World state.Manager state.State) :
  state.do_Clear env w
  = (Ret tt, {| cur := state.Clear (cur w) (time_at env (steps w));
                steps := S (steps w);
                trace := trace w ++ [EStatus "idle"] |}).
Proof. done. Qed.

Lemma do_SetError_run err (w : World state.Manager state.State) :
  state.do_SetError env err w
  = (Ret tt, {| cur := state.SetError (cur w) (time_at env (steps w)) err;
                steps := S (steps w); trace := trace w |}).
Proof. done. Qed.

Ltac rstep :=
  first [ rewrite bind_unfold | rewrite do_SetStatus_run | rewrite do_Clear_run
        | rewrite do_SetError_run ];
  cbn [ret now ask modify emit get log fst snd cur steps trace].

(** After [Save] and the log of its error, if any. *)
Lemma run_Save_logged (msg : string) w :
  marked (ELog "error" msg) = false →
  ∃ r w1, state.Save env w = (r, w1)
          ∧ cur w1 = cur w
          ∧ match r with
            | Panic => marks (trace w1) = marks (trace w)
            | Ret err =>
                ∃ w2, (match err with
                       | Some _ => log "error" msg
                       | None => ret tt
                       end w1) = (Ret tt, w2)
                      ∧ cur w2 = cur w ∧ marks (trace w2) = marks (trace w)
            end.
Proof.
  intros Hmsg.
  destruct (run_plain (state.Save env) w) as (r & w1 & E & Hc & Hm); [apply plain_Save|].
  exists r, w1. split; [done|]. split; [done|].
  destruct r as [[e|]|]; [| |done].
  - eexists. split; [done|]. cbn. split; [done|]. by rewrite marks_unmarked.
  - eexists. split; [done|]. done.
Qed.

Lemma recovery_Execute_cases (w : World state.Manager state.State) :
  ∃ r w', Execute env recovers m w = (r, w') ∧
    if negb (Enabled (config m)) then
      r = Ret (Some "recovery is disabled") ∧ w' = w
    else if negb (state.NeedsRecovery (cur w)) then
      r = Ret (Some ("nothing to recover (status: "
                     +:+ state.Status_string (journal_status (cur w)) +:+ ")"))
      ∧ w' = w
    else
      (marks (trace w') = marks (trace w) ++ [EStatus "recovering"]
       ∧ journal_status (cur w') = state.StatusRecovering
       ∧ (r = Panic ∨ r = Ret (Some (ctx_err env))))
      ∨ ∃ n : nat,
          let seen := marks (trace w) ++ [EStatus "recovering"; pass_start_log]
                      ++ replicate n failure_log in
          (marks (trace w') = seen
           ∧ journal_status (cur w') = state.StatusRecovering
           ∧ r = Panic)
          ∨ (marks (trace w')
             = seen ++ (if decide (n = 0%nat)
                        then [EStatus "idle"; EStatus "idle"]
                        else [EStatus "failed"])
             ∧ (r = Panic
                ∨ r = Ret (if decide (n = 0%nat) then None
                           else Some ("recovery completed with "
                                      +:+ pretty (Z.of_nat n) +:+ " errors")))
             ∧ if decide (n = 0%nat)
               then ∃ t, state.mstate (cur w')
                         = state.zero_State state.StatusIdle t
               else journal_status (cur w') = state.StatusFailed
                    ∧ state.LastError (state.mstate (cur w'))
                      = pretty (Z.of_nat n) +:+ " recovery errors").
Proof.
  unfold Execute. destruct (Enabled (config m)); cbn [negb]; [|by eexists _, _].
  rstep. unfold state.GetState, state.NeedsRecovery, journal_status.
  rewrite negb_orb.
  destruct (negb _ && negb _) eqn:Egate; [by eexists _, _|].
  repeat rstep.
  match goal with |- context [notify env ?b ?ev ?w0] =>
    destruct (run_plain_notify b ev w0) as (w1 & -> & Hc1 & Hm1) end.
  cbn in Hc1, Hm1. rewrite marks_unmarked in Hm1 by done.
  repeat rstep.
  match goal with |- context [state.Save env ?w0] =>
    destruct (run_Save_logged "Failed to save recovery state" w0)
      as (r2 & w2 & -> & Hc2 & Hr2); [done|] end.
  cbn in Hc2.
  destruct r2 as [err|].
  2:{ eexists _, _. split; [done|]. left. cbn in Hr2.
      rewrite Hr2, marks_marked, Hm1 by done. rewrite Hc2, Hc1. by eauto. }
  destruct Hr2 as (w3 & E3 & Hc3 & Hm3). rewrite bind_unfold, E3.
  cbn in Hc3, Hm3.
  rewrite marks_marked in Hm3 by done. rewrite Hm1 in Hm3. rewrite Hc1 in Hc3.
  rstep.
  (* the power-stable delay *)
  match goal with |- context [(if ?b then ?c1 else ?c2) w3] =>
    assert (∃ cancelled w4, (if b then c1 else c2) w3 = (Ret cancelled, w4)
                            ∧ cur w4 = cur w3 ∧ marks (trace w4) = marks (trace w3))
      as (cancelled & w4 & -> & Hc4 & Hm4)
  end.
  { destruct (0 <? _); [|by eexists _, _].
    repeat rstep. unfold select_done. repeat rstep.
    eexists _, _. split; [done|]. cbn. split; [done|].
    by rewrite !marks_unmarked. }
  rewrite Hm3 in Hm4. rewrite Hc3 in Hc4.
  destruct cancelled.
  { eexists _, _. split; [done|]. left. rewrite Hm4, Hc4. by eauto. }
  repeat rstep.
  match goal with |- context [recover_from env recovers m ?i ?acts ?e ?c ?w0] =>
    destruct (recover_from_marks acts i e c w0)
      as (r5 & w5 & n & -> & Hc5 & Hm5 & Hn) end.
  cbn in Hc5, Hm5. rewrite marks_marked, Hm4 in Hm5 by done.
  rewrite Hc4 in Hc5.
  destruct r5 as [[errs cnt]|].
  2:{ eexists _, _. split; [done|]. right. exists n. left.
      split; [by rewrite Hm5, <- !app_assoc|]. by rewrite Hc5. }
  cbn in Hn. rewrite bind_unfold. cbn [fst].
  assert (bool_decide (length errs = 0%nat) = bool_decide (n = 0%nat)) as ->.
  { apply bool_decide_ext. lia. }
  assert (bool_decide (0 < length errs)%nat = negb (bool_decide (n = 0%nat))) as ->.
  { rewrite <- bool_decide_not. apply bool_decide_ext. lia. }
  rewrite Hn.
  destruct (decide (n = 0%nat)) as [->|Hne].
  - rewrite bool_decide_eq_true_2 by done. repeat rstep.
    match goal with |- context [state.Save env ?w0] =>
      destruct (run_Save_logged "Failed to save state after recovery" w0)
        as (r6 & w6 & -> & Hc6 & Hr6); [done|] end.
    cbn in Hc6.
    destruct r6 as [err6|].
    2:{ eexists _, _. split; [done|]. right. exists 0%nat. right.
        cbn in Hr6. rewrite Hr6, !marks_marked, Hm5 by done.
        split; [by rewrite <- !app_assoc|]. split; [by left|].
        rewrite Hc6. by eexists. }
    destruct Hr6 as (w7 & E7 & Hc7 & Hm7). rewrite bind_unfold, E7.
    cbn in Hc7, Hm7.
    rewrite !marks_marked, Hm5 in Hm7 by done.
    rstep.
    match goal with |- context [notify env ?b ?ev ?w0] =>
      destruct (run_plain_notify b ev w0) as (w8 & -> & Hc8 & Hm8) end.
    cbn [negb]. repeat rstep.
    eexists _, _. split; [done|]. right. exists 0%nat. right. cbn.
    rewrite marks_unmarked, Hm8, Hm7 by done.
    split; [by rewrite <- !app_assoc|]. split; [by right|].
    rewrite Hc8, Hc7. by eexists.
  - rewrite bool_decide_eq_false_2 by done. repeat rstep.
    match goal with |- context [state.Save env ?w0] =>
      destruct (run_Save_logged "Failed to save state after recovery" w0)
        as (r6 & w6 & -> & Hc6 & Hr6); [done|] end.
    cbn in Hc6.
    destruct r6 as [err6|].
    2:{ eexists _, _. split; [done|]. right. exists n. right.
        destruct (decide (n = 0%nat)) as [?|_]; [done|].
        cbn in Hr6. rewrite Hr6, !marks_marked, Hm5 by done.
        split; [by rewrite <- !app_assoc|]. split; [by left|].
        rewrite Hc6. by unfold journal_status. }
    destruct Hr6 as (w7 & E7 & Hc7 & Hm7). rewrite bind_unfold, E7.
    cbn in Hc7, Hm7.
    rewrite !marks_marked, Hm5 in Hm7 by done.
    rstep.
    match goal with |- context [notify env ?b ?ev ?w0] =>
      destruct (run_plain_notify b ev w0) as (w8 & -> & Hc8 & Hm8) end.
    cbn [negb]. repeat rstep.
    eexists _, _. split; [done|]. right. exists n. right.
    destruct (decide (n = 0%nat)) as [?|_]; [done|].
    rewrite Hm8, Hm7.
    split; [by rewrite <- !app_assoc|]. split; [by right|].
    rewrite Hc8, Hc7. by unfold journal_status.
Qed.

End RecoveryFacts.

Section MarksFacts.
Import recovery.

Lemma status_history_marks tr :
  status_history tr = status_history (marks tr).
Proof.
  induction tr as [|e tr IH]; [done|].
  change (e :: tr) with ([e] ++ tr).
  rewrite marks_app, !status_history_app, IH. f_equal.
  unfold marks. rewrite filter_cons.
  destruct (decide (marked e = true)) as [He|He]; [done|].
  destruct e; try done.
Qed.

Lemma status_history_replicate n :
  status_history (replicate n failure_log) = [].
Proof. unfold status_history. induction n as [|n IH]; [done|]. simpl. done. Qed.

End MarksFacts.

(** ** Runs of the code on the scenarios, and the statements about the
    file system and the status graph *)

Section Runs.
Import scenario.

(** Claim C1, on a failing input.  A plan of two sequential phases whose
    first action fails under [abort_all]: [Execute] returns nil, the action
    of the second phase is started all the same, and the status is
    completed, never failed. *)
Theorem Execute_ignores_abort_all :
  let run := orchestrator.Execute quiet_env no_schedule abort_all_plan
               "battery at 15%" (init_world orchestrator.idle_State) in
  (orchestrator.OnError <$> (orchestrator.phases abort_all_plan
                             ≫= orchestrator.Actions))
  = ["abort_all"; "continue"]
  ∧ run.1 = Ret None
  ∧ (orchestrator.Success <$> orchestrator.CompletedActions (cur run.2))
    = [false; true]
  ∧ started (trace run.2) = [(0, 0); (1, 0)]
  ∧ orchestrator.Status (cur run.2) = "completed"
  ∧ status_history (trace run.2) = ["in_progress"; "completed"].
Proof. vm_compute. done. Qed.

(** Claim C2 fails: [Save] on a journal in progress makes the directory
    and then writes the state file itself, in place; no temporary file is
    created, synced or renamed. *)
Lemma Save_overwrites_state_file :
  let run := state.Save quiet_env (init_world started_journal) in
  run.1 = Ret None
  ∧ trace run.2
    = [EMkdirAll "/var/lib/proxmox-guardian" mode_0750;
       EWriteFile state_path (state.mstate started_journal) mode_0600]
  ∧ ¬ atomic_replace state_path (trace run.2).
Proof.
  split; [by vm_compute|]. split; [by vm_compute|].
  intros [_ Hnot]. apply (Hnot (state.mstate started_journal) mode_0600).
  apply list_elem_of_further, list_elem_of_here.
Qed.

Lemma not_atomic_short {D} (path : string) (tr : list (Effect D)) :
  (length tr < 3)%nat → ¬ atomic_replace path tr.
Proof.
  intros Hlen [(dir & pattern & tmp & Hsub) _].
  apply sublist_length in Hsub. simpl in Hsub. lia.
Qed.

(** Claim C2, as amended.  Every save of the journal ([Manager.Save] and
    the orchestrator's [saveState]) hands the whole session state to one
    [os.WriteFile] on the state file itself, with mode 0600; [Manager.Save]
    first makes the directory with mode 0750 and stops there when that
    fails.  No temporary file, sync or rename is involved. *)
Theorem journal_saved_in_place :
  (∀ (env : Env) (w : World state.Manager state.State),
     let path := state.filePath (cur w) in
     let n := String.length "/state.json" in
     let mk := EMkdirAll (String.substring 0 (String.length path - n) path)
                 mode_0750 in
     let wr := EWriteFile path (state.mstate (cur w)) mode_0600 in
     (n ≤ String.length path)%nat →
     ∃ err w' new,
       state.Save env w = (Ret err, w')
       ∧ cur w' = cur w
       ∧ trace w' = trace w ++ new
       ∧ (new = [mk] ∨ new = [mk; wr])
       ∧ (err = None → new = [mk; wr])
       ∧ ¬ atomic_replace path new)
  ∧ (∀ (env : Env) (o : orchestrator.Orchestrator)
       (w : World orchestrator.State orchestrator.State),
       let wr := EWriteFile (orchestrator.stateFile o) (cur w) mode_0600 in
       orchestrator.saveState env o w
       = (Ret (os_err env (steps w)),
          {| cur := cur w; steps := S (steps w); trace := trace w ++ [wr] |})
       ∧ ¬ atomic_replace (orchestrator.stateFile o) [wr]).
Proof.
  split.
  - intros env w path n mk wr Hlen. unfold state.Save.
    rewrite bind_unfold. cbn [get fst snd].
    fold path. fold n.
    destruct (String.length path <? n)%nat eqn:E; [apply Nat.ltb_lt in E; lia|].
    unfold os_call. repeat (rewrite bind_unfold; cbn [emit ask ret fst snd cur steps trace]).
    fold mk.
    destruct (os_err env (steps w)) as [e|].
    + exists (Some ("creating state directory: " +:+ e)), 
        {| cur := cur w; steps := S (steps w); trace := trace w ++ [mk] |}, [mk].
      repeat split; try done; [by left | by apply not_atomic_short; simpl; lia].
    + repeat (rewrite bind_unfold; cbn [emit ask ret fst snd cur steps trace]).
      fold wr.
      destruct (os_err env (S (steps w))) as [e|]; eexists _, _, [mk; wr];
        cbn [ret]; (split; [done|]); cbn [cur trace];
        rewrite <- app_assoc;
        (repeat split; try done; [by right | by apply not_atomic_short; simpl; lia]).
  - intros env o w wr. split; [done|]. apply not_atomic_short. simpl. lia.
Qed.

(** Claim C3 fails: a second [Execute] on an orchestrator whose session
    is completed moves the status from completed straight to in_progress,
    and [Clear] on a journal in progress moves it from in_progress to
    idle; neither is an edge of the graph. *)
Lemma status_leaves_the_graph :
  let first := orchestrator.Execute quiet_env no_schedule empty_plan "first"
                 (init_world orchestrator.idle_State) in
  let second := orchestrator.Execute quiet_env no_schedule empty_plan "second"
                  first.2 in
  let cleared := state.do_Clear quiet_env (init_world started_journal) in
  (orchestrator.Status (cur first.2) = "completed"
   ∧ status_history (trace second.2)
     = ["in_progress"; "completed"; "in_progress"; "completed"]
   ∧ follows_dag "idle" (status_history (trace second.2)) = false)
  ∧ (state.status (state.mstate started_journal) = state.StatusInProgress
     ∧ status_history (trace cleared.2) = ["idle"]
     ∧ follows_dag "in_progress" (status_history (trace cleared.2)) = false).
Proof. vm_compute. done. Qed.

Lemma recovery_Execute_history (env : Env)
    (recovers : nat → nat → executor.outcome) (m : recovery.Manager)
    (w : World state.Manager state.State) :
  ∃ r w' hist,
    recovery.Execute env recovers m w = (r, w')
    ∧ status_history (trace w') = status_history (trace w) ++ hist
    ∧ (if recovery.Enabled (recovery.config m) && state.NeedsRecovery (cur w)
       then hist = ["recovering"]
            ∨ hist = ["recovering"; "idle"; "idle"]
            ∨ hist = ["recovering"; "failed"]
       else hist = [] ∧ w' = w).
Proof.
  destruct (recovery_Execute_cases env recovers m w) as (r & w' & E & Hcases).
  exists r, w'.
  destruct (recovery.Enabled (recovery.config m)); cbn [negb andb] in *.
  2:{ exists []. destruct Hcases as [_ ->]. by rewrite app_nil_r. }
  destruct (state.NeedsRecovery (cur w)); cbn [negb] in *.
  2:{ exists []. destruct Hcases as [_ ->]. by rewrite app_nil_r. }
  rewrite (status_history_marks (trace w')), (status_history_marks (trace w)).
  destruct Hcases as [(Hm & _ & _) | (k & [(Hm & _ & _) | (Hm & _ & _)])];
    rewrite Hm, !status_history_app, ?status_history_replicate.
  - exists ["recovering"]. auto.
  - exists ["recovering"]. auto.
  - destruct (decide (k = 0%nat)).
    + exists ["recovering"; "idle"; "idle"]. rewrite <- app_assoc. auto.
    + exists ["recovering"; "failed"]. rewrite <- app_assoc. auto.
Qed.

Lemma opening_write_follows (s : string) (rest : list string) :
  follows_dag "in_progress" rest = true →
  follows_dag s ("in_progress" :: rest) = true ↔ s = "idle" ∨ s = "in_progress".
Proof.
  intros Hrest. cbn [follows_dag]. rewrite Hrest, andb_true_r. unfold dag_edge.
  change (String.eqb "in_progress" "in_progress") with true.
  change (String.eqb "in_progress" "completed") with false.
  change (String.eqb "in_progress" "failed") with false.
  change (String.eqb "in_progress" "recovering") with false.
  change (String.eqb "in_progress" "idle") with false.
  destruct (String.eqb_spec s "idle") as [->|Hidle].
  { split; [by left | done]. }
  destruct (String.eqb_spec s "in_progress") as [->|Hprog].
  { split; [by right | done]. }
  rewrite !andb_false_r. cbn. intuition congruence.
Qed.

Lemma Clear_follows (st : state.Status) :
  follows_dag (state.Status_string st) ["idle"] = true
  ↔ st = state.StatusIdle ∨ st = state.StatusRecovering.
Proof. destruct st; cbn; intuition congruence. Qed.

(** Claim C3, as amended.  [Orchestrator.Execute] writes in_progress
    whatever the status was, then completed when it runs to its end, and
    never failed; [Orchestrator.Recover] writes recovering then idle, from
    in_progress or completed only, and nothing otherwise; [Execute] of the
    recovery manager writes recovering, from in_progress or failed only and
    when enabled, followed by idle or by failed when the pass runs to its
    end; [Clear] writes idle whatever the status was.  The history of
    [Execute] follows the status graph exactly when it starts from idle (or
    from in_progress, which it writes again), that of [Clear] exactly when
    the status was recovering or idle already, and those of the two recovery
    operations always. *)
Theorem status_writes_of_core_operations :
  (∀ env sched o trigger (w : World orchestrator.State orchestrator.State),
     ∃ r w' hist,
       orchestrator.Execute env sched o trigger w = (r, w')
       ∧ status_history (trace w') = status_history (trace w) ++ hist
       ∧ hist = (if returned_nil r then ["in_progress"; "completed"]
                 else ["in_progress"])
       ∧ (follows_dag (orchestrator.Status (cur w)) hist = true
          ↔ orchestrator.Status (cur w) = "idle"
            ∨ orchestrator.Status (cur w) = "in_progress"))
  ∧ (∀ env o (w : World orchestrator.State orchestrator.State),
       ∃ r w' hist,
         orchestrator.Recover env o w = (r, w')
         ∧ status_history (trace w') = status_history (trace w) ++ hist
         ∧ hist = (if bool_decide (orchestrator.Status (cur w) = "in_progress")
                      || bool_decide (orchestrator.Status (cur w) = "completed")
                   then ["recovering"; "idle"] else [])
         ∧ follows_dag (orchestrator.Status (cur w)) hist = true)
  ∧ (∀ env recovers m (w : World state.Manager state.State),
       ∃ r w' hist,
         recovery.Execute env recovers m w = (r, w')
         ∧ status_history (trace w') = status_history (trace w) ++ hist
         ∧ (if recovery.Enabled (recovery.config m)
               && state.NeedsRecovery (cur w)
            then hist = ["recovering"]
                 ∨ hist = ["recovering"; "idle"; "idle"]
                 ∨ hist = ["recovering"; "failed"]
            else hist = [])
         ∧ follows_dag
             (state.Status_string (recovery.journal_status (cur w))) hist
           = true)
  ∧ (∀ env (w : World state.Manager state.State),
       status_history (trace (state.do_Clear env w).2)
       = status_history (trace w) ++ ["idle"]
       ∧ recovery.journal_status (cur (state.do_Clear env w).2)
         = state.StatusIdle
       ∧ (follows_dag
            (state.Status_string (recovery.journal_status (cur w))) ["idle"]
          = true
          ↔ recovery.journal_status (cur w) = state.StatusIdle
            ∨ recovery.journal_status (cur w) = state.StatusRecovering)).
Proof.
  split; [|split; [|split]].
  - intros env sched o trigger w.
    destruct (Execute_status env sched o trigger w) as (r & w' & E & Hh & _).
    exists r, w'. eexists. split; [done|]. split; [done|]. split; [done|].
    by destruct (returned_nil r); apply opening_write_follows.
  - intros env o w.
    destruct (Recover_status env o w) as (r & w' & E & Hcases).
    exists r, w'.
    destruct (bool_decide (orchestrator.Status (cur w) = "in_progress")) eqn:Ei;
      [|destruct (bool_decide (orchestrator.Status (cur w) = "completed")) eqn:Ec];
      cbn [orb] in *.
    + destruct Hcases as (_ & Hh & _). eexists. split; [done|]. split; [done|].
      split; [done|]. apply bool_decide_eq_true_1 in Ei. by rewrite Ei.
    + destruct Hcases as (_ & Hh & _). eexists. split; [done|]. split; [done|].
      split; [done|]. apply bool_decide_eq_true_1 in Ec. by rewrite Ec.
    + destruct Hcases as (_ & ->). exists []. by rewrite app_nil_r.
  - intros env recovers m w.
    destruct (recovery_Execute_history env recovers m w)
      as (r & w' & hist & E & Hh & Hcases).
    exists r, w', hist. split; [done|]. split; [done|].
    destruct (recovery.Enabled (recovery.config m)); cbn [andb] in *.
    2:{ by destruct Hcases as [-> _]. }
    unfold state.NeedsRecovery, recovery.journal_status in *.
    destruct (state.status (state.mstate (cur w)));
      cbn in Hcases |- *;
      first [ by destruct Hcases as [-> _]
            | split; [done|]; by destruct Hcases as [->|[->| ->]] ].
  - intros env w. split; [|split; [done|]].
    + cbn. rewrite status_history_app. done.
    + apply Clear_follows.
Qed.

(** Claim C7 fails: after ten unread battery events the channel is full;
    the next two samples are online then on battery, and no PowerLost event
    reaches the channel. *)
Lemma PowerLost_dropped_on_full_channel :
  let run := ups.Start (ups.NewMonitor levels) unread_outage in
  let previous := reading "OL" 100 in
  let current := reading "OB" 5 in
  let after := ups.checkEvents run.1 (λ _, 0) current run.2 in
  run.2 = Some previous
  ∧ ups.IsOnline previous = true
  ∧ ups.IsOnBattery current = true
  ∧ length (ups.eventCh run.1) = ups.chan_cap
  ∧ length (filter ups.is_PowerLost (ups.published run.1 after)) = 0%nat
  ∧ filter ups.is_PowerLost
      (ups.eventCh (ups.Start (ups.NewMonitor levels)
                      (unread_outage ++ [unread_tick "OB" 5])).1)
    = [].
Proof. vm_compute. done. Qed.

(** The mock of the test suite: two failures, then success, three attempts. *)
Lemma ExecuteWithRetry_succeeds_after_M_failures_witness :
  ∃ res out,
    executor.ExecuteWithRetry (fails_then_succeeds 2) (λ _, false)
      "context canceled" (Some three_attempts) = Ret out
    ∧ executor.returned out = (Some res, None)
    ∧ res = executor.set_Retries 2 (ok_result "success")
    ∧ executor.Success res = true
    ∧ executor.Retries res = 2
    ∧ executor.calls out = 3%nat.
Proof.
  apply (ExecuteWithRetry_succeeds_after_M_failures (fails_then_succeeds 2)
           (λ _, false) "context canceled" three_attempts 2 (ok_result "success")).
  - reflexivity.
  - intros i Hi. destruct i as [|[|i]]; [reflexivity | reflexivity | lia].
  - reflexivity.
  - reflexivity.
  - reflexivity.
  - reflexivity.
Defined.

Lemma ExecuteWithRetry_exhausted_or_single_witness :
  ∃ out res,
    executor.ExecuteWithRetry always_fails (λ _, false) "context canceled"
      (Some three_attempts) = Ret out
    ∧ executor.calls out = 3%nat
    ∧ executor.returned out = (Some res, None)
    ∧ executor.Retries res = 3
    ∧ executor.Success res = false
    ∧ executor.Error res = "simulated failure".
Proof.
  destruct (proj1 (ExecuteWithRetry_exhausted_or_single always_fails (λ _, false)
                     "context canceled") three_attempts)
    as (out & Hrun & Hcalls & Herr & res & Hres & Hretries & Hsucc & _ & Herror & _).
  - vm_compute. discriminate.
  - intros i _. reflexivity.
  - intros i _. reflexivity.
  - exists out, res. split; [exact Hrun|]. split; [exact Hcalls|].
    split; [|split; [exact Hretries|split; [exact Hsucc|exact Herror]]].
    destruct (executor.returned out) as [a b]. cbn in Hres, Herr. by subst.
Defined.

(** Claim C6 fails: after ten unread battery events the channel is full,
    and a sample on battery whose charge is exactly the critical threshold
    puts nothing on it. *)
Lemma CriticalBattery_dropped_on_full_channel :
  let run := ups.Start (ups.NewMonitor levels) (replicate 10 (unread_tick "OB" 5)) in
  let current := reading "OB" 20 in
  let after := ups.checkEvents run.1 (λ _, 0) current run.2 in
  ups.IsOnBattery current = true
  ∧ ups.BatteryCharge current = ups.Critical levels
  ∧ ups.Emergency levels < ups.BatteryCharge current
  ∧ length (ups.eventCh run.1) = 10%nat
  ∧ ups.published run.1 after = []
  ∧ ups.eventCh after = ups.eventCh run.1.
Proof. vm_compute. done. Qed.

Lemma checkEvents_battery_level_unless_full_witness :
  ∃ e,
    filter (λ e, ups.is_battery_level (ups.Type_ e) = true)
      (ups.published (ups.NewMonitor levels)
         (ups.checkEvents (ups.NewMonitor levels) (λ _, 0) (reading "OB" 20)
            (Some (reading "OL" 100))))
    = [e]
    ∧ ups.Type_ e = ups.EventCriticalBattery.
Proof.
  destruct (checkEvents_battery_level_unless_full (ups.NewMonitor levels) (λ _, 0)
              (reading "OB" 20) (Some (reading "OL" 100)) eq_refl)
    as (_ & _ & _ & _ & Hcritical & _).
  apply Hcritical.
  - reflexivity.
  - reflexivity.
  - simpl. lia.
Defined.

Lemma first_sample_events_witness :
  let m := (ups.Start (ups.NewMonitor levels)
              ([failed_tick] ++ [unread_tick "OB" 8])).1 in
  ups.eventCh m = ups.battery_requests levels (λ _, 0) (reading "OB" 8)
  ∧ (∀ e, e ∈ ups.eventCh m →
       ups.Type_ e ≠ ups.EventPowerLost ∧ ups.Type_ e ≠ ups.EventPowerRestored)
  ∧ (∀ k, ups.IsOnBattery (reading "OB" 8) = true →
       ups.battery_level levels 8 = Some k →
       ∃ e, ups.eventCh m = [e] ∧ ups.Type_ e = k
            ∧ ups.ev_Status e = reading "OB" 8).
Proof.
  apply (first_sample_events levels [failed_tick] (unread_tick "OB" 8)
           (reading "OB" 8)).
  - repeat constructor.
  - reflexivity.
Defined.

End Runs.

(** * Further properties *)

(** ** The retry wrapper: cancellation, bounds and back-off *)

Section RetryMore.
Import executor.

Section Loop.
Variable exec : nat → outcome.
Variable done : nat → bool.
Variable ctxErr : error.
Variable retry : RetryConfig.

(** As [retry_loop_failures], with the delays the loop waited for. *)
Lemma retry_loop_delays (k : nat) : ∀ (left : nat) (attempt : Z) (j : nat) last slept,
  1 ≤ attempt →
  attempt + Z.of_nat k ≤ Attempts retry →
  (∀ i, (i < k)%nat → failing (exec (Z.to_nat (attempt - 1) + i)%nat)) →
  (∀ i, (i < k)%nat → done (length slept + i)%nat = false) →
  ∃ last',
    retry_loop exec done ctxErr retry (k + left) attempt (backoff_delay retry j) last slept
    = retry_loop exec done ctxErr retry left (attempt + Z.of_nat k)
        (backoff_delay retry (j + k)) last'
        (slept ++ (backoff_delay retry <$> seq j k)).
Proof.
  induction k as [|k IH]; intros left attempt j last slept Hge Hle Hfail Hdone.
  - exists last. by rewrite Z.add_0_r, Nat.add_0_r, app_nil_r.
  - simpl. rewrite failing_succeeded.
    2:{ specialize (Hfail 0%nat). rewrite Nat.add_0_r in Hfail. apply Hfail. lia. }
    destruct (attempt <? Attempts retry) eqn:E; [|apply Z.ltb_ge in E; lia].
    specialize (Hdone 0%nat) as Hd0. rewrite Nat.add_0_r in Hd0. rewrite Hd0 by lia.
    assert ((if String.eqb (Backoff retry) "exponential"
             then wrap64 (backoff_delay retry j * 2) else backoff_delay retry j)
            = backoff_delay retry (S j)) as ->.
    { unfold backoff_delay. by destruct (String.eqb _ _). }
    edestruct (IH left (attempt + 1) (S j)
                 (exec (Z.to_nat (attempt - 1))) (slept ++ [backoff_delay retry j]))
      as (last' & Heq).
    + lia.
    + lia.
    + intros i Hi. replace (Z.to_nat (attempt + 1 - 1) + i)%nat
        with (Z.to_nat (attempt - 1) + S i)%nat by lia. apply Hfail. lia.
    + intros i Hi. rewrite length_app. simpl.
      replace (length slept + 1 + i)%nat with (length slept + S i)%nat by lia.
      apply Hdone. lia.
    + exists last'. rewrite Heq.
      replace (attempt + 1 + Z.of_nat k) with (attempt + Z.of_nat (S k)) by lia.
      replace (S j + k)%nat with (j + S k)%nat by lia.
      by rewrite <- app_assoc.
Qed.

(** Whatever the executor and the context answer, the loop calls the
    executor at least once more when an iteration is left, never past
    [Attempts], and waits only between two attempts. *)
Lemma retry_loop_bounds (left : nat) : ∀ (attempt delay : Z) last slept out,
  1 ≤ attempt →
  attempt - 1 + Z.of_nat left = Attempts retry →
  Z.of_nat (length slept) ≤ attempt - 1 →
  Z.of_nat (length slept) ≤ Attempts retry - 1 →
  retry_loop exec done ctxErr retry left attempt delay last slept = Ret out →
  attempt - 1 ≤ Z.of_nat (calls out) ≤ Attempts retry
  ∧ ((0 < left)%nat → attempt ≤ Z.of_nat (calls out))
  ∧ Z.of_nat (length (waits out)) ≤ Z.of_nat (calls out)
  ∧ Z.of_nat (length (waits out)) ≤ Attempts retry - 1.
Proof.
  induction left as [|left IH]; intros attempt delay last slept out Hge Hsum Hsl Hsl' Hrun.
  - simpl in Hrun. injection Hrun as <-. simpl. lia.
  - simpl in Hrun. destruct (succeeded _) as [[|]|]; [| |done].
    + injection Hrun as <-. simpl. lia.
    + destruct (attempt <? Attempts retry) eqn:E.
      * apply Z.ltb_lt in E. destruct (done _).
        { injection Hrun as <-. simpl. rewrite length_app. simpl. lia. }
        apply IH in Hrun; [lia|lia|lia|..]; rewrite length_app; simpl; lia.
      * apply Z.ltb_ge in E. apply IH in Hrun; lia.
Qed.

(** The loop only panics on an answer that is nil twice. *)
Lemma retry_loop_panics (left : nat) : ∀ (attempt delay : Z) last slept,
  1 ≤ attempt →
  attempt - 1 + Z.of_nat left = Attempts retry →
  retry_loop exec done ctxErr retry left attempt delay last slept = Panic →
  ∃ i, attempt - 1 ≤ Z.of_nat i < Attempts retry ∧ exec i = (None, None).
Proof.
  induction left as [|left IH]; intros attempt delay last slept Hge Hsum Hrun.
  - done.
  - simpl in Hrun. destruct (succeeded _) as [[|]|] eqn:Hs; [done| |].
    + destruct (attempt <? Attempts retry) eqn:E.
      * destruct (done _); [done|].
        apply IH in Hrun as (i & Hi & Hnil); [|lia..]. exists i. split; [lia|done].
      * apply IH in Hrun as (i & Hi & Hnil); [|lia..]. exists i. split; [lia|done].
    + exists (Z.to_nat (attempt - 1)). split; [lia|].
      destruct (exec _) as [[r|] [e|]]; done.
Qed.

End Loop.

(** Property X1.  A wait cut short by the cancellation of the context ends the retries:
    the wrapper returns a nil result and [ctx.Err()], without another
    attempt. *)
Theorem ExecuteWithRetry_cancelled_during_wait
    (exec : nat → outcome) (done : nat → bool) (ctxErr : error)
    (rc : RetryConfig) (k : nat) :
  Z.of_nat k + 1 < Attempts rc →
  (∀ i, (i ≤ k)%nat → failing (exec i)) →
  (∀ i, (i < k)%nat → done i = false) →
  done k = true →
  ∃ out,
    ExecuteWithRetry exec done ctxErr (Some rc) = Ret out
    ∧ returned out = (None, Some ctxErr)
    ∧ calls out = S k
    ∧ waits out = backoff_delay rc <$> seq 0 (S k).
Proof.
  intros Hk Hfail Hdone Hcancel. unfold ExecuteWithRetry.
  destruct (Attempts rc <=? 1) eqn:E; [apply Z.leb_le in E; lia|].
  destruct (retry_loop_delays exec done ctxErr rc k
              (Z.to_nat (Attempts rc) - k) 1 0 (None, None) [])
    as (last' & Heq).
  - lia.
  - lia.
  - intros i Hi. simpl. apply Hfail. lia.
  - intros i Hi. simpl. by apply Hdone.
  - replace (k + (Z.to_nat (Attempts rc) - k))%nat with (Z.to_nat (Attempts rc)) in Heq by lia.
    assert (backoff_delay rc 0 = Delay rc) as H0.
    { unfold backoff_delay. by destruct (String.eqb _ _). }
    rewrite H0 in Heq. rewrite Heq.
    destruct (Z.to_nat (Attempts rc) - k)%nat as [|left] eqn:El; [lia|].
    cbn [retry_loop app]. replace (Z.to_nat (1 + Z.of_nat k - 1)) with k by lia.
    rewrite failing_succeeded by (apply Hfail; lia).
    destruct (_ <? _) eqn:E'; [|apply Z.ltb_ge in E'; lia].
    rewrite length_fmap, length_seq, Hcancel.
    eexists. split; [done|]. cbn [returned calls waits]. split; [done|]. split; [lia|].
    by rewrite seq_S, fmap_app.
Qed.

(** Property X2.  Whatever the executor and the context answer, a call of the wrapper
    runs the executor at least once and at most [Attempts] times (once
    without a policy), waits at most once per call and never after the last
    attempt; it only fails to return when the executor hands back a nil
    result together with a nil error. *)
Theorem ExecuteWithRetry_bounds
    (exec : nat → outcome) (done : nat → bool) (ctxErr : error)
    (retry : option RetryConfig) :
  let N := match retry with Some rc => Z.max 1 (Attempts rc) | None => 1 end in
  match ExecuteWithRetry exec done ctxErr retry with
  | Ret out =>
      1 ≤ Z.of_nat (calls out) ≤ N
      ∧ Z.of_nat (length (waits out)) ≤ Z.of_nat (calls out)
      ∧ Z.of_nat (length (waits out)) ≤ N - 1
  | Panic => ∃ i, Z.of_nat i < N ∧ exec i = (None, None)
  end.
Proof.
  unfold ExecuteWithRetry. destruct retry as [rc|]; [|simpl; lia].
  destruct (Attempts rc <=? 1) eqn:E.
  - apply Z.leb_le in E. simpl. lia.
  - apply Z.leb_gt in E.
    destruct (retry_loop _ _ _ _ _ _ _ _ _) as [out|] eqn:Hrun.
    + apply retry_loop_bounds in Hrun; simpl; try lia.
    + apply retry_loop_panics in Hrun as (i & Hi & Hnil); [|lia..].
      exists i. split; [lia|done].
Qed.

(** Property X3.  When every one of the [Attempts >= 2] attempts fails and no wait is
    cancelled, the wrapper waits [Attempts - 1] times: for [Delay] each time,
    or, with the exponential back-off, for [Delay], [2 Delay], [4 Delay], ...
    as long as the doubling stays within a [time.Duration]. *)
Theorem ExecuteWithRetry_backoff
    (exec : nat → outcome) (done : nat → bool) (ctxErr : error) (rc : RetryConfig) :
  2 ≤ Attempts rc →
  (∀ i, (i < Z.to_nat (Attempts rc))%nat → failing (exec i)) →
  (∀ i, (i < Z.to_nat (Attempts rc) - 1)%nat → done i = false) →
  ∃ out,
    ExecuteWithRetry exec done ctxErr (Some rc) = Ret out
    ∧ length (waits out) = (Z.to_nat (Attempts rc) - 1)%nat
    ∧ (∀ i d, waits out !! i = Some d → d = backoff_delay rc i)
    ∧ (Backoff rc ≠ "exponential" → ∀ d, d ∈ waits out → d = Delay rc)
    ∧ (Backoff rc = "exponential" →
       0 ≤ Delay rc →
       Delay rc * 2 ^ (Attempts rc - 2) < 2 ^ 63 →
       ∀ i d, waits out !! i = Some d → d = Delay rc * 2 ^ Z.of_nat i).
Proof.
  intros HN Hfail Hdone. unfold ExecuteWithRetry.
  destruct (Attempts rc <=? 1) eqn:E; [apply Z.leb_le in E; lia|].
  set (N := Z.to_nat (Attempts rc)) in *.
  destruct (retry_loop_delays exec done ctxErr rc (N - 1) 1 1 0 (None, None) [])
    as (last' & Heq).
  - lia.
  - lia.
  - intros i Hi. simpl. apply Hfail. lia.
  - intros i Hi. simpl. by apply Hdone.
  - replace (N - 1 + 1)%nat with N in Heq by lia.
    assert (backoff_delay rc 0 = Delay rc) as H0.
    { unfold backoff_delay. by destruct (String.eqb _ _). }
    rewrite H0 in Heq. rewrite Heq.
    simpl. replace (Z.to_nat (1 + Z.of_nat (N - 1) - 1)) with (N - 1)%nat by lia.
    rewrite failing_succeeded by (apply Hfail; lia).
    destruct (_ <? _) eqn:E'; [apply Z.ltb_lt in E'; lia|].
    eexists. split; [done|]. simpl.
    assert (∀ i d, (backoff_delay rc <$> seq 0 (N - 1)) !! i = Some d →
                   (i < N - 1)%nat ∧ d = backoff_delay rc i) as Hnth.
    { intros i d Hi. rewrite list_lookup_fmap in Hi.
      destruct (seq 0 (N - 1) !! i) as [j|] eqn:Hj; [|done].
      apply lookup_seq in Hj as [-> ?]. simpl in Hi. injection Hi as <-. done. }
    split; [by rewrite length_fmap, length_seq|].
    split; [intros i d Hi; by apply Hnth in Hi as [_ ->]|].
    split.
    + intros Hlin d Hd. apply list_elem_of_lookup in Hd as [i Hi].
      apply Hnth in Hi as [_ ->]. unfold backoff_delay.
      destruct (String.eqb_spec (Backoff rc) "exponential"); done.
    + intros Hexp Hpos Hfit i d Hi. apply Hnth in Hi as [Hi ->].
      unfold backoff_delay. rewrite Hexp. simpl.
      assert (Z.of_nat i ≤ Attempts rc - 2) as Hi' by lia.
      clear -Hi' Hpos Hfit HN. revert Hi'.
      induction i as [|i IH]; intros Hi'.
      * simpl. lia.
      * rewrite Nat.iter_succ, IH by lia.
        assert (Delay rc * 2 ^ Z.of_nat (S i) ≤ Delay rc * 2 ^ (Attempts rc - 2)).
        { apply Z.mul_le_mono_nonneg_l; [done|].
          apply Z.pow_le_mono_r; lia. }
        replace (Delay rc * 2 ^ Z.of_nat i * 2) with (Delay rc * 2 ^ Z.of_nat (S i)).
        2:{ rewrite Nat2Z.inj_succ, Z.pow_succ_r by lia. lia. }
        unfold wrap64.
        assert (0 ≤ Delay rc * 2 ^ Z.of_nat (S i)).
        { apply Z.mul_nonneg_nonneg; [done|]. apply Z.pow_nonneg. lia. }
        rewrite Z.mod_small by lia. lia.
Qed.

End RetryMore.

(** ** The executors *)

Section ExecutorsFacts.
Import executor.

Lemma string_length_app (s1 s2 : string) :
  String.length (s1 +:+ s2) = (String.length s1 + String.length s2)%nat.
Proof. induction s1 as [|a s1 IH]; simpl; [done|]. by rewrite IH. Qed.

Lemma length_substring_0 (n : nat) : ∀ s : string,
  String.length (String.substring 0 n s) = Nat.min n (String.length s).
Proof.
  induction n as [|n IH]; intros [|a s]; simpl; try done. by rewrite IH.
Qed.

Lemma substring_0_append (n : nat) : ∀ s : string,
  ∃ tail, s = String.substring 0 n s +:+ tail.
Proof.
  induction n as [|n IH]; intros [|a s]; simpl.
  - by exists "".
  - by exists (String a s).
  - by exists "".
  - destruct (IH s) as [tail Ht]. exists tail.
    change (String a s = String a (String.substring 0 n s +:+ tail)). by f_equal.
Qed.

(** Property X4.  A description never carries more than 50 bytes of the command: a
    command of at most 50 bytes is kept as it is, a longer one is cut to its
    first 47 bytes followed by three dots. *)
Theorem truncateCmd_length (cmd : string) :
  String.length (truncateCmd cmd) = Nat.min (String.length cmd) 50
  ∧ ((String.length cmd ≤ 50)%nat → truncateCmd cmd = cmd)
  ∧ ((50 < String.length cmd)%nat →
     ∃ head tail, cmd = head +:+ tail
                  ∧ String.length head = 47%nat
                  ∧ truncateCmd cmd = head +:+ "...").
Proof.
  unfold truncateCmd. destruct (50 <? String.length cmd)%nat eqn:E.
  - apply Nat.ltb_lt in E. split; [|split; [lia|]].
    + rewrite string_length_app, length_substring_0.
      change (String.length "...") with 3%nat. lia.
    + intros _. destruct (substring_0_append 47 cmd) as [tail Ht].
      exists (String.substring 0 47 cmd), tail. split; [done|].
      split; [|done]. rewrite length_substring_0. lia.
  - apply Nat.ltb_ge in E. split; [lia|]. split; [done|lia].
Qed.

Section LocalFacts.
Variable sh : string → string → Z → process.

Lemma Local_Execute_result l :
  ∃ r, (Local_Execute sh l).1 = Some r
       ∧ (Success r = true ↔ (Local_Execute sh l).2 = None)
       ∧ (Success r = true ↔
            deadline_exceeded (sh (Shell l) (l_Command l) (l_Timeout l)) = false
            ∧ run_err (sh (Shell l) (l_Command l) (l_Timeout l)) = None)
       ∧ Retries r = 0.
Proof.
  unfold Local_Execute.
  destruct (deadline_exceeded _); [|destruct (run_err _)];
    eexists; (split; [done|]); simpl; repeat split; try done; by intros [? ?].
Qed.

End LocalFacts.

(** Property X5.  The local executor keeps the contract of [Execute] and [Recover]: the
    result is never nil, it reports success exactly when the error is nil,
    that is when the command ended without error within its deadline, and
    its [Retries] is zero.  An empty recovery command succeeds whatever the
    shell would do; a recovery command is run by /bin/sh under the
    executor's timeout. *)
Theorem Local_executor_contract (sh : string → string → Z → process)
    (l : LocalExecutor) :
  (∃ r, (Local_Execute sh l).1 = Some r
        ∧ (Success r = true ↔ (Local_Execute sh l).2 = None)
        ∧ (Success r = true ↔
             deadline_exceeded (sh (Shell l) (l_Command l) (l_Timeout l)) = false
             ∧ run_err (sh (Shell l) (l_Command l) (l_Timeout l)) = None)
        ∧ Retries r = 0)
  ∧ (∃ r, (Local_Recover sh l).1 = Some r
          ∧ (Success r = true ↔ (Local_Recover sh l).2 = None)
          ∧ (Success r = true ↔
               l_Recovery l = ""
               ∨ (deadline_exceeded (sh "/bin/sh" (l_Recovery l) (l_Timeout l)) = false
                  ∧ run_err (sh "/bin/sh" (l_Recovery l) (l_Timeout l)) = None))
          ∧ Retries r = 0).
Proof.
  split; [apply Local_Execute_result|].
  unfold Local_Recover. destruct (nonempty (l_Recovery l)) eqn:E; simpl.
  - apply nonempty_spec in E.
    destruct (Local_Execute_result sh
                (with_Timeout (l_Timeout l) (NewLocalExecutor (l_Recovery l))))
      as (r & Hr & Herr & Hok & Hret).
    exists r. split; [done|]. split; [done|]. split; [|done].
    rewrite Hok. simpl. split; [intros H; by right | by intros [He|H]].
  - eexists. split; [done|]. simpl. repeat split; try done.
    intros _. left. unfold nonempty in E.
    by destruct (String.eqb_spec (l_Recovery l) "").
Qed.

(** Property X6.  The health check of the local executor passes without a check
    command; otherwise it runs the check command with /bin/sh under a
    deadline of ten seconds and never returns an error: it passes when the
    command succeeds and "success" is expected, or when it fails (or times
    out) and anything else is expected. *)
Theorem Local_Healthcheck_expectation (sh : string → string → Z → process)
    (l : LocalExecutor) :
  match l_Healthcheck l with
  | None => Local_Healthcheck sh l = Ret (true, None)
  | Some hc =>
      let p := sh "/bin/sh" (hc_Command hc) (10 * 1000000000) in
      let succeeded := negb (deadline_exceeded p) && bool_decide (run_err p = None) in
      Local_Healthcheck sh l
      = Ret (if String.eqb (Expect hc) "success" then succeeded else negb succeeded,
             None)
  end.
Proof.
  unfold Local_Healthcheck. destruct (l_Healthcheck l) as [hc|]; [|done].
  unfold Local_Execute. simpl.
  change (10 * second) with (10 * 1000000000).
  destruct (deadline_exceeded _); simpl; [by destruct (String.eqb _ _)|].
  destruct (run_err _); simpl; by destruct (String.eqb _ _).
Qed.

Lemma shutdown_each_answers p (guests : list Guest) : ∀ k errs succ,
  shutdown_each p k guests errs succ
  = (errs ++ omap shutdown_failure (shutdown_answers p k guests),
     succ ++ omap shutdown_done (shutdown_answers p k guests)).
Proof.
  induction guests as [|g guests IH]; intros k errs succ.
  - cbn. by rewrite !app_nil_r.
  - unfold shutdown_answers. rewrite imap_cons. cbn [shutdown_each].
    rewrite Nat.add_0_r.
    assert (imap ((λ i g0, (g0, ShutdownGuest (pg_API p) (k + i) (g_Type g0)
                                  (pretty (VMID g0)) (pg_Timeout p))) ∘ S) guests
            = shutdown_answers p (S k) guests) as ->.
    { apply imap_ext. intros i x _. cbn. do 2 f_equal. lia. }
    destruct (ShutdownGuest (pg_API p) k (g_Type g) (pretty (VMID g)) (pg_Timeout p))
      as [err|] eqn:Hk; rewrite IH; cbn; by rewrite <- app_assoc.
Qed.

Lemma shutdown_reports_length (l : list (Guest * option error)) :
  (length (omap shutdown_failure l) + length (omap shutdown_done l) = length l)%nat.
Proof.
  induction l as [|[g [err|]] l IH]; cbn; lia.
Qed.

(** Property X7.  The result of the guest executor accounts for every guest
    the selector matches, each under the answer to its own shutdown request
    (the request number [i], with the type and the id of the guest number
    [i] and the executor's timeout): the failures list the guests whose
    request returned an error, with that error, and the successes the
    others, both in the order of the listing, so a guest is asked also after
    the request of another one failed.  The output and the error of the
    result are made of these two lists.  The result is never nil and reports
    success, with a nil error, exactly when the listing succeeded and every
    request returned nil (none at all for an empty listing); the [Action]
    field plays no part. *)
Theorem ProxmoxGuest_Execute_all_guests (p : ProxmoxGuestExecutor) (took : Z) :
  let answer i g :=
    ShutdownGuest (pg_API p) i (g_Type g) (pretty (VMID g)) (pg_Timeout p) in
  (∃ r, (ProxmoxGuest_Execute p took).1 = Some r
        ∧ Retries r = 0
        ∧ (Success r = true ↔ (ProxmoxGuest_Execute p took).2 = None)
        ∧ (Success r = true ↔
           ∃ guests, GetGuestsBySelector (pg_API p) (pg_Selector p) = inl guests
                     ∧ ∀ i g, guests !! i = Some g → answer i g = None))
  ∧ (∀ guests, GetGuestsBySelector (pg_API p) (pg_Selector p) = inl guests →
       ∃ failed done,
         shutdown_each p 0 guests [] [] = (failed, done)
         ∧ failed = omap (λ ga : Guest * option error,
                            (λ err, g_Type ga.1 +:+ ":" +:+ g_Name ga.1
                                    +:+ " (" +:+ err +:+ ")") <$> ga.2)
                      (imap (λ i g, (g, answer i g)) guests)
         ∧ done = omap (λ ga : Guest * option error,
                          match ga.2 with
                          | None => Some (g_Type ga.1 +:+ ":" +:+ g_Name ga.1)
                          | Some _ => None
                          end)
                    (imap (λ i g, (g, answer i g)) guests)
         ∧ (∀ i g, guests !! i = Some g →
              match answer i g with
              | Some err =>
                  g_Type g +:+ ":" +:+ g_Name g +:+ " (" +:+ err +:+ ")" ∈ failed
              | None => g_Type g +:+ ":" +:+ g_Name g ∈ done
              end)
         ∧ (length failed + length done = length guests)%nat
         ∧ (guests ≠ [] →
            ∃ r, (ProxmoxGuest_Execute p took).1 = Some r
                 ∧ Output r = "shutdown " +:+ pretty (length done) +:+ " guests: "
                              +:+ fmt_v done
                 ∧ Error r = if bool_decide (failed = []) then ""
                             else "failed to shutdown: " +:+ fmt_v failed))
  ∧ (∀ action,
       ProxmoxGuest_Execute
         {| pg_Timeout := pg_Timeout p; pg_Selector := pg_Selector p;
            pg_Action := action; pg_API := pg_API p |} took
       = ProxmoxGuest_Execute p took).
Proof.
  cbv zeta.
  assert (∀ guests,
            (omap shutdown_failure (shutdown_answers p 0 guests) = []
             ↔ ∀ i g, guests !! i = Some g →
                      ShutdownGuest (pg_API p) i (g_Type g) (pretty (VMID g))
                        (pg_Timeout p) = None)) as Hall.
  { intros guests. split.
    - intros Hnil i g Hg.
      destruct (ShutdownGuest (pg_API p) i (g_Type g) (pretty (VMID g)) (pg_Timeout p))
        as [err|] eqn:Hi; [|done].
      exfalso. eapply (elem_of_nil (_ : string)). rewrite <- Hnil.
      apply list_elem_of_omap. exists (g, Some err). split; [|done].
      unfold shutdown_answers. rewrite <- Hi.
      by apply (elem_of_lookup_imap_2 (λ i g, (g, ShutdownGuest (pg_API p) (0 + i)
                  (g_Type g) (pretty (VMID g)) (pg_Timeout p)))).
    - intros Hnone. destruct (omap _ _) as [|m l] eqn:E; [done|]. exfalso.
      assert (m ∈ omap shutdown_failure (shutdown_answers p 0 guests)) as Hm
        by (rewrite E; left).
      apply list_elem_of_omap in Hm as ([g a] & Hin & Hf).
      apply elem_of_lookup_imap_1 in Hin as (i & g' & [= -> ->] & Hg').
      cbn in Hf. rewrite (Hnone _ _ Hg') in Hf. done. }
  split; [|split].
  - unfold ProxmoxGuest_Execute.
    destruct (GetGuestsBySelector _ _) as [guests|err].
    + case_bool_decide as Hlen.
      * eexists. split; [done|]. simpl. repeat split; try done.
        intros _. exists guests. split; [done|].
        destruct guests; [|done]. by intros i g Hg.
      * rewrite shutdown_each_answers. cbn [app]. case_bool_decide as HE.
        { eexists. split; [done|]. simpl. repeat split; try done.
          intros (guests' & [= <-] & Hd). apply Hall in Hd. rewrite Hd in HE.
          simpl in HE. lia. }
        { eexists. split; [done|]. simpl. repeat split; try done.
          intros _. exists guests. split; [done|]. apply Hall.
          destruct (omap _ _); [done|]. simpl in HE. lia. }
    + eexists. split; [done|]. simpl. repeat split; try done.
      by intros (guests & [=] & _).
  - intros guests Hlist. rewrite shutdown_each_answers. cbn [app].
    eexists _, _. split; [reflexivity|]. split; [reflexivity|]. split; [reflexivity|].
    split; [|split].
    + intros i g Hg.
      pose proof (elem_of_lookup_imap_2
                    (λ i g, (g, ShutdownGuest (pg_API p) (0 + i) (g_Type g)
                                  (pretty (VMID g)) (pg_Timeout p))) guests g i Hg)
        as Hin. cbn in Hin.
      destruct (ShutdownGuest (pg_API p) i (g_Type g) (pretty (VMID g)) (pg_Timeout p))
        as [err|] eqn:Hi; apply list_elem_of_omap; eexists; (split; [exact Hin|done]).
    + rewrite shutdown_reports_length. apply length_imap.
    + intros Hne. unfold ProxmoxGuest_Execute. rewrite Hlist.
      rewrite bool_decide_eq_false_2 by (by destruct guests).
      rewrite shutdown_each_answers. cbn [app].
      destruct (omap shutdown_failure (shutdown_answers p 0 guests)) as [|m l] eqn:E.
      * rewrite bool_decide_eq_false_2 by (cbn; lia). eexists. split; [done|]. done.
      * rewrite bool_decide_eq_true_2 by (cbn; lia). eexists. split; [done|]. done.
  - intros action. unfold ProxmoxGuest_Execute. simpl.
    destruct (GetGuestsBySelector _ _) as [guests|err]; [|done].
    case_bool_decide; [done|].
    assert (∀ k errs succ,
              shutdown_each {| pg_Timeout := pg_Timeout p; pg_Selector := pg_Selector p;
                               pg_Action := action; pg_API := pg_API p |}
                k guests errs succ
              = shutdown_each p k guests errs succ) as ->; [|done].
    clear. induction guests as [|g guests IH]; intros k errs succ; simpl; [done|].
    destruct (ShutdownGuest _ _ _ _ _); apply IH.
Qed.

(** Property X8.  The health check of the guest executor passes exactly when the
    listing succeeds and none of the listed guests is running (so also when
    no guest matches); it returns an error exactly when the listing fails. *)
Theorem ProxmoxGuest_Healthcheck_none_running (p : ProxmoxGuestExecutor) :
  ((ProxmoxGuest_Healthcheck p).1 = true ↔
     ∃ guests, GetGuestsBySelector (pg_API p) (pg_Selector p) = inl guests
               ∧ ∀ g, g ∈ guests → g_Status g ≠ "running")
  ∧ ((ProxmoxGuest_Healthcheck p).2 ≠ None ↔
       ∃ err, GetGuestsBySelector (pg_API p) (pg_Selector p) = inr err).
Proof.
  unfold ProxmoxGuest_Healthcheck.
  destruct (GetGuestsBySelector _ _) as [guests|err]; simpl.
  - split; [|split; [done|by intros (? & [=])]].
    assert (none_running guests = true ↔ ∀ g, g ∈ guests → g_Status g ≠ "running") as ->.
    { induction guests as [|g guests IH]; simpl.
      - split; [|done]. intros _ g Hg. by apply elem_of_nil in Hg.
      - destruct (String.eqb_spec (g_Status g) "running") as [Hr|Hr].
        + split; [done|]. intros H. exfalso. apply (H g); [left|done].
        + rewrite IH. split.
          * intros H g' [->|Hg']%elem_of_cons; auto.
          * intros H g' Hg'. apply H. by right. }
    split; [intros H; by exists guests|]. by intros (guests' & [= <-] & H).
  - split; [split; [done|by intros (? & [=] & _)]|].
    split; [intros _; by exists err|done].
Qed.

End ExecutorsFacts.

(** ** The journal: recovery list and directory *)

Section JournalFacts.
Import state.

Lemma GetActionsForRecovery_filter (m : Manager) :
  GetActionsForRecovery m = reverse (filter recoverable (CompletedActions (mstate m))).
Proof.
  unfold GetActionsForRecovery, collect.
  rewrite reverse_in_place_spec, collect_from. done.
Qed.

(** The journal after a list of (time, action) records. *)
Lemma CompletedActions_records (recs : list (Z * CompletedAction)) : ∀ m,
  CompletedActions (mstate (foldl (λ m r, RecordAction m r.1 r.2) m recs))
  = CompletedActions (mstate m) ++ recs.*2.
Proof.
  induction recs as [|[t a] recs IH]; intros m; simpl.
  - by rewrite app_nil_r.
  - rewrite IH. simpl. by rewrite <- app_assoc.
Qed.

(** Property X9.  The recovery list follows the journal: recording an action puts it at
    the head of the list when it succeeded and has a recovery command, and
    leaves the list alone otherwise; status, error and progress updates do not
    touch it; a new session and [Clear] empty it.  After a session that
    recorded a sequence of actions, the list is the recoverable ones, last
    recorded first. *)
Theorem GetActionsForRecovery_follows_journal (m : Manager) (t : Z) :
  (∀ a, GetActionsForRecovery (RecordAction m t a)
        = if Success a && nonempty (Recovery (Spec a))
          then a :: GetActionsForRecovery m
          else GetActionsForRecovery m)
  ∧ (∀ st, GetActionsForRecovery (SetStatus m t st) = GetActionsForRecovery m)
  ∧ (∀ err, GetActionsForRecovery (SetError m t err) = GetActionsForRecovery m)
  ∧ (∀ p a, GetActionsForRecovery (UpdateProgress m t p a) = GetActionsForRecovery m)
  ∧ GetActionsForRecovery (Clear m t) = []
  ∧ (∀ id trigger (recs : list (Z * CompletedAction)),
       GetActionsForRecovery
         (foldl (λ m r, RecordAction m r.1 r.2) (StartSession m id t trigger) recs)
       = reverse (filter recoverable recs.*2)).
Proof.
  split; [|split; [|split; [|split; [|split]]]]; try done.
  - intros a. rewrite !GetActionsForRecovery_filter. simpl.
    rewrite filter_app, reverse_app. simpl.
    rewrite filter_cons, filter_nil.
    fold (keeps a). destruct (keeps a) eqn:E.
    + rewrite decide_True by (by apply keeps_spec). done.
    + rewrite decide_False; [done|]. intros H%keeps_spec. congruence.
  - intros id trigger recs. rewrite GetActionsForRecovery_filter.
    by rewrite CompletedActions_records.
Qed.

Lemma substring_0_app (a : string) : ∀ b : string,
  String.substring 0 (String.length a) (a +:+ b) = a.
Proof.
  induction a as [|c a IH]; intros b; simpl.
  - by destruct b.
  - by rewrite IH.
Qed.

(** Property X10.  [Save] makes the directory named by the state path without its last
    11 bytes, the length of "/state.json", whatever these bytes are: the
    parent directory for a state file called state.json, something else
    for any other file name.  On a path shorter than 11 bytes it panics
    before it touches the file system. *)
Theorem Save_directory (env : Env) (w : World Manager State) :
  (∀ dir name : string,
     filePath (cur w) = dir +:+ name →
     String.length name = String.length "/state.json" →
     ∃ err w' rest,
       Save env w = (Ret err, w')
       ∧ trace w' = trace w ++ EMkdirAll dir mode_0750 :: rest
       ∧ (∀ e, e ∈ rest → e = EWriteFile (dir +:+ name) (mstate (cur w)) mode_0600))
  ∧ ((String.length (filePath (cur w)) < String.length "/state.json")%nat →
     Save env w = (Panic, w)).
Proof.
  split.
  - intros dir name Hpath Hname. unfold Save.
    rewrite bind_unfold. cbn [get fst snd].
    rewrite Hpath, string_length_app, Hname.
    destruct (_ <? _)%nat eqn:E; [apply Nat.ltb_lt in E; lia|].
    replace (String.length dir + String.length "/state.json"
             - String.length "/state.json")%nat with (String.length dir) by lia.
    rewrite substring_0_app.
    unfold os_call. repeat (rewrite bind_unfold; cbn [emit ask ret fst snd cur steps trace]).
    destruct (os_err env (steps w)) as [e|].
    + eexists _, _, []. split; [done|]. split; [done|].
      intros e' He'. by apply elem_of_nil in He'.
    + repeat (rewrite bind_unfold; cbn [emit ask ret fst snd cur steps trace]).
      destruct (os_err env (S (steps w))) as [e|];
        eexists _, _, [_]; cbn [ret]; (split; [done|]); cbn [trace];
        rewrite <- app_assoc; (split; [done|]);
        intros e' He'; by apply list_elem_of_singleton in He'.
  - intros Hshort. unfold Save. rewrite bind_unfold. cbn [get fst snd].
    destruct (_ <? _)%nat eqn:E; [done|apply Nat.ltb_ge in E; lia].
Qed.

End JournalFacts.

(** ** The orchestrator: notifications and journal *)

Section PhaseInvariant.
Import orchestrator.

Variable env : Env.
Variable sched : Z → list nat.
Variable o : Orchestrator.

Variable R : relation (World State State).
Context `{!PreOrder R}.

Hypothesis R_steps : ∀ (w : World State State) n,
  R w {| cur := cur w; steps := n; trace := trace w |}.
Hypothesis R_emit : ∀ (w : World State State) e,
  of_action e = true →
  R w {| cur := cur w; steps := steps w; trace := trace w ++ [e] |}.
Hypothesis R_progress : ∀ (w : World State State) f,
  (∀ s, CompletedActions (f s) = CompletedActions s ∧ Status (f s) = Status s) →
  R w {| cur := f (cur w); steps := steps w; trace := trace w |}.
Hypothesis R_append : ∀ (w : World State State) c,
  R w {| cur := set_CompletedActions (CompletedActions (cur w) ++ [c]) (cur w);
         steps := steps w; trace := trace w |}.
Hypothesis R_save : ∀ w : World State State,
  R w {| cur := cur w; steps := steps w;
         trace := trace w ++ [EWriteFile (stateFile o) (cur w) mode_0600] |}.

#[local] Abbreviation inv := (preserves R).

Lemma inv_ask {A} (answer : nat → A) : inv (ask answer).
Proof. intros w. apply R_steps. Qed.

Lemma inv_emit e : of_action e = true → inv (emit e).
Proof. intros He w. by apply R_emit. Qed.

Lemma inv_progress f :
  (∀ s, CompletedActions (f s) = CompletedActions s ∧ Status (f s) = Status s) →
  inv (modify f).
Proof. intros Hf w. by apply R_progress. Qed.

Lemma inv_emits (es : list (Effect State)) : ∀ (w : World State State) n,
  Forall (λ e, of_action e = true) es →
  R w {| cur := cur w; steps := n; trace := trace w ++ es |}.
Proof.
  induction es as [|e es IH]; intros w n Hes.
  - rewrite app_nil_r. apply R_steps.
  - inversion Hes as [|? ? He Hes']; subst.
    etrans; [apply (R_emit w e He)|].
    specialize (IH {| cur := cur w; steps := steps w; trace := trace w ++ [e] |} n Hes').
    cbn in IH. by rewrite <- app_assoc in IH.
Qed.

Ltac inv_leaf :=
  first
    [ apply preserves_ret; apply _
    | apply preserves_panic; apply _
    | apply preserves_get; apply _
    | apply inv_ask
    | apply inv_emit; done
    | apply inv_progress; done ].

Tactic Notation "inv_bind" tactic3(tac) "as" simple_intropattern(x) :=
  apply preserves_bind; [apply _ | tac | intros x].
Tactic Notation "inv_bind" "as" simple_intropattern(x) :=
  apply preserves_bind; [apply _ | inv_leaf | intros x].

Lemma inv_saveState : inv (saveState env o).
Proof.
  intros w. rewrite saveState_run. cbn.
  etrans; [apply R_save|]. apply (R_steps {| cur := _; steps := _; trace := _ |}).
Qed.

Lemma inv_call_executor p a action : inv (call_executor env p a action).
Proof.
  unfold call_executor. inv_bind as _.
  destruct (Retry action) as [rc|]; [|inv_leaf].
  intros w. destruct (executor.ExecuteWithRetry _ _ _ _) as [r|]; simpl; [|reflexivity].
  apply inv_emits. apply Forall_fmap, Forall_true. done.
Qed.

Lemma inv_executeAction p name a action : inv (executeAction env p name a action).
Proof.
  unfold executeAction. inv_bind (apply inv_emit; done) as _.
  inv_bind (apply inv_call_executor) as [result [e|]].
  { inv_bind (apply inv_emit; done) as _. inv_leaf. }
  inv_bind (idtac) as failed.
  - destruct (Healthcheck action); [|inv_leaf].
    inv_bind as _.
    destruct (executor.Healthcheck (Executor action)). inv_leaf.
  - destruct failed; [inv_bind (apply inv_emit; done) as _; inv_leaf|].
    destruct result; [inv_bind (apply inv_emit; done) as _; inv_leaf | inv_leaf].
Qed.

Lemma inv_track p phase i action out : inv (track env o p phase i action out).
Proof.
  unfold track. destruct out as [result err].
  inv_bind as t.
  destruct (executor.succeeded _) as [ok|]; [|inv_leaf].
  inv_bind (intros w; apply R_append) as _.
  inv_bind (apply inv_saveState) as _. inv_leaf.
Qed.

Lemma inv_sequential_from p phase actions : ∀ i,
  inv (sequential_from env o p phase i actions).
Proof.
  induction actions as [|action rest IH]; intros i; simpl; [inv_leaf|].
  inv_bind as t.
  inv_bind as _.
  inv_bind (apply inv_saveState) as _.
  inv_bind (apply inv_executeAction) as out.
  inv_bind (apply inv_track) as ok.
  destruct ok; simpl; [apply IH|].
  repeat (destruct (String.eqb _ _)); try apply IH; try inv_leaf.
  inv_bind (apply inv_emit; done) as _. apply IH.
Qed.

Lemma inv_goroutine p phase idx act : inv (goroutine env o p phase idx act).
Proof.
  unfold goroutine.
  inv_bind (apply inv_executeAction) as out.
  inv_bind (apply inv_track) as _. inv_leaf.
Qed.

Lemma inv_parallel_in p phase order : ∀ errCh,
  inv (parallel_in env o p phase order errCh).
Proof.
  induction order as [|idx rest IH]; intros errCh; simpl; [inv_leaf|].
  destruct (Actions phase !! idx); [|apply IH].
  inv_bind (apply inv_goroutine) as sent. apply IH.
Qed.

Lemma inv_executePhase p phase : inv (executePhase env sched o p phase).
Proof.
  unfold executePhase, executeParallel, executeSequential.
  destruct (Parallel phase).
  - inv_bind (apply inv_parallel_in) as errCh. inv_leaf.
  - apply inv_sequential_from.
Qed.

(** The loop over the phases, for a relation that notifications preserve
    as well. *)
Hypothesis R_notify : ∀ (w : World State State) ev,
  R w {| cur := cur w; steps := steps w; trace := trace w ++ [ENotify ev] |}.

Lemma inv_notify b ev : inv (notify env b ev).
Proof.
  unfold notify. destruct b; [|inv_leaf].
  inv_bind (intros w; apply R_notify) as _.
  inv_bind as [e|]; [apply inv_emit; done | inv_leaf].
Qed.

Lemma inv_phases_from ps : ∀ i, inv (phases_from env sched o i ps).
Proof.
  induction ps as [|phase rest IH]; intros i; simpl; [inv_leaf|].
  inv_bind (apply inv_emit; done) as _.
  inv_bind as t.
  inv_bind as _.
  inv_bind (apply inv_saveState) as _.
  inv_bind (apply inv_notify) as _.
  inv_bind (apply inv_executePhase) as err.
  inv_bind (destruct err; [apply inv_emit; done | inv_leaf]) as _.
  inv_bind (apply inv_notify) as _. apply IH.
Qed.

End PhaseInvariant.

Section OrchestratorRuns.
Import orchestrator.

Variable env : Env.
Variable sched : Z → list nat.
Variable o : Orchestrator.

Lemma notifications_app {D} (tr1 tr2 : list (Effect D)) :
  notifications (tr1 ++ tr2) = notifications tr1 ++ notifications tr2.
Proof. apply omap_app. Qed.

Lemma documents_app {D} (tr1 tr2 : list (Effect D)) :
  documents (tr1 ++ tr2) = documents tr1 ++ documents tr2.
Proof. apply omap_app. Qed.

#[local] Instance silent_preorder : PreOrder silent.
Proof.
  split; [by intros w|]. intros w1 w2 w3 H1 H2. unfold silent in *. congruence.
Qed.

Lemma silent_executePhase p phase : preserves silent (executePhase env sched o p phase).
Proof.
  apply inv_executePhase; try apply _; unfold silent; cbn [trace].
  - done.
  - intros w e He. rewrite notifications_app.
    destruct e; try done; cbn; by rewrite app_nil_r.
  - done.
  - done.
  - intros w. rewrite notifications_app. cbn. by rewrite app_nil_r.
Qed.

(** How [notify] leaves the world. *)
Lemma notify_run {S D} b ev (w : World S D) :
  ∃ w' logged,
    notify env b ev w = (Ret tt, w')
    ∧ cur w' = cur w
    ∧ trace w' = trace w ++ (if b then ENotify ev :: logged else [])
    ∧ (logged = [] ∨ logged = [ELog "error" "Notification failed"]).
Proof.
  unfold notify. destruct b.
  2:{ exists w, []. rewrite app_nil_r. split; [done|]. split; [done|].
      split; [done|]. by left. }
  cbn. destruct (notify_err env (steps w)); cbn.
  - eexists _, [_]. split; [done|]. cbn. rewrite <- app_assoc.
    split; [done|]. split; [done|]. by right.
  - eexists _, []. split; [done|]. split; [done|]. split; [done|]. by left.
Qed.

Lemma notify_notifications b ev (w : World State State) :
  ∃ w', notify env b ev w = (Ret tt, w')
        ∧ cur w' = cur w
        ∧ notifications (trace w')
          = notifications (trace w) ++ (if b then [ev] else []).
Proof.
  destruct (notify_run b ev w) as (w' & logged & Hrun & Hcur & Htr & Hlog).
  exists w'. split; [done|]. split; [done|]. rewrite Htr, notifications_app.
  destruct b; [|done]. by destruct Hlog as [-> | ->].
Qed.

Lemma elem_of_phase_notifications (n : nat) (x : string) :
  x ∈ phase_notifications n → x = "phase_start" ∨ x = "phase_complete".
Proof.
  induction n as [|n IH]; cbn.
  - by intros ?%elem_of_nil.
  - intros [->|[->|H]%elem_of_cons]%elem_of_cons; auto.
Qed.

Lemma phases_from_notifications ps : ∀ i (w : World State State),
  ∃ r w' sent,
    phases_from env sched o i ps w = (r, w')
    ∧ notifications (trace w') = notifications (trace w) ++ sent
    ∧ (if has_notifier o
       then sent `prefix_of` phase_notifications (length ps)
            ∧ (r = Ret tt → sent = phase_notifications (length ps))
       else sent = []).
Proof.
  induction ps as [|phase rest IH]; intros i w.
  - exists (Ret tt), w, []. rewrite app_nil_r. split; [done|]. split; [done|].
    by destruct (has_notifier o).
  - cbn [phases_from].
    repeat (first [rewrite bind_unfold | rewrite saveState_run];
            cbn [ret now ask modify emit get log fst snd cur steps trace]).
    match goal with |- context [notify env ?b ?ev ?w0] =>
      destruct (notify_notifications b ev w0) as (w1 & -> & Hc1 & Hn1) end.
    cbn [trace] in Hn1. rewrite !notifications_app in Hn1. cbn in Hn1.
    rewrite !app_nil_r in Hn1.
    rewrite bind_unfold.
    pose proof (silent_executePhase i phase w1) as Hn2. unfold silent in Hn2.
    destruct (executePhase env sched o i phase w1) as [[err|] w2]; cbn in Hn2.
    2:{ eexists _, _, _. split; [done|]. rewrite Hn2, Hn1. split; [done|].
        destruct (has_notifier o); [|done]. split; [|done].
        by exists ("phase_complete" :: phase_notifications (length rest)). }
    rewrite bind_unfold.
    assert (∃ w3, (match err with
                   | Some _ => log "error" "Phase failed"
                   | None => ret tt
                   end) w2 = (Ret tt, w3)
                  ∧ notifications (trace w3) = notifications (trace w2))
      as (w3 & -> & Hn3).
    { destruct err; [|by eexists].
      eexists. split; [done|]. cbn [trace]. rewrite notifications_app. cbn.
      by rewrite app_nil_r. }
    rewrite bind_unfold.
    destruct (notify_notifications (has_notifier o) "phase_complete" w3)
      as (w4 & -> & Hc4 & Hn4).
    destruct (IH (i + 1) w4) as (r & w5 & sent & -> & Hn5 & Hsent).
    eexists r, w5, _. split; [done|].
    rewrite Hn5, Hn4, Hn3, Hn2, Hn1, <- !app_assoc. split; [done|].
    destruct (has_notifier o); [|by subst sent].
    destruct Hsent as [Hpre Hall]. cbn. split.
    + by do 2 apply prefix_cons.
    + intros Hr. by rewrite (Hall Hr).
Qed.

(** How the part of [Execute] that follows the first save leaves the
    world. *)
Lemma phases_from_returns_unit ps i (w : World State State) :
  (phases_from env sched o i ps w).1 = Ret tt ∨ (phases_from env sched o i ps w).1 = Panic.
Proof. destruct (phases_from env sched o i ps w) as [[[]|] w']; auto. Qed.

Lemma Execute_run trigger (w : World State State) :
  let t1 := time_at env (steps w) in
  let t2 := time_at env (S (steps w)) in
  let t3 := time_at env (S (S (steps w))) in
  let st0 := {| SessionID := pretty t1; StartedAt := t2; Status := "in_progress";
                CurrentPhase := 0; CurrentAction := 0; CompletedActions := [];
                TriggerEvent := trigger; LastUpdated := t3 |} in
  let w0 := {| cur := st0; steps := S (S (S (S (steps w))));
               trace := trace w ++ [EStatus "in_progress";
                                    EWriteFile (stateFile o) st0 mode_0600] |} in
  match os_err env (S (S (S (steps w)))) with
  | Some e => Execute env sched o trigger w = (Ret (Some ("saving initial state: " +:+ e)), w0)
  | None =>
      ∃ w1 r2 w2,
        notify env (has_notifier o) "shutdown_start" w0 = (Ret tt, w1)
        ∧ phases_from env sched o 0 (phases o) w1 = (r2, w2)
        ∧ match r2 with
          | Panic => Execute env sched o trigger w = (Panic, w2)
          | Ret _ =>
              let st3 := set_LastUpdated (time_at env (steps w2))
                           (set_Status "completed" (cur w2)) in
              let w3 := {| cur := st3; steps := S (S (steps w2));
                           trace := trace w2 ++ [EStatus "completed";
                                                 EWriteFile (stateFile o) st3 mode_0600] |} in
              ∃ w4, notify env (has_notifier o) "shutdown_complete" w3 = (Ret tt, w4)
                    ∧ Execute env sched o trigger w = (Ret None, w4)
          end
  end.
Proof.
  cbv zeta. unfold Execute.
  repeat (first [rewrite bind_unfold | rewrite saveState_run];
          cbn [ret now ask modify emit get log fst snd cur steps trace]).
  rewrite <- !app_assoc. cbn [app].
  destruct (os_err env (S (S (S (steps w))))) as [e|]; [done|].
  rewrite bind_unfold.
  match goal with |- context [notify env ?b ?ev ?w0] =>
    destruct (notify_run b ev w0) as (w1 & l1 & Hn1 & _) end.
  rewrite Hn1. rewrite bind_unfold.
  destruct (phases_from env sched o 0 (phases o) w1) as [[[]|] w2] eqn:E2.
  - exists w1, (Ret tt), w2. split; [done|]. split; [done|].
    repeat (first [rewrite bind_unfold | rewrite saveState_run];
            cbn [ret now ask modify emit get log fst snd cur steps trace]).
    rewrite <- !app_assoc. cbn [app].
    match goal with |- context [notify env ?b ?ev ?w0] =>
      destruct (notify_run b ev w0) as (w4 & l4 & Hn4 & _) end.
    exists w4. split; [done|]. by rewrite Hn4.
  - exists w1, Panic, w2. done.
Qed.

End OrchestratorRuns.

Section JournalGrowth.
Import orchestrator.

Variable env : Env.
Variable sched : Z → list nat.
Variable o : Orchestrator.

Lemma increasing_weaken {A} (a a' : list A) (ls : list (list A)) :
  a' `prefix_of` a → increasing a ls → increasing a' ls.
Proof.
  destruct ls as [|l ls]; [done|]. intros Ha [Hl Hls]. split; [by etrans|done].
Qed.

Lemma increasing_app {A} (l1 : list (list A)) : ∀ (a b : list A) (l2 : list (list A)),
  increasing a (l1 ++ [b]) → increasing b l2 → increasing a (l1 ++ l2).
Proof.
  induction l1 as [|x l1 IH]; intros a b l2; cbn.
  - intros [Hab _] H2. by apply (increasing_weaken b).
  - intros [Hax H1] H2. split; [done|]. by apply (IH x b).
Qed.

#[local] Instance journal_grows_preorder : PreOrder (journal_grows o).
Proof.
  split.
  - intros w. exists []. rewrite app_nil_r. split; [done|]. split.
    + by intros e ?%elem_of_nil.
    + by cbn.
  - intros w1 w2 w3 (e1 & Ht1 & Hw1 & Hi1) (e2 & Ht2 & Hw2 & Hi2).
    exists (e1 ++ e2). rewrite Ht2, Ht1, <- app_assoc. split; [done|]. split.
    + intros e [?|?]%elem_of_app; auto.
    + rewrite documents_app, fmap_app, <- app_assoc.
      by apply (increasing_app _ _ (CompletedActions (cur w2))).
Qed.

Lemma journal_grows_trans (w1 w2 w3 : World State State) :
  (journal_grows o) w1 w2 → (journal_grows o) w2 w3 → (journal_grows o) w1 w3.
Proof. intros. by etrans. Qed.

Lemma journal_grows_quiet (w : World State State) (st : State) n es :
  CompletedActions (cur w) `prefix_of` CompletedActions st →
  Forall (λ e, is_fs e = false) es →
  (journal_grows o) w {| cur := st; steps := n; trace := trace w ++ es |}.
Proof.
  intros Hpre Hes. exists es. split; [done|]. split.
  - intros e He Hfs. rewrite Forall_forall in Hes. apply Hes in He. congruence.
  - assert (documents es = []) as ->; [|by cbn].
    induction Hes as [|e es He _ IH]; [done|]. destruct e; try done.
Qed.

Lemma grows_phases_from ps i : preserves (journal_grows o) (phases_from env sched o i ps).
Proof.
  apply inv_phases_from; try apply _.
  - intros w n. rewrite <- (app_nil_r (trace w)). by apply journal_grows_quiet.
  - intros w e He. apply journal_grows_quiet; [done|].
    apply Forall_singleton. by destruct e.
  - intros w f Hf. rewrite <- (app_nil_r (trace w)).
    apply journal_grows_quiet; [|done]. by rewrite (proj1 (Hf _)).
  - intros w c. rewrite <- (app_nil_r (trace w)).
    apply journal_grows_quiet; [|done]. cbn. by apply prefix_app_r.
  - intros w. eexists. split; [done|]. split.
    + intros e He _. apply list_elem_of_singleton in He as ->. by eexists.
    + by cbn.
  - intros w ev. apply journal_grows_quiet; [done|]. by apply Forall_singleton.
Qed.

Lemma grows_notify b ev (w w' : World State State) :
  notify env b ev w = (Ret tt, w') → (journal_grows o) w w'.
Proof.
  intros Hn. destruct (notify_run env b ev w) as (w1 & logged & Hn' & Hc & Ht & Hl).
  rewrite Hn in Hn'. injection Hn' as <-.
  replace w' with {| cur := cur w'; steps := steps w'; trace := trace w' |}
    by by destruct w'.
  rewrite Ht. apply journal_grows_quiet; [by rewrite Hc|].
  destruct b; [|done]. by destruct Hl as [-> | ->]; repeat constructor.
Qed.

Lemma increasing_app_l {A} (l1 l2 : list (list A)) : ∀ a : list A,
  increasing a (l1 ++ l2) → increasing a l1.
Proof.
  induction l1 as [|x l1 IH]; intros a; cbn; [done|]. intros [? ?]. by auto.
Qed.

Lemma notify_quiet b ev (w w' : World State State) :
  notify env b ev w = (Ret tt, w') →
  cur w' = cur w
  ∧ ∃ nt, trace w' = trace w ++ nt
          ∧ documents nt = []
          ∧ Forall (λ e, is_fs e = false) nt.
Proof.
  intros Hn. destruct (notify_run env b ev w) as (w1 & logged & Hn' & Hc & Ht & Hl).
  rewrite Hn in Hn'. injection Hn' as <-. split; [done|].
  eexists. split; [done|].
  destruct b; [|done]. by destruct Hl as [-> | ->]; repeat constructor.
Qed.

End JournalGrowth.

Section ExecuteFacts.
Import orchestrator.

(** Property X11.  The only error [Execute] returns is that of the first save of the
    journal, in which case nothing else is done: no notification, no action,
    and the session stays in progress with an empty journal.  Once the first
    save succeeded [Execute] returns nil, whatever the phases and the later
    saves do (short of a panic). *)
Theorem Execute_reports_only_first_save (env : Env) (sched : Z → list nat)
    (o : Orchestrator) (trigger : string) (w : World State State) :
  ∃ r w',
    Execute env sched o trigger w = (r, w')
    ∧ match os_err env (3 + steps w) with
      | Some e =>
          r = Ret (Some ("saving initial state: " +:+ e))
          ∧ trace w' = trace w ++ [EStatus "in_progress";
                                   EWriteFile (stateFile o) (cur w') mode_0600]
          ∧ Status (cur w') = "in_progress"
          ∧ CompletedActions (cur w') = []
      | None => r = Ret None ∨ r = Panic
      end.
Proof.
  pose proof (Execute_run env sched o trigger w) as H. cbv zeta in H.
  change (3 + steps w)%nat with (S (S (S (steps w)))).
  destruct (os_err env (S (S (S (steps w))))) as [e|].
  - eexists _, _. split; [exact H|]. done.
  - destruct H as (w1 & r2 & w2 & Hn1 & Hp & H).
    destruct r2 as [[]|].
    + destruct H as (w4 & Hn4 & ->). eexists _, _. split; [done|]. by left.
    + rewrite H. eexists _, _. split; [done|]. by right.
Qed.

(** Property X12.  With a notifier, an [Execute] that returns nil has sent
    shutdown_start, then phase_start and phase_complete once for each phase
    in turn (also for a phase that failed), then shutdown_complete; an
    [Execute] that returns an error has sent nothing.  Without a notifier
    nothing is ever sent. *)
Theorem Execute_notifications (env : Env) (sched : Z → list nat)
    (o : Orchestrator) (trigger : string) (w : World State State) :
  ∃ r w' sent,
    Execute env sched o trigger w = (r, w')
    ∧ notifications (trace w') = notifications (trace w) ++ sent
    ∧ if has_notifier o then
        match r with
        | Ret None =>
            sent = ["shutdown_start"]
                   ++ concat (replicate (length (phases o))
                                ["phase_start"; "phase_complete"])
                   ++ ["shutdown_complete"]
        | Ret (Some _) => sent = []
        | Panic => "shutdown_complete" ∉ sent
        end
      else sent = [].
Proof.
  pose proof (Execute_run env sched o trigger w) as H. cbv zeta in H.
  destruct (os_err env (S (S (S (steps w))))) as [e|].
  - eexists _, _, []. split; [exact H|]. cbn [trace].
    rewrite notifications_app, app_nil_r. cbn. rewrite app_nil_r.
    split; [done|]. by destruct (has_notifier o).
  - destruct H as (w1 & r2 & w2 & Hn1 & Hp & H).
    match type of Hn1 with notify _ ?b ?ev ?w0 = _ =>
      destruct (notify_notifications env b ev w0) as (w1' & Hn1' & _ & Hs1) end.
    rewrite Hn1 in Hn1'. injection Hn1' as <-.
    cbn [trace] in Hs1. rewrite notifications_app in Hs1. cbn in Hs1.
    rewrite app_nil_r in Hs1.
    destruct (phases_from_notifications env sched o (phases o) 0 w1)
      as (r2' & w2' & sent2 & Hp' & Hs2 & Hsent2).
    rewrite Hp in Hp'. injection Hp' as <- <-.
    destruct r2 as [[]|].
    + destruct H as (w4 & Hn4 & ->).
      match type of Hn4 with notify _ ?b ?ev ?w0 = _ =>
        destruct (notify_notifications env b ev w0) as (w4' & Hn4' & _ & Hs4) end.
      rewrite Hn4 in Hn4'. injection Hn4' as <-.
      cbn [trace] in Hs4. rewrite notifications_app in Hs4. cbn in Hs4.
      rewrite app_nil_r in Hs4.
      eexists _, _, _. split; [done|]. rewrite Hs4, Hs2, Hs1, <- !app_assoc.
      split; [done|]. destruct (has_notifier o).
      * destruct Hsent2 as [_ ->]; done.
      * by subst sent2.
    + rewrite H. eexists _, _, _. split; [done|]. rewrite Hs2, Hs1, <- !app_assoc.
      split; [done|]. destruct (has_notifier o); [|by subst sent2].
      destruct Hsent2 as [Hpre _]. cbn.
      intros [?|Hin]%elem_of_cons; [done|].
      apply (elem_of_prefix _ _ _ Hin) in Hpre.
      by apply elem_of_phase_notifications in Hpre as [?|?].
Qed.

(** Property X13.  Along an [Execute] the only files touched are the state
    file, written with mode 0600, and the journal is append-only: a first
    document is always written, it has the status in_progress and no
    completed action, and the completed actions of each document written
    are a prefix of those of the next.  When [Execute] returns nil, the last
    document written is the state it leaves in memory, with the status
    completed. *)
Theorem Execute_journal_append_only (env : Env) (sched : Z → list nat)
    (o : Orchestrator) (trigger : string) (w : World State State) :
  ∃ r w' ext,
    Execute env sched o trigger w = (r, w')
    ∧ trace w' = trace w ++ ext
    ∧ (∀ e, e ∈ ext → is_fs e = true → ∃ d, e = EWriteFile (stateFile o) d mode_0600)
    ∧ (∃ first rest,
         documents ext = first :: rest
         ∧ CompletedActions first = []
         ∧ Status first = "in_progress"
         ∧ increasing (CompletedActions first) (CompletedActions <$> rest))
    ∧ (r = Ret None →
       last (documents ext) = Some (cur w') ∧ Status (cur w') = "completed").
Proof.
  pose proof (Execute_run env sched o trigger w) as H. cbv zeta in H.
  destruct (os_err env (S (S (S (steps w))))) as [e|].
  - eexists _, _, _. split; [exact H|]. cbn [trace]. split; [done|]. split.
    + intros e' [->|He']%elem_of_cons; [done|].
      apply list_elem_of_singleton in He' as ->. by eexists.
    + cbn. split; [|done]. eexists _, []. done.
  - destruct H as (w1 & r2 & w2 & Hn1 & Hp & H).
    apply grows_notify with (o:=o) in Hn1.
    pose proof (grows_phases_from env sched o (phases o) 0 w1) as Hg2.
    rewrite Hp in Hg2. cbn [snd] in Hg2.
    destruct (journal_grows_trans o _ _ _ Hn1 Hg2) as (e12 & Ht2 & Hw2 & Hi2).
    cbn [trace cur CompletedActions] in Ht2, Hi2.
    destruct r2 as [[]|].
    + destruct H as (w4 & Hn4 & ->).
      apply notify_quiet in Hn4 as (Hc4 & n4 & Ht4 & Hd4 & Hf4).
      cbn [trace cur] in Ht4, Hc4.
      eexists _, _, _. split; [done|]. rewrite Ht4, Ht2, <- !app_assoc.
      split; [done|]. split; [|split].
      * cbn [app]. intros e [->|[->|He]%elem_of_cons]%elem_of_cons; [done|by eexists|].
        apply elem_of_app in He as [He|He]; [by apply Hw2|].
        apply elem_of_cons in He as [->|He]; [done|].
        apply elem_of_cons in He as [->|He]; [intros _; by eexists|].
        intros Hfs. rewrite Forall_forall in Hf4. apply Hf4 in He. congruence.
      * rewrite !documents_app, Hd4. cbn. eexists _, _. split; [done|].
        split; [done|]. split; [done|].
        rewrite fmap_app. cbn. done.
      * intros _. rewrite Hc4. split; [|done].
        rewrite !documents_app, Hd4. cbn.
        rewrite ?app_nil_r.
        change (?a :: ?l ++ [?b]) with ((a :: l) ++ [b]). by rewrite last_snoc.
    + rewrite H. eexists _, _, _. split; [done|]. rewrite Ht2, <- !app_assoc.
      split; [done|]. split; [|split; [|done]].
      * cbn [app]. intros e [->|[->|He]%elem_of_cons]%elem_of_cons; [done|by eexists|].
        by apply Hw2.
      * cbn. eexists _, _. split; [done|]. split; [done|]. split; [done|].
        by apply increasing_app_l in Hi2.
Qed.
End ExecuteFacts.



Section PhaseJournal.
Import orchestrator.

Variable env : Env.
Variable o : Orchestrator.

Lemma track_run p phase i action out (w : World State State) :
  track env o p phase i action out w
  = match executor.succeeded out with
    | Panic => (Panic, {| cur := cur w; steps := S (steps w); trace := trace w |})
    | Ret ok =>
        let st := set_CompletedActions
                    (CompletedActions (cur w)
                     ++ [journal_entry p phase i action out (time_at env (steps w)) ok])
                    (cur w) in
        (Ret ok, {| cur := st; steps := S (S (steps w));
                    trace := trace w ++ [EWriteFile (stateFile o) st mode_0600] |})
    end.
Proof.
  unfold track. destruct out as [result err].
  rewrite bind_unfold. cbn [now ask fst snd cur steps trace].
  destruct (executor.succeeded (result, err)) as [ok|]; [|done].
  repeat (first [rewrite bind_unfold | rewrite saveState_run];
          cbn [ret now ask modify emit get log fst snd cur steps trace]).
  done.
Qed.

(** [executeAction] does not touch the session state. *)
Lemma executeAction_cur p name i action (w : World State State) :
  cur (executeAction env p name i action w).2 = cur w.
Proof.
  revert w.
  change (preserves (λ w w' : World State State, cur w' = cur w)
            (executeAction env p name i action)).
  apply inv_executeAction.
  - split; [by intros ?|]. intros w1 w2 w3 H1 H2. congruence.
  - done.
  - done.
Qed.

Lemma sequential_from_journal p phase actions : ∀ i (w : World State State),
  ∃ r w' new,
    sequential_from env o p phase i actions w = (r, w')
    ∧ CompletedActions (cur w') = CompletedActions (cur w) ++ new
    ∧ ActionIndex <$> new = (λ j, i + Z.of_nat j) <$> seq 0 (length new)
    ∧ Forall (λ e, PhaseIndex e = p ∧ PhaseName e = Name phase) new
    ∧ (length new ≤ length actions)%nat
    ∧ (∀ j e a, new !! j = Some e → actions !! j = Some a → aborts a e = true →
         S j = length new ∧ ∃ msg, r = Ret (Some msg))
    ∧ (r = Ret None → length new = length actions)
    ∧ (∀ msg, r = Ret (Some msg) →
         ∃ j e a, S j = length new ∧ new !! j = Some e ∧ actions !! j = Some a
                  ∧ aborts a e = true).
Proof.
  induction actions as [|action rest IH]; intros i w.
  - exists (Ret None), w, []. rewrite app_nil_r. repeat split; try done.
  - cbn [sequential_from].
    repeat (first [rewrite bind_unfold | rewrite saveState_run];
            cbn [ret now ask modify emit get log fst snd cur steps trace]).
    match goal with |- context [executeAction env p ?n i action ?w0] =>
      pose proof (executeAction_cur p n i action w0) as Hcur;
      destruct (executeAction env p n i action w0) as [[out|] wb] end.
    2:{ eexists _, _, []. split; [done|]. cbn in Hcur. rewrite Hcur, app_nil_r. cbn.
        repeat split; try done; lia. }
    cbn [snd cur] in Hcur.
    rewrite bind_unfold, track_run.
    destruct (executor.succeeded out) as [ok|].
    2:{ eexists _, _, []. split; [done|]. cbn. rewrite Hcur, app_nil_r.
        repeat split; try done; lia. }
    cbv zeta.
    set (e0 := journal_entry p phase i action out (time_at env (steps wb)) ok).
    set (wc := {| cur := _; steps := S (S (steps wb)); trace := _ |}).
    assert (CompletedActions (cur wc) = CompletedActions (cur w) ++ [e0]) as Hwc.
    { cbn. by rewrite Hcur. }
    (* what the rest of the loop gives, when it is run *)
    assert (aborts action e0 = false →
            ∀ wd : World State State,
              CompletedActions (cur wd) = CompletedActions (cur wc) →
            ∃ r w' new,
              sequential_from env o p phase (i + 1) rest wd = (r, w')
              ∧ CompletedActions (cur w') = CompletedActions (cur w) ++ new
              ∧ ActionIndex <$> new = (λ j, i + Z.of_nat j) <$> seq 0 (length new)
              ∧ Forall (λ e, PhaseIndex e = p ∧ PhaseName e = Name phase) new
              ∧ (length new ≤ length (action :: rest))%nat
              ∧ (∀ j e a, new !! j = Some e → (action :: rest) !! j = Some a →
                   aborts a e = true → S j = length new ∧ ∃ msg, r = Ret (Some msg))
              ∧ (r = Ret None → length new = length (action :: rest))
              ∧ (∀ msg, r = Ret (Some msg) →
                   ∃ j e a, S j = length new ∧ new !! j = Some e
                            ∧ (action :: rest) !! j = Some a ∧ aborts a e = true))
      as Hrest.
    { intros Hno wd Hwd.
      destruct (IH (i + 1) wd) as (r & w' & new & Hrun & HCA & Hidx & Hph & Hlen & Hab & Hnil & Hsome).
      exists r, w', (e0 :: new). split; [done|].
      split; [by rewrite HCA, Hwd, Hwc, <- app_assoc|].
      split.
      { cbn. rewrite Hidx. f_equal; [lia|].
        rewrite <- fmap_S_seq, <- list_fmap_compose. apply list_fmap_ext.
        intros ? j _. cbn. lia. }
      split; [by constructor|].
      split; [cbn; lia|].
      split.
      { intros [|j] e a He Ha Habort; cbn in He, Ha.
        - injection He as <-. injection Ha as <-. congruence.
        - destruct (Hab j e a He Ha Habort) as [Hj Hmsg]. split; [cbn; lia|done]. }
      split; [intros Hr; cbn; by rewrite (Hnil Hr)|].
      intros msg Hr. destruct (Hsome msg Hr) as (j & e & a & Hj & He & Ha & Habort).
      exists (S j), e, a. split; [cbn; lia|]. done. }
    assert (Success e0 = ok) as Hok by done.
    assert (∀ (msg : error) (wd : World State State),
              CompletedActions (cur wd) = CompletedActions (cur wc) →
            aborts action e0 = true →
            ∃ r w' new,
              (Ret (Some msg), wd) = (r, w')
              ∧ CompletedActions (cur w') = CompletedActions (cur w) ++ new
              ∧ ActionIndex <$> new = (λ j, i + Z.of_nat j) <$> seq 0 (length new)
              ∧ Forall (λ e, PhaseIndex e = p ∧ PhaseName e = Name phase) new
              ∧ (length new ≤ length (action :: rest))%nat
              ∧ (∀ j e a, new !! j = Some e → (action :: rest) !! j = Some a →
                   aborts a e = true → S j = length new ∧ ∃ msg, r = Ret (Some msg))
              ∧ (r = Ret None → length new = length (action :: rest))
              ∧ (∀ msg, r = Ret (Some msg) →
                   ∃ j e a, S j = length new ∧ new !! j = Some e
                            ∧ (action :: rest) !! j = Some a ∧ aborts a e = true))
      as Hstop.
    { intros msg wd Hwd Habort. exists (Ret (Some msg)), wd, [e0].
      split; [done|]. split; [by rewrite Hwd, Hwc|].
      split; [cbn; f_equal; lia|]. split; [by repeat constructor|].
      split; [cbn; lia|]. split.
      { intros [|j] e a He Ha _; [|done]. split; [done|]. by eexists. }
      split; [done|]. intros _ _. by exists 0%nat, e0, action. }
    unfold aborts in Hrest, Hstop. rewrite Hok in Hrest, Hstop.
    destruct ok; cbn [negb].
    { by apply Hrest. }
    destruct (String.eqb_spec (OnError action) "continue") as [Hc|Hc].
    { rewrite bind_unfold. cbn [log emit fst snd].
      apply Hrest; [by rewrite Hc|done]. }
    destruct (String.eqb (OnError action) "abort_phase") eqn:E1.
    { by apply Hstop. }
    destruct (String.eqb (OnError action) "abort_all") eqn:E2.
    { by apply Hstop. }
    by apply Hrest.
Qed.

Lemma goroutine_journal p phase idx act (w : World State State) :
  ∃ r w' new,
    goroutine env o p phase idx act w = (r, w')
    ∧ CompletedActions (cur w') = CompletedActions (cur w) ++ new
    ∧ match r with
      | Ret _ => ∃ e, new = [e] ∧ PhaseIndex e = p ∧ PhaseName e = Name phase
                      ∧ ActionIndex e = idx
      | Panic => new = []
      end.
Proof.
  unfold goroutine. rewrite bind_unfold.
  pose proof (executeAction_cur p (Name phase) idx act w) as Hcur.
  destruct (executeAction env p (Name phase) idx act w) as [[out|] wb].
  2:{ eexists _, _, []. split; [done|]. cbn in Hcur. by rewrite Hcur, app_nil_r. }
  cbn [snd] in Hcur. rewrite bind_unfold, track_run.
  destruct (executor.succeeded out) as [ok|].
  2:{ eexists _, _, []. split; [done|]. cbn. by rewrite Hcur, app_nil_r. }
  cbv zeta. cbn [ret]. eexists _, _, [_]. split; [done|]. cbn. rewrite Hcur.
  split; [done|]. by eexists.
Qed.

Lemma parallel_in_journal p phase order : ∀ errCh (w : World State State),
  ∃ r w' new,
    parallel_in env o p phase order errCh w = (r, w')
    ∧ CompletedActions (cur w') = CompletedActions (cur w) ++ new
    ∧ Forall (λ e, PhaseIndex e = p ∧ PhaseName e = Name phase) new
    ∧ (ActionIndex <$> new)
      `prefix_of` (Z.of_nat <$> filter (λ idx, idx < length (Actions phase))%nat order)
    ∧ (r ≠ Panic →
       ActionIndex <$> new
       = Z.of_nat <$> filter (λ idx, idx < length (Actions phase))%nat order).
Proof.
  induction order as [|idx order IH]; intros errCh w.
  - exists (Ret errCh), w, []. rewrite app_nil_r. by repeat split.
  - cbn [parallel_in]. rewrite filter_cons.
    destruct (Actions phase !! idx) as [act|] eqn:Hact.
    + apply lookup_lt_Some in Hact as Hlt. rewrite decide_True by done.
      rewrite bind_unfold.
      destruct (goroutine_journal p phase (Z.of_nat idx) act w)
        as (r1 & w1 & new1 & -> & HCA1 & Hr1).
      destruct r1 as [sent|].
      * destruct Hr1 as (e & -> & Hp & Hn & Hi).
        destruct (IH (errCh ++ match sent with Some e => [e] | None => [] end) w1)
          as (r & w' & new & -> & HCA & Hph & Hpre & Hall).
        exists r, w', (e :: new). split; [done|].
        split; [by rewrite HCA, HCA1, <- app_assoc|].
        split; [by constructor|]. cbn. rewrite Hi. split.
        { by apply prefix_cons. }
        { intros Hr. by rewrite (Hall Hr). }
      * subst new1. exists Panic, w1, []. split; [done|]. split; [done|].
        split; [done|]. split; [apply prefix_nil|done].
    + apply lookup_ge_None in Hact. rewrite decide_False by lia. apply IH.
Qed.

End PhaseJournal.

Lemma filter_all {A} (P : A → Prop) `{∀ x, Decision (P x)} (l : list A) :
  Forall P l → filter P l = l.
Proof.
  induction 1 as [|x l Hx _ IH]; [done|]. by rewrite filter_cons_True, IH.
Qed.

(** Property X14.  A sequential phase adds one entry to the journal for each action it
    runs, in the order of the actions and with their indices 0, 1, 2, ...;
    it stops right after the first action that fails under abort_phase or
    abort_all, which is then the last entry and the only case in which an
    error is returned, and runs every action otherwise. *)
Theorem executeSequential_journal (env : Env) (o : orchestrator.Orchestrator)
    (p : Z) (phase : orchestrator.Phase)
    (w : World orchestrator.State orchestrator.State) :
  ∃ r w' new,
    orchestrator.executeSequential env o p phase w = (r, w')
    ∧ orchestrator.CompletedActions (cur w')
      = orchestrator.CompletedActions (cur w) ++ new
    ∧ orchestrator.ActionIndex <$> new = Z.of_nat <$> seq 0 (length new)
    ∧ Forall (λ e, orchestrator.PhaseIndex e = p
                   ∧ orchestrator.PhaseName e = orchestrator.Name phase) new
    ∧ (length new ≤ length (orchestrator.Actions phase))%nat
    ∧ (∀ j e a, new !! j = Some e → orchestrator.Actions phase !! j = Some a →
         orchestrator.aborts a e = true → S j = length new ∧ ∃ msg, r = Ret (Some msg))
    ∧ (r = Ret None → length new = length (orchestrator.Actions phase))
    ∧ (∀ msg, r = Ret (Some msg) →
         ∃ j e a, S j = length new ∧ new !! j = Some e
                  ∧ orchestrator.Actions phase !! j = Some a
                  ∧ orchestrator.aborts a e = true).
Proof.
  destruct (sequential_from_journal env o p phase (orchestrator.Actions phase) 0 w)
    as (r & w' & new & Hrun & HCA & Hidx & Hrest).
  exists r, w', new. split; [done|]. split; [done|]. split; [|done].
  rewrite Hidx. apply list_fmap_ext. intros ? j _. lia.
Qed.

(** Property X15.  A parallel phase adds one entry to the journal for each of its
    goroutines, in the order in which they finish, whatever the outcome of
    the actions and their on_error policies: when every action of the phase
    finishes once, the phase leaves exactly one entry per action. *)
Theorem executeParallel_journal (env : Env) (sched : Z → list nat)
    (o : orchestrator.Orchestrator) (p : Z) (phase : orchestrator.Phase)
    (w : World orchestrator.State orchestrator.State) :
  ∃ r w' new,
    orchestrator.executeParallel env sched o p phase w = (r, w')
    ∧ orchestrator.CompletedActions (cur w')
      = orchestrator.CompletedActions (cur w) ++ new
    ∧ Forall (λ e, orchestrator.PhaseIndex e = p
                   ∧ orchestrator.PhaseName e = orchestrator.Name phase) new
    ∧ (r ≠ Panic →
       sched p ≡ₚ seq 0 (length (orchestrator.Actions phase)) →
       orchestrator.ActionIndex <$> new = Z.of_nat <$> sched p
       ∧ length new = length (orchestrator.Actions phase)).
Proof.
  unfold orchestrator.executeParallel. rewrite bind_unfold.
  destruct (parallel_in_journal env o p phase (sched p) [] w)
    as (r & w' & new & -> & HCA & Hph & _ & Hall).
  destruct r as [errCh|].
  - cbn [ret]. eexists _, _, new. split; [done|]. split; [done|]. split; [done|].
    intros _ Hperm. rewrite Hall by done.
    assert (filter (λ idx, idx < length (orchestrator.Actions phase))%nat (sched p)
            = sched p) as Hf.
    { assert (Forall (λ idx, idx < length (orchestrator.Actions phase))%nat (sched p))
        as Hvalid.
      { apply Forall_forall. intros idx Hidx.
        rewrite Hperm in Hidx. apply elem_of_seq in Hidx. lia. }
      by apply filter_all. }
    rewrite Hf in Hall |- *. split; [done|].
    apply (f_equal length) in Hall; [|done]. rewrite !length_fmap in Hall.
    rewrite Hall, Hperm. apply length_seq.
  - exists Panic, w', new. split; [done|]. split; [done|]. split; [done|]. done.
Qed.

(** ** The orchestrator: recovery, panics and health checks *)

Section RecoverFacts.
Import orchestrator.
Variable env : Env.
Variable o : Orchestrator.

(** The loop of [Recover] only writes to the log. *)
Lemma recover_each_run acts : ∀ w : World State State,
  ∃ w', recover_each acts w = (Ret tt, w')
        ∧ cur w' = cur w
        ∧ trace w' = trace w
                     ++ replicate (length (filter (λ a, RecoveryCmd a ≠ "") acts))
                          (ELog "info" "Recovering action").
Proof.
  induction acts as [|a acts IH]; intros w.
  - exists w. by rewrite app_nil_r.
  - cbn [recover_each]. rewrite bind_unfold, filter_cons.
    destruct (nonempty (RecoveryCmd a)) eqn:E.
    + apply nonempty_spec in E. rewrite decide_True by done.
      cbn [log emit fst snd].
      destruct (IH {| cur := cur w; steps := steps w;
                      trace := trace w ++ [ELog "info" "Recovering action"] |})
        as (w' & -> & Hc & Ht).
      exists w'. split; [done|]. split; [done|]. rewrite Ht. cbn.
      by rewrite <- app_assoc.
    + rewrite decide_False.
      2:{ intros H%nonempty_spec. congruence. }
      cbn [ret]. apply IH.
Qed.

End RecoverFacts.

(** Property X16.  The orchestrator's [Recover] runs no command at all: for a session
    in progress or completed it logs the actions that have a recovery
    command, empties the journal, writes it to the state file twice and
    returns nil with the status idle; for any other status it changes
    nothing and returns "nothing to recover". *)
Theorem Recover_runs_no_command (env : Env) (o : orchestrator.Orchestrator)
    (w : World orchestrator.State orchestrator.State) :
  ∃ r w' ext,
    orchestrator.Recover env o w = (r, w')
    ∧ trace w' = trace w ++ ext
    ∧ (∀ e, e ∈ ext → runs_command e = false)
    ∧ if bool_decide (orchestrator.Status (cur w) = "in_progress")
         || bool_decide (orchestrator.Status (cur w) = "completed")
      then r = Ret None
           ∧ orchestrator.CompletedActions (cur w') = []
           ∧ orchestrator.Status (cur w') = "idle"
           ∧ last (documents ext) = Some (cur w')
      else r = Ret (Some "nothing to recover") ∧ ext = [].
Proof.
  unfold orchestrator.Recover.
  repeat (first [rewrite bind_unfold | rewrite saveState_run];
          cbn [ret now ask modify emit get log fst snd cur steps trace]).
  assert (negb (String.eqb (orchestrator.Status (cur w)) "in_progress")
          && negb (String.eqb (orchestrator.Status (cur w)) "completed")
          = negb (bool_decide (orchestrator.Status (cur w) = "in_progress")
                  || bool_decide (orchestrator.Status (cur w) = "completed"))) as ->.
  { destruct (String.eqb_spec (orchestrator.Status (cur w)) "in_progress"),
      (String.eqb_spec (orchestrator.Status (cur w)) "completed");
      repeat case_bool_decide; done. }
  destruct (_ || _); cbn [negb].
  2:{ exists (Ret (Some "nothing to recover")), w, []. rewrite app_nil_r.
      split; [done|]. split; [done|]. split; [|done]. by intros e ?%elem_of_nil. }
  repeat (first [rewrite bind_unfold | rewrite saveState_run];
          cbn [ret now ask modify emit get log fst snd cur steps trace]).
  match goal with |- context [notify env ?b ?ev ?w0] =>
    destruct (notify_run env b ev w0) as (w1 & l1 & -> & Hc1 & Ht1 & Hl1) end.
  repeat (first [rewrite bind_unfold | rewrite saveState_run];
          cbn [ret now ask modify emit get log fst snd cur steps trace]).
  match goal with |- context [orchestrator.recover_each ?l ?w0] =>
    destruct (recover_each_run l w0) as (w2 & -> & Hc2 & Ht2) end.
  repeat (first [rewrite bind_unfold | rewrite saveState_run];
          cbn [ret now ask modify emit get log fst snd cur steps trace]).
  match goal with |- context [notify env ?b ?ev ?w0] =>
    destruct (notify_run env b ev w0) as (w3 & l3 & -> & Hc3 & Ht3 & Hl3) end.
  cbn [cur trace] in Hc1, Ht1, Hc3, Ht3.
  eexists _, _, _. split; [done|].
  rewrite Ht3, Ht2, Ht1, Hc3, Hc2, Hc1, <- !app_assoc. split; [done|].
  set (logs := replicate _ _).
  set (n1 := if orchestrator.has_notifier o then _ else _).
  set (n3 := if orchestrator.has_notifier o then _ else _).
  assert (Forall (λ e : Effect orchestrator.State,
                    runs_command e = false ∧ documents [e] = []) n1) as Hn1.
  { subst n1. destruct (orchestrator.has_notifier o); [|done].
    by destruct Hl1 as [-> | ->]; repeat constructor. }
  assert (Forall (λ e : Effect orchestrator.State,
                    runs_command e = false ∧ documents [e] = []) n3) as Hn3.
  { subst n3. destruct (orchestrator.has_notifier o); [|done].
    by destruct Hl3 as [-> | ->]; repeat constructor. }
  assert (Forall (λ e : Effect orchestrator.State,
                    runs_command e = false ∧ documents [e] = []) logs) as Hlogs.
  { subst logs. apply Forall_replicate. done. }
  clearbody n1 n3 logs.
  assert (∀ l : list (Effect orchestrator.State),
            Forall (λ e, runs_command e = false ∧ documents [e] = []) l →
            documents l = []) as Hdocs.
  { induction 1 as [|e l [_ He] _ IH]; [done|].
    change (e :: l) with ([e] ++ l). by rewrite documents_app, He, IH. }
  split.
  - apply Forall_forall.
    repeat first [apply Forall_cons; split; [done|] | apply Forall_app; split
                 | apply Forall_nil ];
      try (eapply Forall_impl; [eassumption|by intros ? [? _]]).
  - split; [done|]. split; [done|]. split; [done|].
    change (?a :: ?b :: ?l) with ([a; b] ++ l).
    rewrite !documents_app, (Hdocs _ Hn1), (Hdocs _ Hlogs), (Hdocs _ Hn3).
    cbn. done.
Qed.

Section Returns.
Context {S D : Type}.

Lemma returns_ret {A} (a : A) (Q : A → Prop) : Q a → returns (S:=S) (D:=D) (ret a) Q.
Proof. by intros Ha w. Qed.

Lemma returns_bind {A B} (c : M S D A) (k : A → M S D B) (P : A → Prop) (Q : B → Prop) :
  returns c P → (∀ a, P a → returns (k a) Q) → returns (bind c k) Q.
Proof.
  intros Hc Hk w. unfold bind. specialize (Hc w).
  destruct (c w) as [[a|] w']; cbn in *; [|done]. by apply Hk.
Qed.

Lemma returns_any {A} (c : M S D A) (Q : A → Prop) :
  (∀ w, ∃ a w', c w = (Ret a, w') ∧ Q a) → returns c Q.
Proof. intros H w. by destruct (H w) as (a & w' & -> & Ha). Qed.

Lemma returns_weaken {A} (c : M S D A) (P Q : A → Prop) :
  returns c P → (∀ a, P a → Q a) → returns c Q.
Proof. intros Hc HPQ w. specialize (Hc w). destruct (c w).1; auto. Qed.

Lemma returns_emit e : returns (S:=S) (D:=D) (emit e) (λ _, True).
Proof. by intros w. Qed.

Lemma returns_ask {A} (answer : nat → A) : returns (S:=S) (D:=D) (ask answer) (λ _, True).
Proof. by intros w. Qed.

Lemma returns_modify f : returns (S:=S) (D:=D) (modify f) (λ _, True).
Proof. by intros w. Qed.

Lemma returns_notify env b ev : returns (S:=S) (D:=D) (notify env b ev) (λ _, True).
Proof. intros w. by destruct (notify_run env b ev w) as (w' & l & -> & _). Qed.

End Returns.

Section NoPanic.
Import executor.

Lemma retry_loop_answers exec done ctxErr retry (left : nat) :
  ∀ attempt delay last slept,
  (∀ i, answers (exec i)) →
  (left = 0%nat → answers last) →
  ∃ out, retry_loop exec done ctxErr retry left attempt delay last slept = Ret out
         ∧ answers (returned out).
Proof.
  induction left as [|left IH]; intros attempt delay last slept Hexec Hlast.
  - eexists. split; [done|]. cbn. specialize (Hlast eq_refl).
    destruct last as [[r|] [e|]]; done.
  - cbn. specialize (Hexec (Z.to_nat (attempt - 1))) as Ho.
    destruct (exec (Z.to_nat (attempt - 1))) as [[r|] [e|]] eqn:Eo; cbn; try done.
    + destruct (attempt <? Attempts retry).
      * destruct (done _); [by eexists|]. apply IH; [done|done].
      * apply IH; [done|done].
    + destruct (Success r); [by eexists|].
      destruct (attempt <? Attempts retry).
      * destruct (done _); [by eexists|]. apply IH; [done|done].
      * apply IH; [done|done].
    + destruct (attempt <? Attempts retry).
      * destruct (done _); [by eexists|]. apply IH; [done|done].
      * apply IH; [done|done].
Qed.

Lemma ExecuteWithRetry_answers exec done ctxErr retry :
  (∀ i, answers (exec i)) →
  ∃ out, ExecuteWithRetry exec done ctxErr retry = Ret out ∧ answers (returned out).
Proof.
  intros Hexec. unfold ExecuteWithRetry.
  destruct retry as [rc|]; [|eexists; split; [done|apply Hexec]].
  destruct (Attempts rc <=? 1) eqn:E; [eexists; split; [done|apply Hexec]|].
  apply Z.leb_gt in E. apply retry_loop_answers; [done|lia].
Qed.

End NoPanic.

Section OrchestratorReturns.
Import orchestrator.
Variable env : Env.
Variable sched : Z → list nat.
Variable o : Orchestrator.

Lemma returns_saveState : returns (saveState env o) (λ _, True).
Proof. intros w. by rewrite saveState_run. Qed.

Lemma returns_call_executor p i action :
  well_behaved action → returns (call_executor env p i action) executor.answers.
Proof.
  intros Hwb. unfold call_executor.
  apply (returns_bind _ _ (λ _, True)); [apply returns_emit|intros _ _].
  destruct (Retry action) as [rc|]; [|by apply returns_ret].
  intros w.
  destruct (ExecuteWithRetry_answers (executor.Execute (Executor action))
              (λ k, ctx_done env (steps w + k)%nat) (ctx_err env) (Some rc) Hwb)
    as (out & -> & Hout). done.
Qed.

Lemma returns_executeAction p name i action :
  well_behaved action →
  returns (executeAction env p name i action) executor.answers.
Proof.
  intros Hwb. unfold executeAction.
  apply (returns_bind _ _ (λ _, True)); [apply returns_emit|intros _ _].
  apply (returns_bind _ _ executor.answers); [by apply returns_call_executor|].
  intros [result [e|]] Hout.
  { apply (returns_bind _ _ (λ _, True)); [apply returns_emit|intros _ _].
    by apply returns_ret. }
  apply (returns_bind _ _ (λ _, True)).
  { destruct (Healthcheck action); [|by apply returns_ret].
    apply (returns_bind _ _ (λ _, True)); [apply returns_emit|intros _ _].
    destruct (executor.Healthcheck (Executor action)). by apply returns_ret. }
  intros [|] _.
  - apply (returns_bind _ _ (λ _, True)); [apply returns_emit|intros _ _].
    by apply returns_ret.
  - destruct result as [r|]; [|done].
    apply (returns_bind _ _ (λ _, True)); [apply returns_emit|intros _ _].
    by apply returns_ret.
Qed.

Lemma returns_track p phase i action out :
  executor.answers out → returns (track env o p phase i action out) (λ _, True).
Proof.
  intros Hout w. rewrite track_run.
  by destruct out as [[r|] [e|]].
Qed.

Lemma returns_sequential_from p phase actions : ∀ i,
  Forall well_behaved actions →
  returns (sequential_from env o p phase i actions) (λ _, True).
Proof.
  induction actions as [|action rest IH]; intros i Hwb; cbn [sequential_from].
  { by apply returns_ret. }
  inversion Hwb as [|? ? Ha Hrest]; subst.
  apply (returns_bind _ _ (λ _, True)); [apply returns_ask|intros t _].
  apply (returns_bind _ _ (λ _, True)); [apply returns_modify|intros _ _].
  apply (returns_bind _ _ (λ _, True)); [apply returns_saveState|intros _ _].
  apply (returns_bind _ _ executor.answers); [by apply returns_executeAction|intros out Hout].
  apply (returns_bind _ _ (λ _, True)); [by apply returns_track|intros ok _].
  destruct ok; cbn [negb]; [by apply IH|].
  repeat (destruct (String.eqb _ _)); try (by apply IH); try (by apply returns_ret).
  apply (returns_bind _ _ (λ _, True)); [apply returns_emit|intros _ _]. by apply IH.
Qed.

Lemma returns_parallel_in p phase order : ∀ errCh,
  Forall well_behaved (Actions phase) →
  returns (parallel_in env o p phase order errCh) (λ _, True).
Proof.
  induction order as [|idx order IH]; intros errCh Hwb; cbn [parallel_in].
  { by apply returns_ret. }
  destruct (Actions phase !! idx) as [act|] eqn:Hact; [|by apply IH].
  assert (well_behaved act) as Ha.
  { rewrite Forall_forall in Hwb. apply Hwb. by eapply list_elem_of_lookup_2. }
  apply (returns_bind _ _ (λ _, True)); [|intros sent _; by apply IH].
  unfold goroutine.
  apply (returns_bind _ _ executor.answers); [by apply returns_executeAction|intros out Hout].
  apply (returns_bind _ _ (λ _, True)); [by apply returns_track|intros ok _].
  by apply returns_ret.
Qed.

Lemma returns_executePhase p phase :
  Forall well_behaved (Actions phase) →
  returns (executePhase env sched o p phase) (λ _, True).
Proof.
  intros Hwb. unfold executePhase, executeParallel, executeSequential.
  destruct (Parallel phase).
  - apply (returns_bind _ _ (λ _, True)); [by apply returns_parallel_in|intros ? _].
    by apply returns_ret.
  - by apply returns_sequential_from.
Qed.

Lemma returns_phases_from ps : ∀ i,
  Forall (λ phase, Forall well_behaved (Actions phase)) ps →
  returns (phases_from env sched o i ps) (λ _, True).
Proof.
  induction ps as [|phase rest IH]; intros i Hwb; cbn [phases_from].
  { by apply returns_ret. }
  inversion Hwb as [|? ? Ha Hrest]; subst.
  apply (returns_bind _ _ (λ _, True)); [apply returns_emit|intros _ _].
  apply (returns_bind _ _ (λ _, True)); [apply returns_ask|intros t _].
  apply (returns_bind _ _ (λ _, True)); [apply returns_modify|intros _ _].
  apply (returns_bind _ _ (λ _, True)); [apply returns_saveState|intros _ _].
  apply (returns_bind _ _ (λ _, True)); [apply returns_notify|intros _ _].
  apply (returns_bind _ _ (λ _, True)); [by apply returns_executePhase|intros err _].
  apply (returns_bind _ _ (λ _, True)).
  { destruct err; [apply returns_emit|by apply returns_ret]. }
  intros _ _.
  apply (returns_bind _ _ (λ _, True)); [apply returns_notify|intros _ _].
  by apply IH.
Qed.

End OrchestratorReturns.

(** Property X17.  [Execute] always returns, provided no executor of the plan ever
    hands back a nil result together with a nil error: it does not panic,
    whatever the executors, the file system, the notifier and the context
    answer otherwise. *)
Theorem Execute_returns (env : Env) (sched : Z → list nat)
    (o : orchestrator.Orchestrator) (trigger : string)
    (w : World orchestrator.State orchestrator.State) :
  (∀ phase action k,
     phase ∈ orchestrator.phases o →
     action ∈ orchestrator.Actions phase →
     executor.Execute (orchestrator.Executor action) k ≠ (None, None)) →
  ∃ err w', orchestrator.Execute env sched o trigger w = (Ret err, w').
Proof.
  intros Hwb.
  pose proof (Execute_run env sched o trigger w) as H. cbv zeta in H.
  destruct (os_err env (S (S (S (steps w))))) as [e|]; [by eexists _, _|].
  destruct H as (w1 & r2 & w2 & Hn1 & Hp & H).
  pose proof (returns_phases_from env sched o (orchestrator.phases o) 0) as Hret.
  specialize (Hret ltac:(apply Forall_forall; intros phase Hphase;
                         apply Forall_forall; intros action Haction k;
                         by eapply Hwb) w1).
  rewrite Hp in Hret. cbn in Hret. destruct r2 as [[]|]; [|done].
  destruct H as (w4 & _ & ->). by eexists _, _.
Qed.

(** Property X18.  What the journal says of an action run once (no retry policy): the
    entry is a success exactly when the executor returned a successful
    result with a nil error and the health check, if one is configured,
    passed without error; a health check that fails turns the action into
    a failure with the error "healthcheck failed", whatever the command
    did; the health check is run exactly when one is configured and the
    executor returned a nil error. *)
Theorem action_journal_entry (env : Env) (o : orchestrator.Orchestrator) (p : Z)
    (phase : orchestrator.Phase) (i : Z) (action : orchestrator.Action)
    (w : World orchestrator.State orchestrator.State) :
  orchestrator.Retry action = None →
  let answer := executor.Execute (orchestrator.Executor action) 0 in
  let check := executor.Healthcheck (orchestrator.Executor action) in
  let healthy := match orchestrator.Healthcheck action with
                 | None => true
                 | Some _ => check.1 && bool_decide (check.2 = None)
                 end in
  answer ≠ (None, None) →
  ∃ out w1 ok w2 e ext,
    orchestrator.executeAction env p (orchestrator.Name phase) i action w = (Ret out, w1)
    ∧ orchestrator.track env o p phase i action out w1 = (Ret ok, w2)
    ∧ orchestrator.CompletedActions (cur w2)
      = orchestrator.CompletedActions (cur w) ++ [e]
    ∧ trace w2 = trace w ++ ext
    ∧ orchestrator.Success e = ok
    ∧ (ok = true ↔
       ∃ r, answer = (Some r, None) ∧ executor.Success r = true ∧ healthy = true)
    ∧ orchestrator.Error e
      = match answer with
        | (_, Some err) => err
        | (res, None) =>
            if healthy then
              match res with
              | Some r => if executor.Success r then "" else executor.Error r
              | None => ""
              end
            else "healthcheck failed"
        end
    ∧ (EHealthcheck p i ∈ ext ↔
       answer.2 = None ∧ orchestrator.Healthcheck action ≠ None).
Proof.
  intros Hretry answer check healthy Hans.
  unfold orchestrator.executeAction, orchestrator.call_executor. rewrite Hretry.
  repeat (rewrite bind_unfold; cbn [ret now ask modify emit get log fst snd cur steps trace]).
  fold answer. subst healthy.
  destruct answer as [res [err|]] eqn:Ea.
  - repeat (rewrite bind_unfold; cbn [ret now ask modify emit get log fst snd cur steps trace]).
    eexists _, _, _, _, _, _. split; [done|]. rewrite track_run.
    assert (executor.succeeded (res, Some err) = Ret false) as -> by (by destruct res).
    cbn.
    split; [done|]. split; [done|]. rewrite <- !app_assoc. split; [done|].
    split; [done|]. split; [split; [done|by intros (r & [=] & _)]|].
    split; [done|]. split; [|by intros [[=] _]].
    intros Hin. repeat (apply elem_of_cons in Hin as [?|Hin]; [done|]).
    by apply elem_of_nil in Hin.
  - destruct (orchestrator.Healthcheck action) as [hc|] eqn:Ehc.
    + repeat (rewrite bind_unfold; cbn [ret now ask modify emit get log fst snd cur steps trace]).
      subst check. destruct (executor.Healthcheck (orchestrator.Executor action))
        as [okh hcErr] eqn:Eh.
      cbn [ret fst snd].
      assert (bool_decide (hcErr ≠ None) || negb okh
              = negb (okh && bool_decide (hcErr = None))) as ->.
      { destruct okh, hcErr; done. }
      destruct (okh && bool_decide (hcErr = None)) eqn:Eok; cbn [negb].
      * destruct res as [r|]; [|done].
        repeat (rewrite bind_unfold; cbn [ret now ask modify emit get log fst snd cur steps trace]).
        eexists _, _, _, _, _, _. split; [done|]. rewrite track_run. cbn.
        split; [done|]. split; [done|]. rewrite <- !app_assoc. split; [done|].
        split; [done|]. split.
        { split; [intros Hr; by exists r|]. by intros (r' & [= <-] & ? & _). }
        split; [done|]. split; [by intros _|]. intros _.
        cbn [app]. rewrite !elem_of_cons. auto.
      * repeat (rewrite bind_unfold; cbn [ret now ask modify emit get log fst snd cur steps trace]).
        eexists _, _, _, _, _, _. split; [done|]. rewrite track_run.
        assert (executor.succeeded (res, Some "healthcheck failed") = Ret false)
          as -> by (by destruct res).
        cbn.
        split; [done|]. split; [done|]. rewrite <- !app_assoc. split; [done|].
        split; [done|]. split; [split; [done|by intros (r & _ & _ & [=])]|].
        split; [done|]. split; [by intros _|]. intros _.
        cbn [app]. rewrite !elem_of_cons. auto.
    + destruct res as [r|]; [|done].
      repeat (rewrite bind_unfold; cbn [ret now ask modify emit get log fst snd cur steps trace]).
      eexists _, _, _, _, _, _. split; [done|]. rewrite track_run. cbn.
      split; [done|]. split; [done|]. rewrite <- !app_assoc. split; [done|].
      split; [done|]. split.
      { split; [intros Hr; by exists r|]. by intros (r' & [= <-] & ? & _). }
      split; [done|]. split; [|by intros [_ ?]].
      intros Hin. repeat (apply elem_of_cons in Hin as [?|Hin]; [done|]).
      by apply elem_of_nil in Hin.
Qed.

(** ** The recovery manager *)

Section RecoverActionFacts.
Import recovery.
Variable env : Env.
Variable recovers : nat → nat → executor.outcome.
Variable m : Manager.

Lemma recover_calls_app {D} (tr1 tr2 : list (Effect D)) :
  recover_calls (tr1 ++ tr2) = recover_calls tr1 ++ recover_calls tr2.
Proof. apply omap_app. Qed.

Lemma waited_app {D} (tr1 tr2 : list (Effect D)) :
  waited (tr1 ++ tr2) = waited tr1 ++ waited tr2.
Proof. apply omap_app. Qed.

Lemma calls_and_waits_app {D} (tr1 tr2 : list (Effect D)) :
  calls_and_waits (tr1 ++ tr2) = calls_and_waits tr1 ++ calls_and_waits tr2.
Proof. apply omap_app. Qed.

Lemma recover_calls_of_calls_and_waits {D} (tr : list (Effect D)) :
  recover_calls tr
  = omap (λ x, match x with inl c => Some c | inr _ => None end) (calls_and_waits tr).
Proof.
  induction tr as [|e tr IH]; [done|]. change (e :: tr) with ([e] ++ tr).
  rewrite recover_calls_app, calls_and_waits_app, omap_app, IH. by destruct e.
Qed.

Lemma waited_of_calls_and_waits {D} (tr : list (Effect D)) :
  waited tr
  = omap (λ x, match x with inl _ => None | inr d => Some d end) (calls_and_waits tr).
Proof.
  induction tr as [|e tr IH]; [done|]. change (e :: tr) with ([e] ++ tr).
  rewrite waited_app, calls_and_waits_app, omap_app, IH. by destruct e.
Qed.

Lemma attempts_trace_calls i n : ∀ attempt cut,
  omap (λ x, match x with inl c => Some c | inr _ => None end)
    (attempts_trace i attempt n cut)
  = (λ k, (i, attempt + Z.of_nat k)) <$> seq 0 n.
Proof.
  induction n as [|n IH]; intros attempt cut; [done|].
  cbn [attempts_trace]. rewrite <- cons_seq, fmap_cons, Z.add_0_r.
  cbn [omap list_omap]. f_equal.
  rewrite <- fmap_S_seq, <- list_fmap_compose.
  destruct n as [|n'].
  - by destruct cut.
  - cbn [omap list_omap]. rewrite IH. apply list_fmap_ext. intros ? k _. cbn.
    f_equal. lia.
Qed.

Lemma attempts_trace_waits i n : ∀ attempt cut,
  omap (λ x, match x with inl _ => None | inr d => Some d end)
    (attempts_trace i attempt n cut)
  = replicate (n - 1 + (if cut && bool_decide (n ≠ 0%nat) then 1 else 0))
      (5 * 1000000000).
Proof.
  induction n as [|n IH]; intros attempt cut.
  - cbn. by rewrite andb_false_r.
  - cbn [attempts_trace omap list_omap]. destruct n as [|n'].
    + by destruct cut.
    + cbn [omap list_omap]. rewrite IH.
      rewrite !bool_decide_eq_true_2 by done.
      replace (S (S n') - 1 + (if cut && true then 1 else 0))%nat
        with (S (S n' - 1 + (if cut && true then 1 else 0)))%nat by lia.
      done.
Qed.

(** The loop of [recoverAction], call by call. *)
Lemma recover_attempts_exact i exec (left : nat) :
  ∀ attempt lastErr (w : World state.Manager state.State),
  1 ≤ attempt →
  Z.of_nat left = Z.max 0 (MaxRetries (config m) - attempt + 1) →
  ∃ r w' ext n cut,
    recover_attempts env m i exec left attempt lastErr w = (r, w')
    ∧ cur w' = cur w
    ∧ trace w' = trace w ++ ext
    ∧ calls_and_waits ext = attempts_trace i attempt n cut
    ∧ (n ≤ left)%nat
    ∧ (∀ k, (S k < n)%nat →
         executor.succeeded (exec (Z.to_nat (attempt - 1) + k)%nat) = Ret false)
    ∧ match n with
      | O => left = 0%nat ∧ r = Ret lastErr ∧ cut = false
      | S k =>
          match executor.succeeded (exec (Z.to_nat (attempt - 1) + k)%nat) with
          | Ret true => r = Ret None ∧ cut = false
          | Panic => r = Panic ∧ cut = false
          | Ret false =>
              if cut then r = Ret (Some (ctx_err env)) ∧ (S k < left)%nat
              else S k = left ∧ ∃ e, r = Ret (Some e)
          end
      end.
Proof.
  induction left as [|left IH]; intros attempt lastErr w Hge Hleft.
  { exists (Ret lastErr), w, [], 0%nat, false. rewrite app_nil_r.
    repeat split; try done. intros k Hk. lia. }
  cbn [recover_attempts].
  repeat (rewrite bind_unfold; cbn [emit fst snd cur steps trace]).
  destruct (executor.succeeded (exec (Z.to_nat (attempt - 1)))) as [[|]|] eqn:Hs.
  - eexists (Ret None), _, [ERecover i attempt], 1%nat, false.
    split; [done|]. split; [done|]. split; [done|]. split; [done|].
    split; [lia|]. split; [intros k Hk; lia|].
    rewrite Nat.add_0_r, Hs. done.
  - set (lastErr' := match (exec (Z.to_nat (attempt - 1))).1 with
                     | Some r =>
                         if negb (executor.Success r)
                         then Some ("recovery failed: " +:+ executor.Error r)
                         else (exec (Z.to_nat (attempt - 1))).2
                     | None => (exec (Z.to_nat (attempt - 1))).2
                     end).
    assert (∃ e, lastErr' = Some e) as [e He].
    { subst lastErr'. destruct (exec (Z.to_nat (attempt - 1))) as [[r|] [e|]];
        cbn in *; try done; try (destruct (executor.Success r)); cbn in *;
        try done; by eauto. }
    destruct (Z.ltb_spec attempt (MaxRetries (config m))) as [Hlt|Hlast].
    + unfold select_done.
      repeat (rewrite bind_unfold; cbn [log emit ask fst snd cur steps trace]).
      destruct (ctx_done env (steps w)).
      * cbn [ret]. eexists _, _, _, 1%nat, true. split; [done|]. cbn [cur trace].
        split; [done|]. rewrite <- !app_assoc. split; [done|].
        split; [done|]. split; [lia|]. split; [intros k Hk; lia|].
        rewrite Nat.add_0_r, Hs. split; [done|]. lia.
      * match goal with |- context [recover_attempts env m i exec left ?a ?l ?w0] =>
          destruct (IH a l w0) as (r & w' & ext & n & cut & Hrun & Hc & Ht & Hcw
                                   & Hn & Hfail & Hres); [lia|lia|] end.
        cbn [cur trace] in Hc, Ht.
        destruct n as [|k]; [destruct Hres as [? _]; lia|].
        exists r, w', (ERecover i attempt
                       :: ELog "debug" "Recovery attempt failed, retrying"
                       :: EWait (5 * 1000000000) :: ext), (S (S k)), cut.
        split; [done|]. split; [done|].
        split; [by rewrite Ht, <- !app_assoc|].
        split.
        { change (calls_and_waits
                    (ERecover i attempt
                     :: ELog "debug" "Recovery attempt failed, retrying"
                     :: EWait (5 * 1000000000) :: ext))
            with (inl (i, attempt) :: inr (5 * 1000000000)
                  :: calls_and_waits (D:=state.State) ext).
          by rewrite Hcw. }
        split; [lia|]. split.
        { intros [|j] Hj; [by rewrite Nat.add_0_r|].
          replace (Z.to_nat (attempt - 1) + S j)%nat
            with (Z.to_nat (attempt + 1 - 1) + j)%nat by lia.
          apply Hfail. lia. }
        replace (Z.to_nat (attempt - 1) + S k)%nat
          with (Z.to_nat (attempt + 1 - 1) + k)%nat by lia.
        revert Hres.
        destruct (executor.succeeded (exec (Z.to_nat (attempt + 1 - 1) + k)%nat))
          as [[|]|]; [done| |done].
        destruct cut; intros [? ?]; split; done || lia.
    + assert (left = 0%nat) as -> by lia. cbn [recover_attempts ret].
      eexists _, _, [ERecover i attempt], 1%nat, false.
      split; [done|]. split; [done|]. split; [done|]. split; [done|].
      split; [lia|]. split; [intros k Hk; lia|].
      rewrite Nat.add_0_r, Hs. split; [done|]. exists e. by rewrite He.
  - eexists Panic, _, [ERecover i attempt], 1%nat, false.
    split; [done|]. split; [done|]. split; [done|]. split; [done|].
    split; [lia|]. split; [intros k Hk; lia|].
    rewrite Nat.add_0_r, Hs. done.
Qed.

Lemma existsb_calls_last i (n : nat) :
  (∀ k, (S k < n)%nat → executor.succeeded (recovers i k) = Ret false) →
  existsb (λ c : nat * Z, (c.1 =? i)%nat && call_succeeded recovers c)
    ((λ k, (i, 1 + Z.of_nat k)) <$> seq 0 n)
  = match n with
    | O => false
    | S k => match executor.succeeded (recovers i k) with
             | Ret true => true
             | _ => false
             end
    end.
Proof.
  induction n as [|n IH]; intros Hfail; [done|].
  rewrite seq_S, fmap_app, existsb_app. cbn [fmap list_fmap existsb].
  rewrite IH by (intros k Hk; apply Hfail; lia).
  rewrite Nat.eqb_refl, orb_false_r. cbn [andb Nat.add].
  unfold call_succeeded. cbn [fst snd].
  replace (Z.to_nat (1 + Z.of_nat n - 1)) with n by lia.
  destruct n as [|k]; [done|].
  rewrite (Hfail k) by lia. done.
Qed.

(** [recoverAction]: what it returns, and what it calls. *)
Lemma recoverAction_exact i action (w : World state.Manager state.State) :
  ∃ r w' ext n cut,
    recoverAction env recovers m i action w = (r, w')
    ∧ cur w' = cur w
    ∧ trace w' = trace w ++ ext
    ∧ calls_and_waits ext = attempts_trace i 1 n cut
    ∧ Z.of_nat n ≤ Z.max 0 (MaxRetries (config m))
    ∧ (∀ k, (S k < n)%nat → executor.succeeded (recovers i k) = Ret false)
    ∧ ((0 < n)%nat ↔
       state.Recovery (state.Spec action) ≠ ""
       ∧ (state.spec_Type (state.Spec action) = "ssh"
          ∨ state.spec_Type (state.Spec action) = "local")
       ∧ 0 < MaxRetries (config m))
    ∧ (cut = true →
       (0 < n)%nat ∧ r = Ret (Some (ctx_err env))
       ∧ Z.of_nat n < MaxRetries (config m))
    ∧ recovered recovers ext i
      = match n with
        | O => false
        | S k => match executor.succeeded (recovers i k) with
                 | Ret true => true
                 | _ => false
                 end
        end
    ∧ match r with
      | Ret None => without_error m recovers ext i action = true
      | Ret (Some _) => without_error m recovers ext i action = false
      | Panic => ∃ k, n = S k ∧ recovers i k = (None, None)
      end.
Proof.
  unfold recoverAction, without_error.
  destruct (nonempty (state.Recovery (state.Spec action))) eqn:Hrec; cbn [negb orb].
  2:{ exists (Ret None), w, [], 0%nat, false. rewrite app_nil_r.
      split; [done|]. split; [done|]. split; [done|]. split; [done|].
      split; [lia|]. split; [intros k Hk; lia|]. split; [|done].
      split; [lia|]. intros (Hne & _). apply nonempty_spec in Hne. congruence. }
  apply nonempty_spec in Hrec.
  destruct (decide (state.spec_Type (state.Spec action) = "ssh"
                    ∨ state.spec_Type (state.Spec action) = "local")) as [Htype|Htype].
  2:{ rewrite bool_decide_eq_false_2 by done. cbn [andb].
      assert (∃ e, createExecutor recovers i (state.Spec action) = inr e) as [e ->].
      { unfold createExecutor.
        destruct (String.eqb_spec (state.spec_Type (state.Spec action)) "ssh");
          [tauto|].
        destruct (String.eqb_spec (state.spec_Type (state.Spec action)) "local");
          [tauto|].
        repeat (destruct (String.eqb _ _)); by eexists. }
      eexists _, w, [], 0%nat, false. rewrite app_nil_r.
      split; [done|]. split; [done|]. split; [done|]. split; [done|].
      split; [lia|]. split; [intros k Hk; lia|]. split; [|done].
      split; [lia|]. intros (_ & ? & _). done. }
  rewrite bool_decide_eq_true_2 by done. cbn [andb].
  assert (createExecutor recovers i (state.Spec action) = inl (recovers i)) as ->.
  { unfold createExecutor. destruct Htype as [-> | ->]; done. }
  destruct (recover_attempts_exact i (recovers i) (Z.to_nat (MaxRetries (config m)))
              1 None w) as (r & w' & ext & n & cut & Hrun & Hc & Ht & Hcw & Hn
                            & Hfail & Hres); [lia|lia|].
  exists r, w', ext, n, cut.
  split; [done|]. split; [done|]. split; [done|]. split; [done|].
  change (Z.to_nat (1 - 1)) with 0%nat in Hfail. cbn [Nat.add] in Hfail.
  split; [lia|]. split; [exact Hfail|].
  assert (recovered recovers ext i
          = match n with
            | O => false
            | S k => match executor.succeeded (recovers i k) with
                     | Ret true => true
                     | _ => false
                     end
            end) as Hrecd.
  { unfold recovered.
    rewrite recover_calls_of_calls_and_waits, Hcw, attempts_trace_calls.
    by apply existsb_calls_last. }
  rewrite Hrecd. change (Z.to_nat (1 - 1)) with 0%nat in Hres.
  cbn [Nat.add] in Hres.
  destruct n as [|k].
  - destruct Hres as (Hz & -> & ->).
    split; [split; [lia|]; intros (_ & _ & ?); lia|]. split; [done|].
    split; [done|].
    rewrite orb_false_r. apply Z.leb_le. lia.
  - split; [split; [intros _; split; [done|]; split; [done|]; lia | lia]|].
    assert ((MaxRetries (config m) <=? 0) = false) as -> by (apply Z.leb_gt; lia).
    cbn [orb].
    destruct (executor.succeeded (recovers i k)) as [[|]|] eqn:Hk.
    + destruct Hres as [-> ->]. done.
    + destruct cut.
      * destruct Hres as [-> ?].
        split; [intros _; split; [lia|]; split; [done|lia]|done].
      * destruct Hres as [? [e ->]]. done.
    + destruct Hres as [-> ->]. split; [done|]. split; [done|].
      exists k. split; [done|].
      by destruct (recovers i k) as [[?|] [?|]].
Qed.

Lemma recovered_app (tr1 tr2 : list (Effect state.State)) (i : nat) :
  recovered recovers (tr1 ++ tr2) i
  = recovered recovers tr1 i || recovered recovers tr2 i.
Proof. unfold recovered. by rewrite recover_calls_app, existsb_app. Qed.

Lemma recovered_elsewhere (tr : list (Effect state.State)) (i : nat) :
  Forall (λ c : nat * Z, c.1 ≠ i) (recover_calls tr) →
  recovered recovers tr i = false.
Proof.
  unfold recovered. induction 1 as [|c l Hc _ IH]; [done|].
  cbn [existsb]. rewrite IH, orb_false_r.
  destruct (Nat.eqb_spec c.1 i); done.
Qed.

Lemma without_error_recovered (tr tr' : list (Effect state.State)) i a :
  recovered recovers tr i = recovered recovers tr' i →
  without_error m recovers tr i a = without_error m recovers tr' i a.
Proof. unfold without_error. by intros ->. Qed.

(** The loop of [Execute] over the recovery list, entry by entry. *)
Lemma recover_from_exact acts : ∀ i errs cnt (w : World state.Manager state.State),
  ∃ r w' ext,
    recover_from env recovers m i acts errs cnt w = (r, w')
    ∧ cur w' = cur w
    ∧ trace w' = trace w ++ ext
    ∧ Forall (λ c : nat * Z, i ≤ c.1 < i + length acts)%nat (recover_calls ext)
    ∧ match r with
      | Ret res =>
          let ok := imap (λ j a, without_error m recovers ext (i + j) a) acts in
          length res.1 = (length errs + length (filter (λ b, b = false) ok))%nat
          ∧ res.2 = cnt + Z.of_nat (length (filter (λ b, b = true) ok))
          ∧ (∀ j a, acts !! j = Some a →
               state.Recovery (state.Spec a) ≠ "" →
               state.spec_Type (state.Spec a) = "ssh"
               ∨ state.spec_Type (state.Spec a) = "local" →
               0 < MaxRetries (config m) →
               ((i + j)%nat, 1) ∈ recover_calls ext)
      | Panic => ∃ j k, recovers j k = (None, None)
      end.
Proof.
  induction acts as [|action rest IH]; intros i errs cnt w; cbn [recover_from].
  { exists (Ret (errs, cnt)), w, []. rewrite app_nil_r.
    split; [done|]. split; [done|]. split; [done|]. split; [done|].
    cbn. split; [lia|]. split; [lia|]. done. }
  repeat (rewrite bind_unfold; cbn [log emit fst snd]).
  match goal with |- context [recoverAction env recovers m i action ?w0] =>
    destruct (recoverAction_exact i action w0)
      as (r1 & w1 & e1 & n1 & cut1 & -> & Hc1 & Ht1 & Hcw1 & _ & _ & Hn1 & _ & _ & Hr1) end.
  cbn [cur trace] in Hc1, Ht1.
  assert (recover_calls e1 = (λ k, (i, 1 + Z.of_nat k)) <$> seq 0 n1) as Hk1.
  { by rewrite recover_calls_of_calls_and_waits, Hcw1, attempts_trace_calls. }
  assert (Forall (λ c : nat * Z, c.1 = i) (recover_calls e1)) as Hat1.
  { rewrite Hk1. apply Forall_fmap, Forall_true. done. }
  assert (∀ (r : run (list error * Z)) (w' : World state.Manager state.State)
            (ext2 e0 : list (Effect state.State)),
            recover_calls e0 = [] →
            trace w' = (trace w ++ [ELog "info" "Recovering action"] ++ e1 ++ e0) ++ ext2 →
            Forall (λ c : nat * Z, S i ≤ c.1 < S i + length rest)%nat
              (recover_calls ext2) →
            ∃ ext,
              trace w' = trace w ++ ext
              ∧ Forall (λ c : nat * Z, i ≤ c.1 < i + length (action :: rest))%nat
                  (recover_calls ext)
              ∧ without_error m recovers ext (i + 0) action
                = without_error m recovers e1 i action
              ∧ imap ((λ j a, without_error m recovers ext (i + j) a) ∘ S) rest
                = imap (λ j a, without_error m recovers ext2 (S i + j) a) rest
              ∧ (∀ c, c ∈ recover_calls e1 ∨ c ∈ recover_calls ext2 →
                      c ∈ recover_calls ext)) as Hglue.
  { intros r w' ext2 e0 He0 Ht Hin2.
    exists ([ELog "info" "Recovering action"] ++ e1 ++ e0 ++ ext2).
    split; [by rewrite Ht, <- !app_assoc|].
    assert (recover_calls ([ELog "info" "Recovering action"] ++ e1 ++ e0 ++ ext2)
            = recover_calls e1 ++ recover_calls ext2) as Hcalls.
    { rewrite !recover_calls_app, He0. done. }
    rewrite Hcalls. split; [|split; [|split]].
    - apply Forall_app. split.
      + eapply Forall_impl; [exact Hat1|]. intros c ->. cbn. lia.
      + eapply Forall_impl; [exact Hin2|]. intros c. cbn. lia.
    - rewrite Nat.add_0_r. apply without_error_recovered.
      unfold recovered at 1. rewrite Hcalls, existsb_app.
      fold (recovered recovers e1 i). fold (recovered recovers ext2 i).
      rewrite (recovered_elsewhere ext2 i), orb_false_r; [done|].
      eapply Forall_impl; [exact Hin2|]. intros c. cbn. lia.
    - apply imap_ext. intros j a _. cbn [compose].
      replace (i + S j)%nat with (S i + j)%nat by lia.
      apply without_error_recovered.
      unfold recovered at 1. rewrite Hcalls, existsb_app.
      fold (recovered recovers e1 (S i + j)). fold (recovered recovers ext2 (S i + j)).
      rewrite (recovered_elsewhere e1 (S i + j)); [done|].
      eapply Forall_impl; [exact Hat1|]. intros c ->. lia.
    - intros c Hc. apply elem_of_app. tauto. }
  assert (state.Recovery (state.Spec action) ≠ "" →
          state.spec_Type (state.Spec action) = "ssh"
          ∨ state.spec_Type (state.Spec action) = "local" →
          0 < MaxRetries (config m) →
          (i, 1) ∈ recover_calls e1) as Hfirst.
  { intros H1 H2 H3. rewrite Hk1.
    destruct n1 as [|n1]; [exfalso; apply (Nat.lt_irrefl 0), Hn1; done|].
    cbn. left. }
  destruct r1 as [[e|]|].
  - repeat (rewrite bind_unfold; cbn [log emit fst snd]).
    match goal with |- context [(if ?b then notify env ?h ?ev else ret tt) ?w0] =>
      assert (∃ w2 nt, (if b then notify env h ev else ret tt) w0 = (Ret tt, w2)
                       ∧ cur w2 = cur w0 ∧ trace w2 = trace w0 ++ nt
                       ∧ recover_calls nt = [])
        as (w2 & nt & -> & Hc2 & Ht2 & Hk2)
    end.
    { destruct (String.eqb _ _).
      2:{ eexists _, []. split; [done|]. cbn [cur trace]. by rewrite app_nil_r. }
      match goal with |- context [notify env ?b ?ev ?w0] =>
        destruct (notify_run env b ev w0) as (w2 & l2 & -> & Hc2 & Ht2 & Hl2) end.
      eexists _, _. split; [done|]. split; [done|]. split; [done|].
      destruct (has_notifier m); [|done]. by destruct Hl2 as [-> | ->]. }
    cbn [cur trace] in Hc2, Ht2.
    destruct (IH (S i) (errs ++ [e]) cnt w2) as (r & w' & ext2 & -> & Hc & Ht & Hin & Hr).
    destruct (Hglue r w' ext2 (ELog "error" "Recovery failed for action" :: nt))
      as (ext & Hext & Hin' & Hhead & Htail & Hsub).
    { exact Hk2. }
    { rewrite Ht, Ht2, Ht1. rewrite <- !app_assoc. reflexivity. }
    { done. }
    exists r, w', ext. split; [done|]. split; [congruence|].
    split; [done|]. split; [done|].
    destruct r as [res|]; [|done]. cbv zeta in Hr |- *.
    destruct Hr as (Hlen & Hcnt & Hall).
    rewrite imap_cons, Hhead, Htail, Hr1, !filter_cons.
    rewrite decide_True by done. rewrite decide_False by done.
    split; [|split].
    + rewrite Hlen, length_app. cbn. lia.
    + done.
    + intros [|j] a Ha H1 H2 H3; cbn in Ha.
      * injection Ha as <-. rewrite Nat.add_0_r. apply Hsub. left. by apply Hfirst.
      * replace (i + S j)%nat with (S i + j)%nat by lia.
        apply Hsub. right. by eapply Hall.
  - repeat (rewrite bind_unfold; cbn [log emit fst snd]).
    match goal with |- context [recover_from env recovers m ?i' rest ?e' ?c' ?w0] =>
      destruct (IH i' e' c' w0) as (r & w' & ext2 & -> & Hc & Ht & Hin & Hr) end.
    cbn [cur trace] in Hc, Ht.
    destruct (Hglue r w' ext2 [ELog "info" "Action recovered successfully"])
      as (ext & Hext & Hin' & Hhead & Htail & Hsub).
    { done. }
    { rewrite Ht, Ht1. rewrite <- !app_assoc. reflexivity. }
    { done. }
    exists r, w', ext. split; [done|]. split; [congruence|].
    split; [done|]. split; [done|].
    destruct r as [res|]; [|done]. cbv zeta in Hr |- *.
    destruct Hr as (Hlen & Hcnt & Hall).
    rewrite imap_cons, Hhead, Htail, Hr1, !filter_cons.
    rewrite decide_False by done. rewrite decide_True by done.
    split; [|split].
    + done.
    + rewrite Hcnt. cbn [length]. lia.
    + intros [|j] a Ha H1 H2 H3; cbn in Ha.
      * injection Ha as <-. rewrite Nat.add_0_r. apply Hsub. left. by apply Hfirst.
      * replace (i + S j)%nat with (S i + j)%nat by lia.
        apply Hsub. right. by eapply Hall.
  - eexists Panic, w1, _. split; [done|]. split; [done|].
    split; [by rewrite Ht1, <- !app_assoc|]. split.
    + rewrite !recover_calls_app. cbn [recover_calls omap list_omap app].
      eapply Forall_impl; [exact Hat1|]. intros c ->. cbn. lia.
    + destruct Hr1 as (k & _ & Hk). by exists i, k.
Qed.

End RecoverActionFacts.

(** On a state path of at least 11 bytes [Save] returns, after one or two
    calls to the file system. *)
Lemma Save_returns (env : Env) (w : World state.Manager state.State) :
  (String.length "/state.json" ≤ String.length (state.filePath (cur w)))%nat →
  ∃ err w' new,
    state.Save env w = (Ret err, w')
    ∧ cur w' = cur w
    ∧ trace w' = trace w ++ new
    ∧ (steps w < steps w')%nat
    ∧ Forall (λ e, is_fs e = true) new.
Proof.
  intros Hlen. unfold state.Save. rewrite bind_unfold. cbn [get fst snd].
  destruct (_ <? _)%nat eqn:E; [apply Nat.ltb_lt in E; lia|].
  unfold os_call. repeat (rewrite bind_unfold; cbn [emit ask ret fst snd cur steps trace]).
  destruct (os_err env (steps w)) as [e|].
  - eexists _, _, [_]. split; [done|]. cbn. split; [done|]. split; [done|].
    split; [lia|]. by repeat constructor.
  - repeat (rewrite bind_unfold; cbn [emit ask ret fst snd cur steps trace]).
    destruct (os_err env (S (steps w))) as [e|];
      eexists _, _, [_; _]; cbn [ret]; (split; [done|]); cbn [cur trace steps];
      rewrite <- app_assoc; (split; [done|]); (split; [done|]);
      (split; [lia|]); by repeat constructor.
Qed.

Lemma attempts_trace_alternates i n : ∀ attempt cut,
  (n = 0%nat → cut = false) →
  recovery.attempts_trace i attempt n cut
  = (seq 0 (n - 1) ≫= λ k, [inl (i, attempt + Z.of_nat k); inr (5 * 1000000000)])
    ++ (if bool_decide (n = 0%nat) then []
        else [inl (i, attempt + Z.of_nat (n - 1))])
    ++ (if cut then [inr (5 * 1000000000)] else []).
Proof.
  induction n as [|n IH]; intros attempt cut Hcut.
  - by rewrite Hcut.
  - cbn [recovery.attempts_trace]. destruct n as [|n'].
    + cbn. by rewrite Z.add_0_r.
    + rewrite IH by done.
      replace (S (S n') - 1)%nat with (S (S n' - 1)) by lia.
      rewrite <- cons_seq, bind_cons, <- fmap_S_seq, list_fmap_bind.
      rewrite !bool_decide_eq_false_2 by done.
      cbn [app]. rewrite Z.add_0_r. do 2 f_equal.
      f_equal.
      * apply list_bind_ext; [|done]. intros k. cbn [compose].
        replace (attempt + 1 + Z.of_nat k) with (attempt + Z.of_nat (S k)) by lia.
        done.
      * replace (attempt + 1 + Z.of_nat (S n' - 1))
          with (attempt + Z.of_nat (S (S n' - 1))) by lia.
        done.
Qed.

Lemma filter_bool_length (l : list bool) :
  (length (filter (λ b, b = false) l) + length (filter (λ b, b = true) l)
   = length l)%nat.
Proof.
  induction l as [|[] l IH]; [done| |];
    rewrite !filter_cons; [rewrite decide_False, decide_True by done
                          |rewrite decide_True, decide_False by done];
    cbn [length]; lia.
Qed.

(** Property X19.  The recovery of one journal entry calls [Recover] at most
    [MaxRetries] times, numbering the attempts from 1, and waits 5 seconds
    between two attempts: its calls and waits alternate, every call but the
    last being a failed one followed by a wait.  A wait follows the last
    call only when that wait is cut short by the cancellation of the
    context, which ends the recovery with [ctx.Err()].  The recovery returns
    nil only when the last attempt succeeded or when no attempt was made,
    and it makes attempts exactly for an ssh or local action with a recovery
    command, [MaxRetries] being positive.  The journal is left as it is. *)
Theorem recoverAction_attempts (env : Env) (recovers : nat → nat → executor.outcome)
    (m : recovery.Manager) (i : nat) (action : state.CompletedAction)
    (w : World state.Manager state.State) :
  ∃ r w' ext n (cut : bool),
    recovery.recoverAction env recovers m i action w = (r, w')
    ∧ cur w' = cur w
    ∧ trace w' = trace w ++ ext
    ∧ calls_and_waits ext
      = (seq 0 (n - 1)
         ≫= λ k, [inl (i, 1 + Z.of_nat k); inr (5 * 1000000000)])
        ++ (if bool_decide (n = 0%nat) then [] else [inl (i, Z.of_nat n)])
        ++ (if cut then [inr (5 * 1000000000)] else [])
    ∧ recover_calls ext = (λ k, (i, 1 + Z.of_nat k)) <$> seq 0 n
    ∧ waited ext = replicate (n - 1 + (if cut then 1 else 0)) (5 * 1000000000)
    ∧ Z.of_nat n ≤ Z.max 0 (recovery.MaxRetries (recovery.config m))
    ∧ (∀ k, (S k < n)%nat → executor.succeeded (recovers i k) = Ret false)
    ∧ (cut = true →
       (0 < n)%nat ∧ r = Ret (Some (ctx_err env))
       ∧ Z.of_nat n < recovery.MaxRetries (recovery.config m))
    ∧ (r = Ret None →
       n = 0%nat ∨ ∃ k, n = S k ∧ executor.succeeded (recovers i k) = Ret true)
    ∧ ((0 < n)%nat ↔
       state.Recovery (state.Spec action) ≠ ""
       ∧ (state.spec_Type (state.Spec action) = "ssh"
          ∨ state.spec_Type (state.Spec action) = "local")
       ∧ 0 < recovery.MaxRetries (recovery.config m)).
Proof.
  destruct (recoverAction_exact env recovers m i action w)
    as (r & w' & ext & n & cut & Hrun & Hc & Ht & Hcw & Hn & Hfail & Hpos & Hcut
        & Hrecd & Hr).
  assert (n = 0%nat → cut = false) as Hcut0.
  { intros ->. destruct cut; [|done]. destruct (Hcut eq_refl) as [? _]. lia. }
  exists r, w', ext, n, cut.
  split; [done|]. split; [done|]. split; [done|]. split.
  { rewrite Hcw, attempts_trace_alternates by done. do 2 f_equal.
    case_bool_decide; [done|]. do 3 f_equal. lia. }
  split.
  { by rewrite recover_calls_of_calls_and_waits, Hcw, attempts_trace_calls. }
  split.
  { rewrite waited_of_calls_and_waits, Hcw, attempts_trace_waits. f_equal.
    destruct cut; [|done]. rewrite bool_decide_eq_true_2; [done|].
    destruct (Hcut eq_refl) as [? _]. lia. }
  split; [done|]. split; [done|]. split; [done|]. split; [|done].
  intros ->. destruct n as [|k]; [by left|]. right. exists k. split; [done|].
  unfold recovery.without_error in Hr. rewrite Hrecd in Hr.
  destruct (proj1 Hpos ltac:(lia)) as (Hne & Htype & Hmax).
  apply nonempty_spec in Hne. rewrite Hne in Hr. cbn [negb orb] in Hr.
  assert ((recovery.MaxRetries (recovery.config m) <=? 0) = false) as Hle
    by (apply Z.leb_gt; lia).
  rewrite Hle, andb_true_iff in Hr. cbn [orb] in Hr. destruct Hr as [_ Hr].
  by destruct (executor.succeeded (recovers i k)) as [[|]|].
Qed.

(** Property X20.  An entry with a recovery command whose action is neither ssh nor
    local cannot be recovered: [recoverAction] returns an error without
    calling anything, asking for a manual recovery when the action is
    proxmox-exec or proxmox-guest. *)
Theorem recoverAction_needs_ssh_or_local (env : Env)
    (recovers : nat → nat → executor.outcome) (m : recovery.Manager) (i : nat)
    (action : state.CompletedAction) (w : World state.Manager state.State) :
  let type := state.spec_Type (state.Spec action) in
  state.Recovery (state.Spec action) ≠ "" →
  type ≠ "ssh" →
  type ≠ "local" →
  ∃ e,
    recovery.recoverAction env recovers m i action w
    = (Ret (Some ("creating executor: " +:+ e)), w)
    ∧ e = if bool_decide (type = "proxmox-exec" ∨ type = "proxmox-guest")
          then type +:+ " recovery requires API connection - manual recovery needed"
          else "unknown action type: " +:+ type.
Proof.
  intros type Hrec Hssh Hlocal. unfold recovery.recoverAction.
  apply nonempty_spec in Hrec. rewrite Hrec. cbn [negb].
  unfold recovery.createExecutor. fold type.
  destruct (String.eqb_spec type "ssh"); [done|].
  destruct (String.eqb_spec type "local"); [done|].
  destruct (String.eqb_spec type "proxmox-exec") as [->|Hexec].
  { eexists. split; [done|]. by rewrite bool_decide_eq_true_2 by by left. }
  destruct (String.eqb_spec type "proxmox-guest") as [->|Hguest].
  { eexists. split; [done|]. by rewrite bool_decide_eq_true_2 by by right. }
  eexists. split; [done|]. rewrite bool_decide_eq_false_2; [done|]. by intros [?|?].
Qed.

(** Property X21.  [NewManager] replaces a [MaxRetries] of 0 by 3 and keeps any other
    value.  With a negative value no recovery command is ever run: the
    recovery of an ssh or local entry returns nil at once, as if it had
    succeeded. *)
Theorem NewManager_MaxRetries (cfg : recovery.Config) (has_notifier : bool) :
  let m := recovery.NewManager cfg has_notifier in
  recovery.MaxRetries (recovery.config m)
  = (if bool_decide (recovery.MaxRetries cfg = 0) then 3 else recovery.MaxRetries cfg)
  ∧ recovery.MaxRetries (recovery.config m) ≠ 0
  ∧ (recovery.MaxRetries cfg < 0 →
     ∀ env recovers i action (w : World state.Manager state.State),
       state.spec_Type (state.Spec action) = "ssh"
       ∨ state.spec_Type (state.Spec action) = "local" →
       recovery.recoverAction env recovers m i action w = (Ret None, w)).
Proof.
  cbv zeta. unfold recovery.NewManager. cbn [recovery.config].
  destruct (Z.eqb_spec (recovery.MaxRetries cfg) 0) as [H0|H0].
  - rewrite bool_decide_eq_true_2 by done. cbn. split; [done|]. split; [done|]. lia.
  - rewrite bool_decide_eq_false_2 by done. split; [done|]. split; [done|].
    intros Hneg env recovers i action w Htype. unfold recovery.recoverAction.
    destruct (nonempty _); [|done]. cbn [negb].
    unfold recovery.createExecutor.
    assert (Z.to_nat (recovery.MaxRetries cfg) = 0%nat) as Hz by lia.
    destruct Htype as [-> | ->]; cbn; by rewrite Hz.
Qed.

(** Property X22.  The recovery pass goes through the whole recovery list,
    whatever fails: every ssh or local entry with a recovery command gets
    its first call of [Recover] (for a positive [MaxRetries]), also after
    the recovery of an earlier entry failed.  When the pass returns, the
    entries for which a call of [Recover] succeeded (or nothing was to be
    called) are counted as successes and all the others as errors, so that
    the two counts add up to the length of the list; [Recover] is only
    called for entries of the list, and the journal is left as it is.  The
    pass only panics when a call of [Recover] returns a nil result with a
    nil error. *)
Theorem recovery_pass_handles_every_entry (env : Env)
    (recovers : nat → nat → executor.outcome) (m : recovery.Manager)
    (acts : list state.CompletedAction) (w : World state.Manager state.State) :
  ∃ r w' ext,
    recovery.recover_from env recovers m 0 acts [] 0 w = (r, w')
    ∧ cur w' = cur w
    ∧ trace w' = trace w ++ ext
    ∧ Forall (λ c, c.1 < length acts)%nat (recover_calls ext)
    ∧ match r with
      | Ret (recoveryErrors, successCount) =>
          let ok := imap (λ i a, recovery.without_error m recovers ext i a) acts in
          length recoveryErrors = length (filter (λ b, b = false) ok)
          ∧ successCount = Z.of_nat (length (filter (λ b, b = true) ok))
          ∧ Z.of_nat (length recoveryErrors) + successCount = Z.of_nat (length acts)
          ∧ (∀ i a, acts !! i = Some a →
               state.Recovery (state.Spec a) ≠ "" →
               state.spec_Type (state.Spec a) = "ssh"
               ∨ state.spec_Type (state.Spec a) = "local" →
               0 < recovery.MaxRetries (recovery.config m) →
               (i, 1) ∈ recover_calls ext)
      | Panic => ∃ i k, recovers i k = (None, None)
      end.
Proof.
  destruct (recover_from_exact env recovers m acts 0 [] 0 w)
    as (r & w' & ext & Hrun & Hc & Ht & Hin & Hr).
  exists r, w', ext. split; [done|]. split; [done|]. split; [done|]. split.
  - eapply Forall_impl; [exact Hin|]. intros c. cbn. lia.
  - destruct r as [[errs cnt]|]; [|done]. cbv zeta in Hr |- *.
    cbn [fst snd length Nat.add] in Hr. destruct Hr as (Hlen & Hcnt & Hall).
    rewrite Z.add_0_l in Hcnt.
    split; [done|]. split; [done|]. split; [|done].
    rewrite Hlen, Hcnt.
    pose proof (filter_bool_length
                  (imap (λ j a, recovery.without_error m recovers ext j a) acts))
      as Hsum.
    rewrite length_imap in Hsum. lia.
Qed.

(** Property X23.  A recovery cancelled while it waits for the power to stabilise
    returns [ctx.Err()] and leaves the journal in the status recovering,
    with its entries untouched and no recovery command run; from then on
    the journal no longer needs recovery, and [Execute] answers "nothing to
    recover" without doing anything. *)
Theorem cancelled_recovery_is_not_resumed (env : Env)
    (recovers : nat → nat → executor.outcome) (m : recovery.Manager)
    (w : World state.Manager state.State) :
  recovery.Enabled (recovery.config m) = true →
  state.NeedsRecovery (cur w) = true →
  0 < recovery.PowerStableDelay (recovery.config m) →
  (∀ k, ctx_done env k = true) →
  (String.length "/state.json" ≤ String.length (state.filePath (cur w)))%nat →
  ∃ w',
    recovery.Execute env recovers m w = (Ret (Some (ctx_err env)), w')
    ∧ state.status (state.mstate (cur w')) = state.StatusRecovering
    ∧ state.CompletedActions (state.mstate (cur w'))
      = state.CompletedActions (state.mstate (cur w))
    ∧ recover_calls (trace w') = recover_calls (trace w)
    ∧ state.NeedsRecovery (cur w') = false
    ∧ ∀ env' recovers',
        recovery.Execute env' recovers' m w'
        = (Ret (Some "nothing to recover (status: recovering)"), w').
Proof.
  intros Hen Hneeds Hdelay Hdone Hpath.
  unfold recovery.Execute at 1. rewrite Hen. cbn [negb].
  rewrite bind_unfold. cbn [get fst snd]. unfold state.GetState.
  unfold state.NeedsRecovery in Hneeds.
  rewrite <- negb_orb, Hneeds. cbn [negb].
  repeat (rewrite bind_unfold; cbn [log emit fst snd cur steps trace]).
  match goal with |- context [notify env ?b ?ev ?w0] =>
    destruct (notify_run env b ev w0) as (w1 & l1 & -> & Hc1 & Ht1 & Hl1) end.
  cbn [cur trace] in Hc1, Ht1.
  rewrite bind_unfold, do_SetStatus_run. cbn [fst snd].
  rewrite bind_unfold.
  match goal with |- context [state.Save env ?w0] =>
    destruct (Save_returns env w0) as (err & w2 & new & -> & Hc2 & Ht2 & _ & Hnew) end.
  { cbn. by rewrite Hc1. }
  cbn [cur trace] in Hc2, Ht2.
  rewrite bind_unfold.
  assert (∃ w3 l3, (match err with
                    | Some _ => log "error" "Failed to save recovery state"
                    | None => ret tt
                    end) w2 = (Ret tt, w3)
                   ∧ cur w3 = cur w2 ∧ trace w3 = trace w2 ++ l3
                   ∧ recover_calls l3 = [])
    as (w3 & l3 & -> & Hc3 & Ht3 & Hl3).
  { destruct err; [by eexists _, [_]|]. exists w2, []. by rewrite app_nil_r. }
  rewrite bind_unfold.
  destruct (0 <? recovery.PowerStableDelay (recovery.config m)) eqn:E;
    [|apply Z.ltb_ge in E; lia].
  unfold select_done.
  repeat (rewrite bind_unfold; cbn [log emit ask fst snd cur steps trace]).
  rewrite Hdone. cbn [ret].
  eexists. split; [done|]. cbn [cur trace].
  rewrite Hc3, Hc2, Hc1. cbn.
  split; [done|]. split; [done|]. split.
  { rewrite Ht3, Ht2, Ht1. rewrite !recover_calls_app, Hl3. cbn.
    assert (recover_calls new = []) as ->.
    { clear -Hnew. induction Hnew as [|e new He _ IH]; [done|]. by destruct e. }
    assert (recover_calls (if recovery.has_notifier m
                           then ENotify "recovery_start" :: l1 else []) = []) as ->.
    { destruct (recovery.has_notifier m); [|done]. by destruct Hl1 as [-> | ->]. }
    by rewrite !app_nil_r. }
  split; [done|].
  intros env' recovers'. unfold recovery.Execute. rewrite Hen. cbn [negb].
  rewrite bind_unfold. cbn [get fst snd cur]. unfold state.GetState. done.
Qed.

Section ExecuteOutcome.
Import recovery.
Variable env : Env.
Variable recovers : nat → nat → executor.outcome.
Variable m : Manager.

Lemma fs_no_calls (new : list (Effect state.State)) :
  Forall (λ e, is_fs e = true) new → recover_calls new = [].
Proof. induction 1 as [|e new He _ IH]; [done|]. by destruct e. Qed.

Lemma Save_cases (w : World state.Manager state.State) :
  ((String.length (state.filePath (cur w)) < String.length "/state.json")%nat
   ∧ state.Save env w = (Panic, w))
  ∨ ∃ err w' new,
      state.Save env w = (Ret err, w')
      ∧ cur w' = cur w
      ∧ trace w' = trace w ++ new
      ∧ recover_calls new = [].
Proof.
  destruct (decide (String.length (state.filePath (cur w))
                    < String.length "/state.json")%nat) as [Hshort|Hlong].
  - left. split; [done|]. unfold state.Save. rewrite bind_unfold. cbn [get fst snd].
    destruct (_ <? _)%nat eqn:E; [done|]. apply Nat.ltb_ge in E. lia.
  - right. destruct (Save_returns env w) as (err & w' & new & H1 & H2 & H3 & _ & H4);
      [lia|].
    exists err, w', new. split; [done|]. split; [done|]. split; [done|].
    by apply fs_no_calls.
Qed.

Lemma without_error_same_calls (tr tr' : list (Effect state.State))
    (acts : list state.CompletedAction) :
  recover_calls tr = recover_calls tr' →
  imap (λ i a, without_error m recovers tr i a) acts
  = imap (λ i a, without_error m recovers tr' i a) acts.
Proof.
  intros Hcalls. apply imap_ext. intros i a _.
  unfold without_error, recovered. by rewrite Hcalls.
Qed.

(** Claim C8, as amended.  [Execute] of the recovery manager returns at
    once, leaving everything as it is, when recovery is disabled or the
    status is neither in-progress nor failed.  Otherwise it either is
    cancelled while it waits for the power to stabilise, and returns
    [ctx.Err()] with the status recovering and no call of [Recover] made;
    or it runs the recovery pass to its end, in which every ssh or local
    entry of the recovery list gets its call of [Recover] (for a positive
    [MaxRetries]).  After the pass, if every entry was recovered without
    error (a call of [Recover] for it succeeded, or nothing was to be
    called) the status is idle, the journal state is the cleared state and
    the result is nil; otherwise the status is failed, [LastError] is the
    number of entries not recovered followed by " recovery errors", and the
    result is an error with that number.  It only panics on a state path
    shorter than "/state.json" or when a call of [Recover] returns a nil
    result with a nil error. *)
Theorem recovery_Execute_outcome (w : World state.Manager state.State) :
  ∃ r w' ext,
    Execute env recovers m w = (r, w')
    ∧ trace w' = trace w ++ ext
    ∧ if negb (Enabled (config m)) then
        r = Ret (Some "recovery is disabled") ∧ w' = w
      else if negb (state.NeedsRecovery (cur w)) then
        r = Ret (Some ("nothing to recover (status: "
                       +:+ state.Status_string (journal_status (cur w)) +:+ ")"))
        ∧ w' = w
      else
        let acts := state.GetActionsForRecovery (cur w) in
        let ok := imap (λ i a, without_error m recovers ext i a) acts in
        let n := length (filter (λ b, b = false) ok) in
        match r with
        | Panic =>
            (String.length (state.filePath (cur w)) < String.length "/state.json")%nat
            ∨ ∃ i k, recovers i k = (None, None)
        | Ret res =>
            (journal_status (cur w') = state.StatusRecovering
             ∧ res = Some (ctx_err env)
             ∧ 0 < PowerStableDelay (config m)
             ∧ (∃ k, ctx_done env k = true)
             ∧ recover_calls ext = []
             ∧ state.CompletedActions (state.mstate (cur w'))
               = state.CompletedActions (state.mstate (cur w)))
            ∨ ((∀ i a, acts !! i = Some a →
                  state.spec_Type (state.Spec a) = "ssh"
                  ∨ state.spec_Type (state.Spec a) = "local" →
                  0 < MaxRetries (config m) →
                  (i, 1) ∈ recover_calls ext)
               ∧ if bool_decide (n = 0%nat) then
                   journal_status (cur w') = state.StatusIdle
                   ∧ (∃ t, state.mstate (cur w') = state.zero_State state.StatusIdle t)
                   ∧ res = None
                 else
                   journal_status (cur w') = state.StatusFailed
                   ∧ state.LastError (state.mstate (cur w'))
                     = pretty (Z.of_nat n) +:+ " recovery errors"
                   ∧ res = Some ("recovery completed with " +:+ pretty (Z.of_nat n)
                                 +:+ " errors"))
        end.
Proof.
  unfold Execute. destruct (Enabled (config m)) eqn:Hen; cbn [negb].
  2:{ exists (Ret (Some "recovery is disabled")), w, []. by rewrite app_nil_r. }
  rewrite bind_unfold. cbn [get fst snd]. unfold state.GetState.
  assert (negb (bool_decide (state.status (state.mstate (cur w)) = state.StatusInProgress))
          && negb (bool_decide (state.status (state.mstate (cur w)) = state.StatusFailed))
          = negb (state.NeedsRecovery (cur w))) as ->.
  { unfold state.NeedsRecovery. by rewrite negb_orb. }
  destruct (state.NeedsRecovery (cur w)) eqn:Hneeds; cbn [negb].
  2:{ eexists _, w, []. by rewrite app_nil_r. }
  repeat (rewrite bind_unfold; cbn [log emit fst snd cur steps trace]).
  match goal with |- context [notify env ?b ?ev ?w0] =>
    destruct (notify_run env b ev w0) as (w1 & l1 & -> & Hc1 & Ht1 & Hl1) end.
  cbn [cur trace] in Hc1, Ht1.
  assert (∃ n1, trace w1 = trace w ++ n1 ∧ recover_calls n1 = []) as (n1 & Hn1 & Hk1).
  { eexists. rewrite Ht1, <- app_assoc. split; [done|].
    destruct (has_notifier m); [|done]. by destruct Hl1 as [-> | ->]. }
  clear Ht1 Hl1 l1.
  rewrite bind_unfold, do_SetStatus_run. cbn [fst snd].
  rewrite bind_unfold.
  match goal with |- context [state.Save env ?w0] =>
    destruct (Save_cases w0)
      as [[Hshort ->] | (err & w2 & new2 & -> & Hc2 & Ht2 & Hk2)] end.
  { cbn [cur state.SetStatus state.with_state state.filePath] in Hshort.
    rewrite Hc1 in Hshort.
    eexists Panic, _, _. split; [done|]. cbn [trace]. rewrite Hn1, <- app_assoc.
    split; [done|]. by left. }
  cbn [cur trace] in Hc2, Ht2.
  rewrite bind_unfold.
  assert (∃ w3 l3, (match err with
                    | Some _ => log "error" "Failed to save recovery state"
                    | None => ret tt
                    end) w2 = (Ret tt, w3)
                   ∧ cur w3 = cur w2 ∧ trace w3 = trace w2 ++ l3
                   ∧ recover_calls l3 = [])
    as (w3 & l3 & -> & Hc3 & Ht3 & Hl3).
  { destruct err; [by eexists _, [_]|]. exists w2, []. by rewrite app_nil_r. }
  rewrite bind_unfold.
  match goal with |- context [(if 0 <? ?d then ?c1 else ?c2) w3] =>
    assert (∃ cancelled w4 l4,
              (if 0 <? d then c1 else c2) w3 = (Ret cancelled, w4)
              ∧ cur w4 = cur w3 ∧ trace w4 = trace w3 ++ l4
              ∧ recover_calls l4 = []
              ∧ (cancelled = true → 0 < d ∧ ∃ k, ctx_done env k = true))
      as (cancelled & w4 & l4 & -> & Hc4 & Ht4 & Hl4 & Hcan)
  end.
  { destruct (Z.ltb_spec 0 (PowerStableDelay (config m))).
    - unfold select_done.
      repeat (rewrite bind_unfold; cbn [log emit ask fst snd cur steps trace]).
      eexists _, _, [_; _]. split; [done|]. cbn [cur trace].
      rewrite <- app_assoc. split; [done|]. split; [done|]. split; [done|].
      intros Hc. split; [done|]. eexists. exact Hc.
    - exists false, w3, []. rewrite app_nil_r. done. }
  assert (cur w4 = state.SetStatus (cur w) (time_at env (steps w1))
                     state.StatusRecovering) as Hcur4.
  { by rewrite Hc4, Hc3, Hc2, Hc1. }
  assert (∃ pre, trace w4 = trace w ++ pre ∧ recover_calls pre = [])
    as (pre & Hpre & Hkpre).
  { eexists. rewrite Ht4, Ht3, Ht2, Hn1, <- !app_assoc. split; [done|].
    rewrite !recover_calls_app, Hk1, Hk2, Hl3, Hl4. done. }
  clear Hc4 Hc3 Hc2 Ht4 Ht3 Ht2 Hn1 Hk1 Hk2 Hl3 Hl4.
  destruct cancelled.
  { cbn [ret]. exists (Ret (Some (ctx_err env))), w4, pre.
    split; [done|]. split; [done|]. left.
    destruct (Hcan eq_refl) as [Hd Hk].
    unfold journal_status. rewrite Hcur4. done. }
  clear Hcan.
  repeat (rewrite bind_unfold; cbn [get log emit fst snd cur steps trace]).
  assert (state.GetActionsForRecovery (cur w4) = state.GetActionsForRecovery (cur w))
    as -> by by rewrite Hcur4.
  set (acts := state.GetActionsForRecovery (cur w)).
  match goal with |- context [recover_from env recovers m 0 acts [] 0 ?w0] =>
    destruct (recover_from_exact env recovers m acts 0 [] 0 w0)
      as (r5 & w5 & e5 & -> & Hc5 & Ht5 & Hin5 & Hr5) end.
  cbn [cur trace] in Hc5, Ht5.
  destruct r5 as [[errs cnt]|].
  2:{ eexists Panic, _, _. split; [done|]. rewrite Ht5, Hpre, <- !app_assoc.
      split; [done|]. by right. }
  cbv zeta in Hr5. cbn [fst snd length Nat.add] in Hr5.
  destruct Hr5 as (Hlen & _ & Hall).
  assert (∀ ext : list (Effect state.State),
            recover_calls ext = recover_calls e5 →
            length (filter (λ b, b = false)
                      (imap (λ i a, without_error m recovers ext i a) acts))
            = length errs) as Hcount.
  { intros ext Hext. by rewrite (without_error_same_calls ext e5 acts Hext), Hlen. }
  assert (Forall (λ a, state.Recovery (state.Spec a) ≠ "") acts) as Hrec.
  { apply Forall_forall. intros a Ha. unfold acts in Ha.
    rewrite GetActionsForRecovery_filter in Ha.
    apply elem_of_reverse, list_elem_of_filter in Ha as [[_ ?] _]. done. }
  assert (∀ ext : list (Effect state.State),
            recover_calls ext = recover_calls e5 →
            ∀ i a, acts !! i = Some a →
              state.spec_Type (state.Spec a) = "ssh"
              ∨ state.spec_Type (state.Spec a) = "local" →
              0 < MaxRetries (config m) → (i, 1) ∈ recover_calls ext) as Hfirst.
  { intros ext -> i a Ha Htype Hmax. apply (Hall i a); try done.
    rewrite Forall_forall in Hrec. apply Hrec. by eapply list_elem_of_lookup_2. }
  clear Hlen Hall Hin5.
  cbn [fst].
  rewrite bind_unfold.
  match goal with |- context [(if bool_decide (length errs = 0%nat) then ?c1 else ?c2) w5] =>
    assert (∃ w6 l6,
              (if bool_decide (length errs = 0%nat) then c1 else c2) w5 = (Ret tt, w6)
              ∧ trace w6 = trace w5 ++ l6
              ∧ recover_calls l6 = []
              ∧ state.filePath (cur w6) = state.filePath (cur w)
              ∧ if bool_decide (length errs = 0%nat)
                then ∃ t, state.mstate (cur w6) = state.zero_State state.StatusIdle t
                else state.status (state.mstate (cur w6)) = state.StatusFailed
                     ∧ state.LastError (state.mstate (cur w6))
                       = pretty (Z.of_nat (length errs)) +:+ " recovery errors")
      as (w6 & l6 & -> & Ht6 & Hl6 & Hpath6 & Hst6)
  end.
  { case_bool_decide.
    - rewrite bind_unfold, do_SetStatus_run. cbn [fst snd]. rewrite do_Clear_run.
      eexists _, [_; _]. split; [done|]. cbn [cur trace steps].
      rewrite <- app_assoc. split; [done|]. split; [done|].
      rewrite Hc5, Hcur4. split; [done|]. by eexists.
    - rewrite bind_unfold, do_SetStatus_run. cbn [fst snd]. rewrite do_SetError_run.
      eexists _, [_]. split; [done|]. cbn [cur trace steps].
      split; [done|]. split; [done|].
      rewrite Hc5, Hcur4. done. }
  rewrite bind_unfold.
  destruct (Save_cases w6)
    as [[Hshort ->] | (err6 & w7 & new7 & -> & Hc7 & Ht7 & Hk7)].
  { rewrite Hpath6 in Hshort.
    eexists Panic, _, _. split; [done|].
    rewrite Ht6, Ht5, Hpre, <- !app_assoc. split; [done|]. by left. }
  rewrite bind_unfold.
  assert (∃ w8 l8, (match err6 with
                    | Some _ => log "error" "Failed to save state after recovery"
                    | None => ret tt
                    end) w7 = (Ret tt, w8)
                   ∧ cur w8 = cur w7 ∧ trace w8 = trace w7 ++ l8
                   ∧ recover_calls l8 = [])
    as (w8 & l8 & -> & Hc8 & Ht8 & Hl8).
  { destruct err6; [by eexists _, [_]|]. exists w7, []. by rewrite app_nil_r. }
  rewrite bind_unfold.
  destruct (notify_run env (has_notifier m) "recovery_complete" w8)
    as (w9 & l9 & -> & Hc9 & Ht9 & Hl9).
  assert (∃ n9, trace w9 = trace w8 ++ n9 ∧ recover_calls n9 = []) as (n9 & Hn9 & Hk9).
  { eexists. split; [exact Ht9|].
    destruct (has_notifier m); [|done]. by destruct Hl9 as [-> | ->]. }
  clear Ht9 Hl9 l9.
  assert (cur w9 = cur w6) as Hcur9 by (by rewrite Hc9, Hc8, Hc7).
  assert (∃ post, trace w9 = trace w ++ pre ++ [ELog "info" "Recovering actions"]
                                ++ e5 ++ post
                  ∧ recover_calls post = []) as (post & Hpost & Hkpost).
  { eexists. rewrite Hn9, Ht8, Ht7, Ht6, Ht5, Hpre, <- !app_assoc. split; [done|].
    rewrite !recover_calls_app, Hl6, Hk7, Hl8, Hk9. done. }
  assert (∀ tail : list (Effect state.State),
            recover_calls tail = [] →
            recover_calls (pre ++ [ELog "info" "Recovering actions"] ++ e5 ++ post ++ tail)
            = recover_calls e5) as Hsame.
  { intros tail Htail. rewrite !recover_calls_app, Hkpre, Hkpost, Htail.
    cbn. by rewrite app_nil_r. }
  case_bool_decide as Herrs.
  - rewrite bool_decide_eq_false_2 by lia.
    repeat (rewrite bind_unfold; cbn [log emit ret fst snd cur steps trace]).
    eexists _, _, _. split; [done|]. cbn [cur trace].
    rewrite Hpost, <- !app_assoc. split; [done|]. right.
    specialize (Hsame [ELog "info" "Recovery completed successfully"] eq_refl).
    split; [by apply Hfirst|].
    rewrite (Hcount _ Hsame), Herrs. rewrite bool_decide_eq_true_2 by done.
    unfold journal_status. rewrite Hcur9. destruct Hst6 as [t Ht]. rewrite Ht.
    split; [done|]. split; [by exists t|done].
  - rewrite bool_decide_eq_true_2 by lia. cbn [ret].
    eexists _, _, _. split; [done|].
    rewrite Hpost. split; [done|]. right.
    specialize (Hsame [] eq_refl). rewrite app_nil_r in Hsame.
    split; [by apply Hfirst|].
    rewrite (Hcount _ Hsame). rewrite bool_decide_eq_false_2 by done.
    unfold journal_status. rewrite Hcur9. destruct Hst6 as [? ?]. done.
Qed.

End ExecuteOutcome.

(** ** The monitor *)

Section MonitorFacts.
Import ups.

Lemma try_send_bounded {A} (ch : list A) (x : A) :
  (length ch ≤ chan_cap)%nat → (length (try_send ch x) ≤ chan_cap)%nat.
Proof.
  intros H. unfold try_send. destruct (_ <? _)%nat eqn:E; [|done].
  apply Nat.ltb_lt in E. rewrite length_app. simpl. lia.
Qed.

Lemma checkEvents_fields m now current last :
  thresholds (checkEvents m now current last) = thresholds m
  ∧ interval (checkEvents m now current last) = interval m
  ∧ statusCh (checkEvents m now current last) = statusCh m.
Proof.
  unfold checkEvents.
  destruct last as [last|];
    [destruct (IsOnline last && IsOnBattery current),
       (IsOnBattery last && IsOnline current)|];
    destruct (IsOnBattery current); cbn; try done;
    destruct (_ <=? _); try done;
    destruct (_ <=? _); try done;
    destruct (_ <=? _); done.
Qed.

Lemma checkEvents_bounded m now current last :
  (length (eventCh m) ≤ chan_cap)%nat →
  (length (eventCh (checkEvents m now current last)) ≤ chan_cap)%nat.
Proof.
  intros H. rewrite checkEvents_requests, send_all_take.
  rewrite length_app, length_take. lia.
Qed.

Lemma monitorLoop_invariant ticks : ∀ m last,
  (length (eventCh m) ≤ chan_cap)%nat →
  (length (statusCh m) ≤ chan_cap)%nat →
  let m' := (monitorLoop m last ticks).1 in
  (length (eventCh m') ≤ chan_cap)%nat
  ∧ (length (statusCh m') ≤ chan_cap)%nat
  ∧ thresholds m' = thresholds m
  ∧ interval m' = interval m.
Proof.
  induction ticks as [|t ticks IH]; intros m last He Hs; cbn [monitorLoop].
  { done. }
  assert (length (eventCh (take_from m t)) ≤ chan_cap)%nat as He'.
  { cbn. rewrite length_drop. lia. }
  assert (length (statusCh (take_from m t)) ≤ chan_cap)%nat as Hs'.
  { cbn. rewrite length_drop. lia. }
  destruct (sample t) as [st|].
  - set (m1 := send_status (take_from m t) st).
    destruct (checkEvents_fields m1 (clock t) st last) as (Ht & Hi & Hst).
    destruct (IH (checkEvents m1 (clock t) st last) (Some st)) as (H1 & H2 & H3 & H4).
    + apply checkEvents_bounded. done.
    + rewrite Hst. cbn. by apply try_send_bounded.
    + split; [done|]. split; [done|]. split; [by rewrite H3, Ht|by rewrite H4, Hi].
  - destruct (IH (take_from m t) last He' Hs') as (H1 & H2 & H3 & H4). done.
Qed.

(** The second component of the loop: the last sample read. *)
Lemma monitorLoop_last ticks : ∀ m lastStatus,
  (monitorLoop m lastStatus ticks).2
  = match last (omap sample ticks) with
    | Some s => Some s
    | None => lastStatus
    end.
Proof.
  induction ticks as [|t ticks IH]; intros m lastStatus; cbn [monitorLoop]; [done|].
  destruct (sample t) as [st|] eqn:Est; cbn [omap list_omap]; rewrite ?Est.
  - rewrite IH, last_cons. by destruct (last _).
  - by rewrite IH.
Qed.

End MonitorFacts.

(** Property X24.  The two channels of the monitor never hold more than their 10
    slots, whatever the samples, the failed reads and the pace of the
    consumers, and the loop never changes the thresholds. *)
Theorem monitor_channels_bounded (t : ups.Thresholds) (ticks : list ups.tick) :
  let m := (ups.Start (ups.NewMonitor t) ticks).1 in
  (length (ups.eventCh m) ≤ 10)%nat
  ∧ (length (ups.statusCh m) ≤ 10)%nat
  ∧ ups.thresholds m = t.
Proof.
  cbv zeta. unfold ups.Start.
  destruct (monitorLoop_invariant ticks (ups.NewMonitor t) None)
    as (H1 & H2 & H3 & _); cbn; try lia.
  done.
Qed.

(** Property X25.  A sample that is not on battery never raises a battery alarm nor a
    PowerLost, whatever its charge: the only event it can publish is one
    PowerRestored, and it publishes it exactly when the previous sample was
    on battery, the sample is on line and the channel has room. *)
Theorem mains_sample_events (m : ups.Monitor) (now : ups.EventType → Z)
    (current : ups.Status) (last : option ups.Status) :
  ups.IsOnBattery current = false →
  let new := ups.published m (ups.checkEvents m now current last) in
  (∀ e, e ∈ new → e = ups.mkEvent now ups.EventPowerRestored current "Power restored")
  ∧ (length new ≤ 1)%nat
  ∧ (length new = 1%nat ↔
     (∃ prev, last = Some prev ∧ ups.IsOnBattery prev = true)
     ∧ ups.IsOnline current = true
     ∧ (length (ups.eventCh m) < 10)%nat).
Proof.
  intros Hmains. cbv zeta.
  destruct (checkEvents_published m now current last) as [_ ->].
  unfold ups.requests, ups.power_requests, ups.battery_requests. rewrite Hmains.
  rewrite app_nil_r.
  destruct last as [prev|].
  - rewrite andb_false_r. cbn [app].
    destruct (ups.IsOnBattery prev) eqn:Eb, (ups.IsOnline current) eqn:Eo; cbn [andb].
    + destruct (ups.chan_cap - length (ups.eventCh m))%nat as [|n] eqn:E; cbn.
      * split; [by intros e ?%elem_of_nil|]. split; [lia|].
        unfold ups.chan_cap in E. split; [done|]. intros (_ & _ & ?). lia.
      * rewrite take_nil. split; [by intros e ->%list_elem_of_singleton|].
        split; [done|]. unfold ups.chan_cap in E. split; [|done].
        intros _. split; [by eexists|]. split; [done|lia].
    + rewrite take_nil. split; [by intros e ?%elem_of_nil|]. split; [cbn; lia|].
      split; [done|]. by intros (_ & ? & _).
    + rewrite take_nil. split; [by intros e ?%elem_of_nil|]. split; [cbn; lia|].
      split; [done|]. intros ((? & [= <-] & ?) & _). congruence.
    + rewrite take_nil. split; [by intros e ?%elem_of_nil|]. split; [cbn; lia|].
      split; [done|]. by intros (_ & ? & _).
  - rewrite take_nil. split; [by intros e ?%elem_of_nil|]. split; [cbn; lia|].
    split; [done|]. by intros ((? & [=] & _) & _).
Qed.

(** Property X26.  Battery alarms are raised on the level, not on the
    change: a sample on battery (and not on line) that follows an identical
    sample publishes the alarm of its charge again, and nothing else, when
    the event channel has room (fewer than 10 events waiting); on a full
    channel the alarm is dropped and nothing is published. *)
Theorem battery_alarm_repeats (m : ups.Monitor) (now : ups.EventType → Z)
    (s : ups.Status) (k : ups.EventType) :
  ups.IsOnBattery s = true →
  ups.IsOnline s = false →
  ups.battery_level (ups.thresholds m) (ups.BatteryCharge s) = Some k →
  ups.published m (ups.checkEvents m now s (Some s))
  = if (length (ups.eventCh m) <? 10)%nat
    then [ups.mkEvent now k s (ups.battery_message k (ups.BatteryCharge s))]
    else [].
Proof.
  intros Hb Ho Hk.
  destruct (checkEvents_published m now s (Some s)) as [_ ->].
  unfold ups.requests, ups.power_requests, ups.battery_requests.
  rewrite Hb, Ho, Hk. cbn [andb app].
  destruct (Nat.ltb_spec (length (ups.eventCh m)) 10) as [Hroom|Hfull].
  - destruct (ups.chan_cap - length (ups.eventCh m))%nat as [|n] eqn:E.
    + unfold ups.chan_cap in E. lia.
    + cbn. by rewrite take_nil.
  - replace (ups.chan_cap - length (ups.eventCh m))%nat with 0%nat
      by (unfold ups.chan_cap; lia). done.
Qed.
(** Property X27.  What the loop remembers as the previous sample is the last sample
    it could read: a failed read changes nothing, so that a transition is
    measured against the last good sample, however many reads failed in
    between. *)
Theorem monitorLoop_remembers_last_sample (m : ups.Monitor)
    (lastStatus : option ups.Status) (ticks : list ups.tick) :
  (ups.monitorLoop m lastStatus ticks).2
  = match last (omap ups.sample ticks) with
    | Some s => Some s
    | None => lastStatus
    end.
Proof. apply monitorLoop_last. Qed.

Section Stalled.
Import ups.

Lemma take_from_nothing m tk :
  events_taken tk = 0%nat → statuses_taken tk = 0%nat → take_from m tk = m.
Proof. intros He Hs. unfold take_from. rewrite He, Hs. by destruct m. Qed.

Lemma take_take_app {A} (l1 l2 : list A) (n : nat) :
  take n l1 ++ take (n - length (take n l1)) l2 = take n (l1 ++ l2).
Proof.
  rewrite take_app. f_equal. rewrite length_take.
  destruct (decide (n ≤ length l1)%nat).
  - replace (n - n `min` length l1)%nat with 0%nat by lia.
    replace (n - length l1)%nat with 0%nat by lia. done.
  - f_equal. lia.
Qed.

Lemma monitorLoop_unread ticks : ∀ m lastStatus,
  Forall (λ tk, events_taken tk = 0%nat ∧ statuses_taken tk = 0%nat) ticks →
  let m' := (monitorLoop m lastStatus ticks).1 in
  statusCh m' = statusCh m ++ take (chan_cap - length (statusCh m)) (omap sample ticks)
  ∧ eventCh m'
    = eventCh m ++ take (chan_cap - length (eventCh m))
                     (all_requests (thresholds m) lastStatus ticks).
Proof.
  induction ticks as [|tk ticks IH]; intros m lastStatus Hun; cbn [monitorLoop].
  { cbn. by rewrite !take_nil, !app_nil_r. }
  inversion Hun as [|? ? [He Hs] Hun']; subst.
  rewrite take_from_nothing by done. cbn [all_requests omap list_omap].
  destruct (sample tk) as [st|]; [|by apply IH].
  set (m1 := send_status m st).
  destruct (checkEvents_fields m1 (clock tk) st lastStatus) as (Ht & _ & Hst).
  destruct (IH (checkEvents m1 (clock tk) st lastStatus) (Some st) Hun') as [H1 H2].
  cbv zeta. rewrite H1, H2, Hst, Ht. split.
  - cbn [m1 send_status statusCh]. rewrite try_send_take, <- app_assoc. f_equal.
    rewrite length_app.
    change (st :: omap sample ticks) with ([st] ++ omap sample ticks).
    rewrite <- take_take_app. f_equal. f_equal. lia.
  - rewrite checkEvents_requests, send_all_take, <- app_assoc. f_equal.
    cbn [m1 send_status eventCh thresholds].
    rewrite length_app, <- take_take_app. f_equal. f_equal. lia.
Qed.

End Stalled.

(** Property X28.  While nobody reads the channels, the monitor keeps what it sent
    first and drops what comes later: the status channel holds the first 10
    samples read and the event channel the first 10 events raised, in
    order. *)
Theorem unread_channels_keep_the_oldest (t : ups.Thresholds) (ticks : list ups.tick) :
  Forall (λ tk, ups.events_taken tk = 0%nat ∧ ups.statuses_taken tk = 0%nat) ticks →
  let m := (ups.Start (ups.NewMonitor t) ticks).1 in
  ups.statusCh m = take 10 (omap ups.sample ticks)
  ∧ ups.eventCh m = take 10 (ups.all_requests t None ticks).
Proof.
  intros Hun. cbv zeta. unfold ups.Start.
  destruct (monitorLoop_unread ticks (ups.NewMonitor t) None Hun) as [H1 H2].
  by rewrite H1, H2.
Qed.

(** ** The NUT client *)

Section ClientFacts.
Import ups.

Lemma cut_app (sep : ascii) (a b : string) :
  without sep a = true → cut sep (a +:+ String sep b) = Some (a, b).
Proof.
  induction a as [|x a IH].
  - intros _. change (cut sep (String sep b) = Some ("", b)).
    cbn [cut]. by rewrite Ascii.eqb_refl.
  - change (String x a +:+ String sep b) with (String x (a +:+ String sep b)).
    cbn [cut without].
    destruct (Ascii.eqb x sep); [done|]. cbn [negb andb]. intros Ha.
    by rewrite (IH Ha).
Qed.

Lemma length_TrimLeft c s : (String.length (TrimLeft c s) ≤ String.length s)%nat.
Proof.
  induction s as [|a s IH]; cbn [TrimLeft String.length]; [done|].
  destruct (Ascii.eqb a c); cbn [String.length]; lia.
Qed.

Lemma length_TrimRight c s : (String.length (TrimRight c s) ≤ String.length s)%nat.
Proof.
  induction s as [|a s IH]; cbn [TrimRight String.length]; [done|].
  destruct (TrimRight c s); [destruct (Ascii.eqb a c)|];
    cbn [String.length] in *; lia.
Qed.

Lemma TrimRight_snoc c v : TrimRight c (v +:+ String c "") = TrimRight c v.
Proof.
  induction v as [|a v IH].
  - change (TrimRight c (String c "") = TrimRight c ""). cbn [TrimRight].
    by rewrite Ascii.eqb_refl.
  - change (String a v +:+ String c "") with (String a (v +:+ String c "")).
    cbn [TrimRight]. by rewrite IH.
Qed.

Lemma Trim_quoted c v :
  Trim v c = v → Trim (String c (v +:+ String c "")) c = v.
Proof.
  unfold Trim. cbn [TrimLeft]. rewrite Ascii.eqb_refl. intros Hv.
  destruct v as [|a v].
  { change ("" +:+ String c "") with (String c ""). cbn [TrimLeft TrimRight].
    by rewrite Ascii.eqb_refl. }
  change (String a v +:+ String c "") with (String a (v +:+ String c "")).
  cbn [TrimLeft].
  cbn [TrimLeft] in Hv. destruct (Ascii.eqb a c) eqn:Ea.
  - pose proof (length_TrimRight c (TrimLeft c v)) as H1.
    pose proof (length_TrimLeft c v) as H2.
    rewrite Hv in H1. cbn [String.length] in H1. lia.
  - change (TrimRight c (String a v +:+ String c "") = String a v).
    by rewrite TrimRight_snoc.
Qed.

Lemma SplitN_var_line (name : string) (kv : string * string) :
  without " " name = true →
  without " " kv.1 = true →
  SplitN (var_line name kv) " " 4
  = ["VAR"; name; kv.1; String quote (kv.2 +:+ String quote "")].
Proof.
  intros Hname Hkey. unfold var_line.
  change ("VAR " +:+ ?s) with ("VAR" +:+ String " " s).
  change (" " +:+ ?s) with (String " "%char s).
  cbn [SplitN]. rewrite cut_app by done.
  cbn [SplitN]. rewrite (cut_app " " name _ Hname).
  change (" " +:+ ?s) with (String " "%char s).
  rewrite (cut_app " " kv.1 _ Hkey). done.
Qed.

Lemma scan_listing (name : string) (kvs : list (string * string)) :
  ∀ (rest : list string) (vars : gmap string string),
  without " " name = true →
  Forall (λ kv, without " " kv.1 = true ∧ Trim kv.2 quote = kv.2) kvs →
  scan ((var_line name <$> kvs) ++ rest) vars
  = scan rest (foldl (λ vars kv, <[kv.1 := kv.2]> vars) vars kvs).
Proof.
  induction kvs as [|kv kvs IH]; intros rest vars Hname Hkvs; [done|].
  inversion Hkvs as [|? ? [Hkey Hval] Hkvs']; subst.
  cbn [fmap list_fmap app scan foldl].
  assert (HasPrefix (var_line name kv) "BEGIN LIST VAR" = false) as -> by reflexivity.
  assert (HasPrefix (var_line name kv) "END LIST VAR" = false) as -> by reflexivity.
  assert (HasPrefix (var_line name kv) "ERR" = false) as -> by reflexivity.
  assert (HasPrefix (var_line name kv) "VAR " = true) as ->.
  { unfold HasPrefix, var_line.
    change ("VAR " +:+ ?s) with (String "V" (String "A" (String "R" (String " " s)))).
    cbn. by destruct (name +:+ _). }
  rewrite SplitN_var_line by done. rewrite Trim_quoted by done.
  by apply IH.
Qed.

End ClientFacts.

Section ClientTheorems.
Import ups.

Lemma prefix_app (p s : string) : String.prefix p (p +:+ s) = true.
Proof.
  induction p as [|a p IH].
  - change ("" +:+ s) with s. by destruct s.
  - change (String a p +:+ s) with (String a (p +:+ s)). cbn [String.prefix].
    destruct (ascii_dec a a) as [_|n]; [exact IH | by destruct n].
Qed.

Lemma foldl_insert_list_to_map (kvs : list (string * string)) :
  ∀ vars : gmap string string,
  foldl (λ vars kv, <[kv.1 := kv.2]> vars) vars kvs
  = list_to_map (reverse kvs) ∪ vars.
Proof.
  induction kvs as [|[k v] kvs IH]; intros vars; cbn [foldl].
  - rewrite reverse_nil, list_to_map_nil. by rewrite (left_id_L ∅ (∪)).
  - rewrite IH, reverse_cons, list_to_map_app, list_to_map_cons, list_to_map_nil.
    cbn [fst snd].
    rewrite insert_empty, <- (assoc_L (∪)), <- insert_union_singleton_l. done.
Qed.

(** Property X29.  A listing as a NUT server prints it is read back exactly: for
    variable names without a space and values without a quote at either
    end, [getVariables] returns the map of the lines between BEGIN and END,
    the last line of a name winning; what follows END is not read. *)
Theorem getVariables_reads_listing (c : Client) (kvs : list (string * string))
    (junk : list string) :
  connected c = true →
  without " " (upsName c) = true →
  Forall (λ kv, without " " kv.1 = true ∧ Trim kv.2 quote = kv.2) kvs →
  let r := {| write_err := None;
              lines := ("BEGIN LIST VAR " +:+ upsName c)
                       :: (var_line (upsName c) <$> kvs)
                       ++ ("END LIST VAR " +:+ upsName c) :: junk;
              scan_err := None |} in
  ∃ vars,
    getVariables c r = inl vars
    ∧ vars = foldl (λ vars kv, <[kv.1 := kv.2]> vars) ∅ kvs
    ∧ (NoDup kvs.*1 → ∀ k v, vars !! k = Some v ↔ (k, v) ∈ kvs).
Proof.
  intros Hconn Hname Hkvs r. subst r. unfold getVariables. rewrite Hconn.
  cbn [negb write_err lines scan].
  assert (HasPrefix ("BEGIN LIST VAR " +:+ upsName c) "BEGIN LIST VAR" = true) as ->.
  { unfold HasPrefix.
    change ("BEGIN LIST VAR " +:+ ?s) with ("BEGIN LIST VAR" +:+ (String " "%char s)).
    apply prefix_app. }
  rewrite scan_listing by done. cbn [scan].
  assert (HasPrefix ("END LIST VAR " +:+ upsName c) "BEGIN LIST VAR" = false) as ->
    by reflexivity.
  assert (HasPrefix ("END LIST VAR " +:+ upsName c) "END LIST VAR" = true) as ->.
  { unfold HasPrefix.
    change ("END LIST VAR " +:+ ?s) with ("END LIST VAR" +:+ (String " "%char s)).
    apply prefix_app. }
  cbn [scan_err]. eexists. split; [done|]. split; [done|].
  intros Hnd k v. rewrite foldl_insert_list_to_map, (right_id_L ∅ (∪)).
  assert (NoDup (reverse kvs).*1) as Hnd' by (by rewrite fmap_reverse, reverse_Permutation).
  split.
  - intros H. apply elem_of_list_to_map_2 in H. by rewrite elem_of_reverse in H.
  - intros H. apply elem_of_list_to_map_1; [done|]. by rewrite elem_of_reverse.
Qed.

End ClientTheorems.

Section AtoiFacts.
Import ups.

Lemma digit_pretty_N_char (d : N) :
  (d < 10)%N → digit (pretty_N_char d) = Some (Z.of_N d).
Proof.
  intros Hd.
  destruct d as [|p]; [done|].
  do 4 (destruct p as [p|p|]; try done; try lia).
Qed.

Lemma pretty_N_char_not_sign (d : N) :
  Ascii.eqb (pretty_N_char d) "-" = false ∧ Ascii.eqb (pretty_N_char d) "+" = false.
Proof. unfold pretty_N_char. by repeat case_match. Qed.

(** The digits of [x] are read back, whatever follows. *)
Lemma digits_pretty_N_go (x : N) : ∀ s,
  (0 < x)%N →
  digits (pretty_N_go x s) 0 = digits s (Z.of_N x)
  ∧ ∃ d rest, pretty_N_go x s = String (pretty_N_char d) rest.
Proof.
  induction (N.lt_wf_0 x) as [x _ IH]; intros s Hx.
  rewrite pretty_N_go_step by done.
  assert (x `div` 10 < x)%N as Hlt by (apply N.div_lt; lia).
  assert (x `mod` 10 < 10)%N as Hmod by (apply N.mod_lt; lia).
  assert (x = 10 * (x `div` 10) + x `mod` 10)%N as Hx10 by (apply N.div_mod; lia).
  destruct (decide (x `div` 10 = 0)%N) as [H0|H0].
  - rewrite H0, pretty_N_go_0. split; [|by eexists _, _].
    cbn [digits]. rewrite digit_pretty_N_char by done. f_equal. lia.
  - destruct (IH (x `div` 10)%N Hlt (String (pretty_N_char (x `mod` 10)) s))
      as [Hd Hhead]; [lia|].
    split; [|done]. rewrite Hd. cbn [digits].
    rewrite digit_pretty_N_char by done. f_equal. lia.
Qed.

Lemma ParseUint_from_step c s x d :
  digit c = Some d → 0 ≤ d < 10 → (0 ≤ x)%Z →
  (if x <=? maxUint64 then ParseUint_from (String c s) x
   else (maxUint64, Some ErrRange))
  = if x * 10 + d <=? maxUint64 then ParseUint_from s (x * 10 + d)
    else (maxUint64, Some ErrRange).
Proof.
  intros Hc Hd Hx. unfold maxUint64 in *.
  destruct (Z.leb_spec x (2 ^ 64 - 1)).
  - cbn [ParseUint_from]. rewrite Hc. unfold maxUint64.
    destruct (Z.leb_spec ((2 ^ 64 - 1) / 10 + 1) x) as [Hcut|Hcut].
    + change ((2 ^ 64 - 1) / 10 + 1) with 1844674407370955162 in Hcut.
      destruct (Z.leb_spec (x * 10 + d) (2 ^ 64 - 1)); [lia|done].
    + change ((2 ^ 64 - 1) / 10 + 1) with 1844674407370955162 in Hcut.
      cbv zeta.
      destruct (Z.leb_spec (x * 10 + d) (2 ^ 64 - 1)) as [Hfit|Hover].
      * rewrite Z.mod_small by lia.
        destruct (Z.ltb_spec (x * 10 + d) (x * 10)); [lia|].
        destruct (Z.ltb_spec (2 ^ 64 - 1) (x * 10 + d)); [lia|]. done.
      * assert ((x * 10 + d) mod 2 ^ 64 = x * 10 + d - 2 ^ 64) as ->.
        { symmetry. apply (Z.mod_unique _ _ 1); lia. }
        destruct (Z.ltb_spec (x * 10 + d - 2 ^ 64) (x * 10)); [done|lia].
  - destruct (Z.leb_spec (x * 10 + d) (2 ^ 64 - 1)); [lia|done].
Qed.

Lemma ParseUint_from_pretty_N_go (x : N) : ∀ s,
  (0 < x)%N → ParseUint_from (pretty_N_go x s) 0 = after_digits s x.
Proof.
  induction (N.lt_wf_0 x) as [x _ IH]; intros s Hx.
  rewrite pretty_N_go_step by done.
  assert (x `div` 10 < x)%N as Hlt by (apply N.div_lt; lia).
  assert (x `mod` 10 < 10)%N as Hmod by (apply N.mod_lt; lia).
  assert (x = 10 * (x `div` 10) + x `mod` 10)%N as Hx10 by (apply N.div_mod; lia).
  pose proof (ParseUint_from_step (pretty_N_char (x `mod` 10)) s
                (Z.of_N (x `div` 10)) (Z.of_N (x `mod` 10))
                (digit_pretty_N_char _ Hmod)) as Hstep.
  replace (Z.of_N (x `div` 10) * 10 + Z.of_N (x `mod` 10)) with (Z.of_N x) in Hstep
    by lia.
  assert (0 ≤ Z.of_N (x `mod` 10) < 10) as Hd.
  { split; [apply N2Z.is_nonneg|]. by apply N2Z.inj_lt in Hmod. }
  assert (0 ≤ Z.of_N (x `div` 10)) as Hq by apply N2Z.is_nonneg.
  specialize (Hstep Hd Hq).
  unfold after_digits. rewrite <- Hstep.
  destruct (decide (x `div` 10 = 0)%N) as [H0|H0].
  - rewrite H0, pretty_N_go_0. done.
  - rewrite IH by (done || lia). done.
Qed.

Lemma length_pretty_N_go_ge (x : N) : ∀ s,
  (String.length s ≤ String.length (pretty_N_go x s))%nat.
Proof.
  induction (N.lt_wf_0 x) as [x _ IH]; intros s.
  destruct (decide (x = 0)%N) as [->|Hx]; [by rewrite pretty_N_go_0|].
  rewrite pretty_N_go_step by lia.
  etrans; [|apply IH; apply N.div_lt; lia]. cbn. lia.
Qed.

Lemma length_pretty_N_go (k : nat) : ∀ (x : N) s,
  (10 ^ N.of_nat k ≤ x)%N →
  (S k + String.length s ≤ String.length (pretty_N_go x s))%nat.
Proof.
  induction k as [|k IH]; intros x s Hx.
  - rewrite pretty_N_go_step by (cbn in Hx; lia).
    etrans; [|apply length_pretty_N_go_ge]. cbn. lia.
  - assert (10 ^ N.of_nat (S k) = 10 * 10 ^ N.of_nat k)%N as Hpow.
    { rewrite Nat2N.inj_succ, N.pow_succ_r by lia. done. }
    assert (0 < 10 ^ N.of_nat k)%N by (apply N.neq_0_lt_0, N.pow_nonzero; lia).
    rewrite pretty_N_go_step by lia.
    etrans; [|apply IH].
    + cbn. lia.
    + apply N.div_le_lower_bound; lia.
Qed.

Lemma pretty_N_go_app (x : N) : ∀ s junk,
  pretty_N_go x s +:+ junk = pretty_N_go x (s +:+ junk).
Proof.
  induction (N.lt_wf_0 x) as [x _ IH]; intros s junk.
  destruct (decide (x = 0)%N) as [->|Hx]; [by rewrite !pretty_N_go_0|].
  rewrite (pretty_N_go_step x s), (pretty_N_go_step x (s +:+ junk)) by lia.
  rewrite IH by (apply N.div_lt; lia). reflexivity.
Qed.

Lemma head_pretty_N_go (x : N) s :
  (0 < x)%N → ∃ d rest, pretty_N_go x s = String (pretty_N_char d) rest.
Proof. intros Hx. by destruct (digits_pretty_N_go x s Hx) as [_ ?]. Qed.

Lemma short_pretty_N_go (x : N) s (k : nat) :
  (0 < x)%N →
  (String.length (pretty_N_go x s) < S k + String.length s)%nat →
  Z.of_N x < 10 ^ Z.of_nat k.
Proof.
  intros Hx Hlen.
  destruct (decide (10 ^ N.of_nat k ≤ x)%N) as [Hge|Hlt].
  - apply (length_pretty_N_go k x s) in Hge. lia.
  - apply N.nle_gt in Hlt. apply N2Z.inj_lt in Hlt.
    rewrite N2Z.inj_pow, nat_N_Z in Hlt. done.
Qed.

(** [Atoi] on the decimal digits of a positive number. *)
Lemma Atoi_digits (x : N) :
  (0 < x)%N →
  Atoi (pretty_N_go x "")
  = if 2 ^ 63 <=? Z.of_N x then (2 ^ 63 - 1, Some ErrRange) else (Z.of_N x, None).
Proof.
  intros Hx.
  destruct (digits_pretty_N_go x "" Hx) as [Hd (d & rest & Hhead)].
  destruct (pretty_N_char_not_sign d) as [Hm Hp].
  pose proof (ParseUint_from_pretty_N_go x "" Hx) as Hu.
  unfold Atoi.
  destruct ((0 <? String.length (pretty_N_go x ""))%nat
            && (String.length (pretty_N_go x "") <? 19)%nat) eqn:Efast.
  - apply andb_true_iff in Efast as [_ Hlen]. apply Nat.ltb_lt in Hlen.
    pose proof (short_pretty_N_go x "" 18 Hx) as Hsmall. cbn [String.length] in Hsmall.
    specialize (Hsmall ltac:(lia)).
    change (10 ^ Z.of_nat 18) with 1000000000000000000 in Hsmall.
    rewrite Hhead in Hd |- *. rewrite Hm, Hp. cbn [orb]. rewrite Hd. cbn [digits].
    destruct (Z.leb_spec (2 ^ 63) (Z.of_N x)); [lia|done].
  - rewrite Hhead in Hu |- *. unfold ParseInt, ParseUint.
    rewrite Hm, Hp. cbn [orb negb andb]. rewrite Hu. unfold after_digits.
    cbn [ParseUint_from]. unfold maxUint64.
    destruct (Z.leb_spec (Z.of_N x) (2 ^ 64 - 1)).
    + destruct (Z.leb_spec (2 ^ 63) (Z.of_N x)); done.
    + destruct (Z.leb_spec (2 ^ 63) (Z.of_N x)); [|lia].
      by destruct (Z.leb_spec (2 ^ 63) (2 ^ 64 - 1)).
Qed.

Lemma Atoi_minus_digits (x : N) :
  (0 < x)%N →
  Atoi ("-" +:+ pretty_N_go x "")
  = if 2 ^ 63 <? Z.of_N x then (- 2 ^ 63, Some ErrRange) else (- Z.of_N x, None).
Proof.
  intros Hx.
  destruct (digits_pretty_N_go x "" Hx) as [Hd (d & rest & Hhead)].
  pose proof (ParseUint_from_pretty_N_go x "" Hx) as Hu.
  change ("-" +:+ pretty_N_go x "") with (String "-" (pretty_N_go x "")).
  unfold Atoi. cbn [String.length].
  destruct ((0 <? S (String.length (pretty_N_go x "")))%nat
            && (S (String.length (pretty_N_go x "")) <? 19)%nat) eqn:Efast.
  - apply andb_true_iff in Efast as [_ Hlen]. apply Nat.ltb_lt in Hlen.
    pose proof (short_pretty_N_go x "" 18 Hx) as Hsmall. cbn [String.length] in Hsmall.
    specialize (Hsmall ltac:(lia)).
    change (10 ^ Z.of_nat 18) with 1000000000000000000 in Hsmall.
    change (Ascii.eqb "-" "-") with true. cbn [orb].
    rewrite Hhead in Hd |- *. rewrite Hd. cbn [digits].
    destruct (Z.ltb_spec (2 ^ 63) (Z.of_N x)); [lia|done].
  - unfold ParseInt, ParseUint.
    change (Ascii.eqb "-" "-") with true. change (Ascii.eqb "-" "+") with false.
    cbn [orb negb andb]. rewrite Hhead in Hu |- *. rewrite Hu. unfold after_digits.
    cbn [ParseUint_from]. unfold maxUint64.
    destruct (Z.leb_spec (Z.of_N x) (2 ^ 64 - 1)).
    + destruct (Z.ltb_spec (2 ^ 63) (Z.of_N x)); done.
    + destruct (Z.ltb_spec (2 ^ 63) (Z.of_N x)); [|lia].
      by destruct (Z.ltb_spec (2 ^ 63) (2 ^ 64 - 1)).
Qed.

(** Past [maxUint64] the digits are a range error, whatever follows them. *)
Lemma Atoi_overflow (x : N) (junk : string) :
  2 ^ 64 ≤ Z.of_N x →
  Atoi (pretty_N_go x "" +:+ junk) = (2 ^ 63 - 1, Some ErrRange)
  ∧ Atoi ("-" +:+ pretty_N_go x "" +:+ junk) = (- 2 ^ 63, Some ErrRange).
Proof.
  intros Hbig. assert (0 < x)%N as Hx by lia.
  rewrite pretty_N_go_app. change ("" +:+ junk) with junk.
  destruct (head_pretty_N_go x junk Hx) as (d & rest & Hhead).
  destruct (pretty_N_char_not_sign d) as [Hm Hp].
  pose proof (ParseUint_from_pretty_N_go x junk Hx) as Hu.
  assert (20 ≤ String.length (pretty_N_go x junk))%nat as Hlen.
  { etrans; [|apply (length_pretty_N_go 19 x junk)]; [lia|].
    apply N2Z.inj_le. rewrite N2Z.inj_pow. cbn. lia. }
  assert (after_digits junk x = (maxUint64, Some ErrRange)) as Ha.
  { unfold after_digits, maxUint64.
    destruct (Z.leb_spec (Z.of_N x) (2 ^ 64 - 1)); [lia|done]. }
  rewrite Ha in Hu. split.
  - unfold Atoi.
    destruct (Nat.ltb_spec (String.length (pretty_N_go x junk)) 19); [lia|].
    rewrite andb_false_r. rewrite Hhead in Hu |- *. unfold ParseInt, ParseUint.
    rewrite Hm, Hp. cbn [orb negb andb]. rewrite Hu. done.
  - change ("-" +:+ pretty_N_go x junk) with (String "-" (pretty_N_go x junk)).
    unfold Atoi. cbn [String.length].
    destruct (Nat.ltb_spec (S (String.length (pretty_N_go x junk))) 19); [lia|].
    rewrite andb_false_r. unfold ParseInt, ParseUint.
    change (Ascii.eqb "-" "-") with true. change (Ascii.eqb "-" "+") with false.
    cbn [orb negb andb]. rewrite Hhead in Hu |- *. rewrite Hu. done.
Qed.

(** [Atoi] reads back what [pretty] prints, up to the bounds of an [int]. *)
Lemma Atoi_pretty (z : Z) :
  Atoi (pretty z)
  = if 2 ^ 63 <=? z then (2 ^ 63 - 1, Some ErrRange)
    else if z <? - 2 ^ 63 then (- 2 ^ 63, Some ErrRange)
    else (z, None).
Proof.
  destruct z as [|p|p].
  - done.
  - unfold pretty, pretty_Z, pretty, pretty_positive, pretty, pretty_N.
    rewrite decide_False by done. rewrite Atoi_digits by lia.
    change (Z.of_N (N.pos p)) with (Z.pos p).
    destruct (Z.leb_spec (2 ^ 63) (Z.pos p)); [done|].
    destruct (Z.ltb_spec (Z.pos p) (- 2 ^ 63)); [lia|done].
  - unfold pretty, pretty_Z, pretty, pretty_positive, pretty, pretty_N.
    rewrite decide_False by done. rewrite Atoi_minus_digits by lia.
    change (Z.of_N (N.pos p)) with (Z.pos p).
    destruct (Z.leb_spec (2 ^ 63) (Z.neg p)); [lia|].
    destruct (Z.ltb_spec (2 ^ 63) (Z.pos p)), (Z.ltb_spec (Z.neg p) (- 2 ^ 63));
      try lia; done.
Qed.

Lemma Atoi_pretty_overflow (z : Z) (junk : string) :
  2 ^ 64 ≤ z →
  Atoi (pretty z +:+ junk) = (2 ^ 63 - 1, Some ErrRange)
  ∧ Atoi (pretty (- z) +:+ junk) = (- 2 ^ 63, Some ErrRange).
Proof.
  intros Hz. destruct z as [|p|p]; [lia| |lia].
  destruct (Atoi_overflow (N.pos p) junk) as [Hpos Hneg]; [done|].
  change (- Z.pos p) with (Z.neg p).
  unfold pretty, pretty_Z, pretty, pretty_positive, pretty, pretty_N.
  rewrite decide_False by done. split; [done|].
  change (("-" +:+ pretty_N_go (N.pos p) "") +:+ junk)
    with ("-" +:+ pretty_N_go (N.pos p) "" +:+ junk).
  done.
Qed.

Lemma digit_range a d : digit a = Some d → 0 ≤ d ≤ 9.
Proof.
  unfold digit. destruct (_ && _) eqn:E; [|done]. intros [= <-].
  apply andb_true_iff in E as [E1 E2]. apply Z.leb_le in E1, E2. lia.
Qed.

Lemma digits_bound s : ∀ acc n,
  0 ≤ acc → digits s acc = Some n →
  0 ≤ n < (acc + 1) * 10 ^ Z.of_nat (String.length s).
Proof.
  induction s as [|a s IH]; intros acc n Hacc; cbn [digits String.length].
  - intros [= <-]. cbn. lia.
  - destruct (digit a) as [d|] eqn:Ed; [|done]. apply digit_range in Ed.
    intros Hn. apply IH in Hn; [|lia].
    rewrite Nat2Z.inj_succ, Z.pow_succ_r by lia.
    assert (0 < 10 ^ Z.of_nat (String.length s)) by (apply Z.pow_pos_nonneg; lia).
    nia.
Qed.

Lemma ParseUint_from_nonneg s : ∀ n, 0 ≤ n → 0 ≤ (ParseUint_from s n).1.
Proof.
  induction s as [|a s IH]; intros n Hn; cbn [ParseUint_from]; [done|].
  destruct (digit a) as [d|] eqn:Ed; [|done].
  destruct (_ <=? n); [done|]. cbv zeta.
  destruct (_ || _); [done|]. apply IH. apply Z.mod_pos_bound. lia.
Qed.

Lemma Atoi_range s : - 2 ^ 63 ≤ (Atoi s).1 < 2 ^ 63.
Proof.
  unfold Atoi.
  destruct ((0 <? String.length s)%nat && (String.length s <? 19)%nat) eqn:Efast.
  - apply andb_true_iff in Efast as [_ Hlen]. apply Nat.ltb_lt in Hlen.
    destruct s as [|c rest]; [cbn; lia|]. cbn [String.length] in Hlen.
    assert (∀ body n, (String.length body ≤ 18)%nat → digits body 0 = Some n →
                      0 ≤ n < 10 ^ 18) as Hsmall.
    { intros body n Hb Hn. apply digits_bound in Hn; [|lia].
      assert (10 ^ Z.of_nat (String.length body) ≤ 10 ^ 18)
        by (apply Z.pow_le_mono_r; lia). lia. }
    destruct (Ascii.eqb c "-" || Ascii.eqb c "+") eqn:Esign.
    + destruct rest as [|a rest']; [cbn; lia|].
      destruct (digits (String a rest') 0) as [n|] eqn:En; [|cbn; lia].
      apply Hsmall in En; [|cbn [String.length] in *; lia].
      destruct (Ascii.eqb c "-"); cbn [fst]; lia.
    + destruct (digits (String c rest) 0) as [n|] eqn:En; [|cbn; lia].
      apply Hsmall in En; [|cbn [String.length] in *; lia].
      destruct (Ascii.eqb c "-"); cbn [fst]; lia.
  - unfold ParseInt. destruct s as [|c rest]; [cbn; lia|].
    set (body := if Ascii.eqb c "+" || Ascii.eqb c "-" then rest else String c rest).
    assert (0 ≤ (ParseUint body).1) as Hun.
    { unfold ParseUint. destruct body; [done|]. by apply ParseUint_from_nonneg. }
    destruct (ParseUint body) as [un [[]|]]; cbn [fst] in *; [cbn; lia| |].
    all: destruct (Ascii.eqb c "-"); cbn [negb andb];
      repeat (match goal with |- context [Z.leb ?a ?b] => destruct (Z.leb_spec a b)
                         | |- context [Z.ltb ?a ?b] => destruct (Z.ltb_spec a b) end);
      cbn [fst]; lia.
Qed.

End AtoiFacts.

(** Property X30.  [GetStatus] fails exactly when [getVariables] does.
    Otherwise the status carries the name of the client and the clock, the
    flags as listed (empty when absent), and for the charge what
    [strconv.Atoi] makes of the listed value: a decimal integer within the
    range of an [int] is read back exactly; one above the range reads as
    the largest [int] and one below as the smallest; digits that run past
    64 bits read as the largest [int] (the smallest after a minus sign)
    whatever follows them; a missing value reads as 0.  The charge is
    always within the range of an [int]. *)
Theorem GetStatus_reads_the_listing (c : ups.Client) (r : ups.response) (now : Z) :
  match ups.getVariables c r with
  | inr e => ups.GetStatus c r now = inr e
  | inl vars =>
      ∃ st,
        ups.GetStatus c r now = inl st
        ∧ ups.Name st = ups.upsName c
        ∧ ups.Timestamp st = now
        ∧ ups.status st = default "" (vars !! "ups.status")
        ∧ (∀ z, vars !! "battery.charge" = Some (pretty z) →
                ups.BatteryCharge st = Z.max (- 2 ^ 63) (Z.min z (2 ^ 63 - 1)))
        ∧ (∀ z junk, 2 ^ 64 ≤ z →
                (vars !! "battery.charge" = Some (pretty z +:+ junk) →
                 ups.BatteryCharge st = 2 ^ 63 - 1)
                ∧ (vars !! "battery.charge" = Some (pretty (- z) +:+ junk) →
                   ups.BatteryCharge st = - 2 ^ 63))
        ∧ (vars !! "battery.charge" = None → ups.BatteryCharge st = 0)
        ∧ - 2 ^ 63 ≤ ups.BatteryCharge st < 2 ^ 63
  end.
Proof.
  unfold ups.GetStatus. destruct (ups.getVariables c r) as [vars|e]; [|done].
  eexists. split; [done|]. cbn.
  split; [done|]. split; [done|]. split; [done|]. split; [|split; [|split]].
  - intros z ->. cbn [from_option]. rewrite Atoi_pretty.
    destruct (Z.leb_spec (2 ^ 63) z); [cbn; lia|].
    destruct (Z.ltb_spec z (- 2 ^ 63)); cbn; lia.
  - intros z junk Hz.
    destruct (Atoi_pretty_overflow z junk Hz) as [Hpos Hneg].
    split; intros ->; cbn [from_option]; [by rewrite Hpos | by rewrite Hneg].
  - by intros ->.
  - destruct (vars !! "battery.charge") as [v|]; cbn; [apply Atoi_range|lia].
Qed.

(** ** Runs of the further properties *)

Section MoreRuns.
Import scenario.

Lemma ExecuteWithRetry_cancelled_during_wait_witness :
  ∃ out,
    executor.ExecuteWithRetry always_fails (cancelled_at 1) "context canceled"
      (Some five_attempts) = Ret out
    ∧ executor.returned out = (None, Some "context canceled")
    ∧ executor.calls out = 2%nat
    ∧ executor.waits out = executor.backoff_delay five_attempts <$> seq 0 2.
Proof.
  apply (ExecuteWithRetry_cancelled_during_wait always_fails (cancelled_at 1)
           "context canceled" five_attempts 1).
  - reflexivity.
  - intros i _. reflexivity.
  - intros i Hi. destruct i as [|i]; [reflexivity | lia].
  - reflexivity.
Defined.

Lemma ExecuteWithRetry_backoff_witness :
  ∃ out,
    executor.ExecuteWithRetry always_fails (λ _, false) "context canceled"
      (Some five_attempts) = Ret out
    ∧ executor.waits out
      = [10 * 1000000; 20 * 1000000; 40 * 1000000; 80 * 1000000].
Proof.
  destruct (ExecuteWithRetry_backoff always_fails (λ _, false) "context canceled"
              five_attempts) as (out & Hrun & Hlen & Hnth & _).
  - vm_compute. discriminate.
  - intros i _. reflexivity.
  - intros i _. reflexivity.
  - exists out. split; [exact Hrun|].
    destruct (executor.waits out) as [|d0 [|d1 [|d2 [|d3 [|d4 l]]]]]; try discriminate.
    rewrite (Hnth 0%nat d0 eq_refl), (Hnth 1%nat d1 eq_refl),
      (Hnth 2%nat d2 eq_refl), (Hnth 3%nat d3 eq_refl).
    reflexivity.
Defined.

Lemma Execute_returns_witness :
  ∃ err w',
    orchestrator.Execute quiet_env no_schedule abort_all_plan "battery at 15%"
      (init_world orchestrator.idle_State) = (Ret err, w').
Proof.
  apply (Execute_returns quiet_env no_schedule abort_all_plan "battery at 15%"
           (init_world orchestrator.idle_State)).
  intros phase action k Hphase Haction.
  repeat (apply elem_of_cons in Hphase as [->|Hphase]);
    [| |by apply elem_of_nil in Hphase];
    repeat (apply elem_of_cons in Haction as [->|Haction]);
    try (by apply elem_of_nil in Haction); discriminate.
Defined.

Lemma action_journal_entry_witness :
  ∃ out w1 ok w2 e,
    orchestrator.executeAction quiet_env 0 "p1" 0 checked_action
      (init_world orchestrator.idle_State) = (Ret out, w1)
    ∧ orchestrator.track quiet_env abort_all_plan 0
        (sequential_phase "p1" [checked_action]) 0 checked_action out w1
      = (Ret ok, w2)
    ∧ orchestrator.CompletedActions (cur w2) = [e]
    ∧ orchestrator.Success e = false
    ∧ orchestrator.Error e = "healthcheck failed".
Proof.
  destruct (action_journal_entry quiet_env abort_all_plan 0
              (sequential_phase "p1" [checked_action]) 0 checked_action
              (init_world orchestrator.idle_State))
    as (out & w1 & ok & w2 & e & ext & Hrun & Htrack & Hj & _ & Hok & Hiff & Herr & _).
  - reflexivity.
  - discriminate.
  - exists out, w1, ok, w2, e.
    split; [exact Hrun|]. split; [exact Htrack|]. split; [exact Hj|].
    split; [|exact Herr].
    rewrite Hok. destruct ok; [|reflexivity].
    destruct (proj1 Hiff eq_refl) as (r & _ & _ & Hh). discriminate Hh.
Defined.

Lemma recoverAction_needs_ssh_or_local_witness :
  ∃ e,
    recovery.recoverAction quiet_env recovers_ok recovery_on 0 guest_action
      (init_world abc_journal)
    = (Ret (Some ("creating executor: " +:+ e)), init_world abc_journal)
    ∧ e = "proxmox-guest recovery requires API connection - manual recovery needed".
Proof.
  destruct (recoverAction_needs_ssh_or_local quiet_env recovers_ok recovery_on 0
              guest_action (init_world abc_journal)) as (e & Hrun & He).
  - discriminate.
  - discriminate.
  - discriminate.
  - exists e. split; [exact Hrun|]. rewrite He. reflexivity.
Defined.

Lemma cancelled_recovery_is_not_resumed_witness :
  ∃ w',
    recovery.Execute cancelled_env recovers_ok recovery_delayed (init_world abc_journal)
    = (Ret (Some "context canceled"), w')
    ∧ state.NeedsRecovery (cur w') = false
    ∧ recovery.Execute quiet_env recovers_ok recovery_delayed w'
      = (Ret (Some "nothing to recover (status: recovering)"), w').
Proof.
  destruct (cancelled_recovery_is_not_resumed cancelled_env recovers_ok
              recovery_delayed (init_world abc_journal))
    as (w' & Hrun & _ & _ & _ & Hneeds & Hagain).
  - reflexivity.
  - reflexivity.
  - reflexivity.
  - intros k. reflexivity.
  - vm_compute. lia.
  - exists w'. split; [exact Hrun|]. split; [exact Hneeds|]. apply Hagain.
Defined.

Lemma mains_sample_events_witness :
  ups.IsOnBattery (reading "OL" 5) = false
  ∧ ∀ e,
      e ∈ ups.published (ups.NewMonitor levels)
            (ups.checkEvents (ups.NewMonitor levels) (λ _, 0) (reading "OL" 5)
               (Some (reading "OB" 5))) →
      e = ups.mkEvent (λ _, 0) ups.EventPowerRestored (reading "OL" 5) "Power restored".
Proof.
  split; [reflexivity|].
  apply (proj1 (mains_sample_events (ups.NewMonitor levels) (λ _, 0) (reading "OL" 5)
                  (Some (reading "OB" 5)) eq_refl)).
Defined.

Lemma battery_alarm_repeats_witness :
  ups.published (ups.NewMonitor levels)
    (ups.checkEvents (ups.NewMonitor levels) (λ _, 0) (reading "OB" 15)
       (Some (reading "OB" 15)))
  = [ups.mkEvent (λ _, 0) ups.EventCriticalBattery (reading "OB" 15)
       (ups.battery_message ups.EventCriticalBattery 15)].
Proof.
  apply (battery_alarm_repeats (ups.NewMonitor levels) (λ _, 0) (reading "OB" 15)
           ups.EventCriticalBattery).
  - reflexivity.
  - reflexivity.
  - reflexivity.
Defined.

Lemma unread_channels_keep_the_oldest_witness :
  ups.statusCh (ups.Start (ups.NewMonitor levels) (replicate 12 (unread_tick "OB" 5))).1
  = take 10 (omap ups.sample (replicate 12 (unread_tick "OB" 5)))
  ∧ ups.eventCh (ups.Start (ups.NewMonitor levels) (replicate 12 (unread_tick "OB" 5))).1
    = take 10 (ups.all_requests levels None (replicate 12 (unread_tick "OB" 5))).
Proof.
  apply (unread_channels_keep_the_oldest levels (replicate 12 (unread_tick "OB" 5))).
  apply Forall_replicate. split; reflexivity.
Defined.

Lemma getVariables_reads_listing_witness :
  ∃ vars,
    ups.getVariables nut_client
      {| ups.write_err := None;
         ups.lines := "BEGIN LIST VAR ups"
                      :: (ups.var_line "ups" <$> listing) ++ ["END LIST VAR ups"];
         ups.scan_err := None |}
    = inl vars
    ∧ vars = <["battery.charge" := "85"]> (<["ups.status" := "OB"]> ∅).
Proof.
  destruct (getVariables_reads_listing nut_client listing [])
    as (vars & Hrun & Hvars & _).
  - reflexivity.
  - reflexivity.
  - repeat constructor.
  - exists vars. split; [exact Hrun | exact Hvars].
Defined.

(** Claim C8 fails: a recovery cancelled while it waits for the power to
    stabilise returns with two entries still to recover and no call of
    [Recover] made, and the status is recovering, neither idle nor failed,
    with an empty [LastError]. *)
Lemma cancelled_recovery_ends_recovering :
  let run := recovery.Execute cancelled_env recovers_ok recovery_delayed
               (init_world abc_journal) in
  run.1 = Ret (Some "context canceled")
  ∧ length (state.GetActionsForRecovery abc_journal) = 2%nat
  ∧ recover_calls (trace run.2) = []
  ∧ recovery.journal_status (cur run.2) = state.StatusRecovering
  ∧ recovery.journal_status (cur run.2) ≠ state.StatusFailed
  ∧ state.LastError (state.mstate (cur run.2)) = "".
Proof. vm_compute. done. Qed.

End MoreRuns.
